(** * Cratecode client: the upload pipeline

    A shallow embedding of the TypeScript sources of the uploader
    ([upload/index.ts], [upload/util.ts], [upload/unit.ts],
    [upload/manifest.ts], [upload/lesson.ts]) together with the properties
    of its manifest walker, identity resolver, config merge, file-set
    construction and container file-sync session.

    Conventions.
    - A JavaScript string is a [string]; every character is one code unit in
      the range 0..255, which covers every literal of the sources.
    - A [Record<string, V>] object is an association list in insertion
      order ([Js.Rec]); its enumeration order is the one of ECMAScript
      (array-index keys in ascending order, then the others in insertion
      order).  An object made by a literal inherits from
      [Object.prototype]: [Js.lookup], [Js.has_in] and [Js.store] are
      [o[k]], [k in o] and [o[k] = v] on such an object; [Js.get], [Js.has]
      and [Js.set] speak of its own properties.
    - Objects that are shared and mutated (the ID memo, the request counter,
      the file sets handed to [uploadFiles]) live in an explicit heap and are
      named by their location.
    - Time is a number of milliseconds; [setTimeout] and [sleep] put a timer
      in the world, the event loop fires it when it is due. *)

From Stdlib Require Import String Ascii List Bool NArith ZArith Lia Arith
  Permutation DecimalString DecimalPos.
Import ListNotations.
Open Scope string_scope.
Open Scope list_scope.

(* ===================================================================== *)
(** * Part I: the model                                                    *)
(* ===================================================================== *)

(** ** JavaScript values used by the uploader *)
Module Js.

(** [Boolean(s)] for a string: only the empty string is falsy. *)
Definition truthy (s : string) : bool := negb (s =? "").

(** [s.startsWith(p)] *)
Definition startsWith (p s : string) : bool := String.prefix p s.

(** [s.substring(n)] *)
Definition substring_from (n : nat) (s : string) : string :=
  String.substring n (String.length s - n) s.

(** [s.endsWith(p)] *)
Definition endsWith (p s : string) : bool :=
  let lp := String.length p in
  let ls := String.length s in
  (lp <=? ls)%nat && (String.substring (ls - lp) lp s =? p).

(** [String(n)] for a non-negative integer. *)
Definition string_of_N (n : N) : string :=
  NilEmpty.string_of_uint (N.to_uint n).

(** The one-character string that holds a double quote. *)
Definition dq : string := String (ascii_of_N 34) EmptyString.

(** [xs.join(sep)] *)
Definition join (sep : string) (xs : list string) : string :=
  String.concat sep xs.

(** *** Records: [Record<string, V>] *)
Section Rec.
Context {V : Type}.

Definition Rec := list (string * V).

(** [o[k]], [None] standing for [undefined]. *)
Fixpoint get (k : string) (o : Rec) : option V :=
  match o with
  | [] => None
  | (k', v) :: o' => if k' =? k then Some v else get k o'
  end.

(** [k in o] for an own property. *)
Definition has (k : string) (o : Rec) : bool :=
  match get k o with Some _ => true | None => false end.

(** [o[k] = v]: an existing property keeps its place, a new one is
    appended. *)
Fixpoint set (k : string) (v : V) (o : Rec) : Rec :=
  match o with
  | [] => [(k, v)]
  | (k', v') :: o' =>
      if k' =? k then (k', v) :: o' else (k', v') :: set k v o'
  end.

(** [delete o[k]] *)
Fixpoint del (k : string) (o : Rec) : Rec :=
  match o with
  | [] => []
  | (k', v') :: o' => if k' =? k then del k o' else (k', v') :: del k o'
  end.

(** The value of a decimal digit. *)
Definition digit_of (c : ascii) : option N :=
  let n := N_of_ascii c in
  if ((48 <=? n) && (n <=? 57))%N then Some (n - 48)%N else None.

Fixpoint parse_dec (s : string) (acc : N) : option N :=
  match s with
  | EmptyString => Some acc
  | String c s' =>
      match digit_of c with
      | Some d => parse_dec s' (10 * acc + d)%N
      | None => None
      end
  end.

(** A property name is an array index when it is the canonical decimal
    form of an integer below 2^32 - 1. *)
Definition array_index (s : string) : option N :=
  match s with
  | EmptyString => None
  | String c s' =>
      if (c =? "0")%char
      then (if s' =? "" then Some 0%N else None)
      else match parse_dec s 0 with
           | Some n => if (n <? 4294967295)%N then Some n else None
           | None => None
           end
  end.

Fixpoint insert_index (e : N * (string * V)) (l : list (N * (string * V)))
  : list (N * (string * V)) :=
  match l with
  | [] => [e]
  | e' :: l' =>
      if (fst e <? fst e')%N then e :: l else e' :: insert_index e l'
  end.

(** The array-index properties, in ascending numeric order. *)
Fixpoint index_entries (o : Rec) : list (N * (string * V)) :=
  match o with
  | [] => []
  | (k, v) :: o' =>
      match array_index k with
      | Some n => insert_index (n, (k, v)) (index_entries o')
      | None => index_entries o'
      end
  end.

(** The other properties, in insertion order. *)
Fixpoint named_entries (o : Rec) : Rec :=
  match o with
  | [] => []
  | (k, v) :: o' =>
      match array_index k with
      | Some _ => named_entries o'
      | None => (k, v) :: named_entries o'
      end
  end.

(** [Object.entries(o)], also the order of [for (k in o)]. *)
Definition entries (o : Rec) : Rec :=
  map snd (index_entries o) ++ named_entries o.

(** [Object.keys(o)] *)
Definition keys (o : Rec) : list string := map fst (entries o).

(** [{ ...o }]: a new object with the same properties. *)
Definition spread (o : Rec) : Rec := entries o.

End Rec.
Arguments Rec : clear implicits.

(** [xs.includes(x)] on an array of strings. *)
Definition includes (x : string) (xs : list string) : bool :=
  existsb (String.eqb x) xs.

(** *** The prototype of an object literal *)

(** The property names of [Object.prototype] (Node). *)
Definition prototype_names : list string :=
  ["constructor"; "__defineGetter__"; "__defineSetter__"; "hasOwnProperty";
   "__lookupGetter__"; "__lookupSetter__"; "isPrototypeOf";
   "propertyIsEnumerable"; "toString"; "valueOf"; "__proto__";
   "toLocaleString"].

Definition inherited (k : string) : bool := includes k prototype_names.

(** [String(v)] for what [Object.prototype] has under an inherited name: a
    native function, or the prototype itself under [__proto__]. *)
Definition inherited_text (name : string) : string :=
  if name =? "__proto__" then "[object Object]"
  else ("function " ++ (if name =? "constructor" then "Object" else name)
        ++ "() { [native code] }")%string.

(** What [o[k]] finds on an object made by a literal: an own property,
    else what [Object.prototype] has under that name (a function or an
    object, truthy and equal to no string), else [undefined]. *)
Inductive Lookup (V : Type) :=
| Own (v : V)
| Inherited (name : string)
| Missing.
Arguments Own {V} v.
Arguments Inherited {V} name.
Arguments Missing {V}.

(** [o[k]] *)
Definition lookup {V} (k : string) (o : Rec V) : Lookup V :=
  match get k o with
  | Some v => Own v
  | None => if inherited k then Inherited k else Missing
  end.

(** [k in o] *)
Definition has_in {V} (k : string) (o : Rec V) : bool :=
  has k o || inherited k.

(** [o[k] = v]: under [__proto__] the assignment runs the setter of
    [Object.prototype] and makes no own property. *)
Definition store {V} (k : string) (v : V) (o : Rec V) : Rec V :=
  if k =? "__proto__" then o else set k v o.

(** *** Bytes: [Uint8Array] *)
Definition Uint8Array := list N.

(** [TextEncoder.encode]: UTF-8; a code unit below 128 is one byte, one in
    128..255 is two bytes. *)
Definition utf8_of_char (c : ascii) : list N :=
  let n := N_of_ascii c in
  if (n <? 128)%N then [n]
  else [N.lor 192 (N.shiftr n 6); N.lor 128 (N.land n 63)].

Fixpoint TextEncoder_encode (s : string) : Uint8Array :=
  match s with
  | EmptyString => []
  | String c s' => utf8_of_char c ++ TextEncoder_encode s'
  end.

(** [Uint8Array.prototype.toString] is [Array.prototype.toString]: the
    elements in decimal, joined by commas. *)
Definition Uint8Array_toString (a : Uint8Array) : string :=
  join "," (map string_of_N a).

End Js.

(** ** The container protocol: logical messages *)
Module Proto.

(** Modelled from the spec: [proto_proxy_out/main.ts] is not part of the
    sources at hand.  Its [MessageType] has the three tags the client
    dispatches on; every other tag is [OtherType]. *)
Inductive OutType :=
| Initialized
| NotInitialized
| Files
| OtherType (tag : N).

(** [proto_proxy_out/files.ts]: [File] and [Files]. *)
Record File := mkFile { path : string; data : option Js.Uint8Array }.

(** [ProxyOut.Main]: the tag and the optional nested payload; the payload
    is kept decoded ([ProxyOutFiles.Files.fromBinary]). *)
Record OutMain := mkOut { type : OutType; value : option (list File) }.

(** What the socket hands to the [message] listener. *)
Inductive WsData :=
| ArrayBuffer (m : OutMain)
| NotArrayBuffer.

(** Modelled from the spec: [proto_proxy_in/main.ts] and
    [proto_proxy_in/delete_file.ts] are not part of the sources at hand
    ([proto_proxy_in/set_file.ts] is).  A [ProxyInMain.Main] the client
    sends is [GetFiles], or carries a nested [DeleteFile{path}] or
    [SetFile{path, data}]. *)
Inductive InMain :=
| GetFiles
| DeleteFile (path : string)
| SetFile (path : string) (data : Js.Uint8Array).

End Proto.

(** ** [uploadFiles]: the file-sync session and the event loop around it *)
Module Sync.
Import Proto.

Definition Loc := nat.
Definition FileSet := Js.Rec string.

Inductive PromiseState := Pending | Fulfilled | Rejected.

Inductive ReadyState := OPEN | CLOSING | CLOSED.

(** The closures handed to [setTimeout] and to [sleep(..).then]. *)
Inductive Callback :=
| CbRetry (sid : nat)   (* () => uploadFiles(token, filesBackup).then(resolve) *)
| CbClose (sid : nat)   (* () => ws.close() *)
| CbGuard (sid : nat).  (* () => { if (finished) return; warn; resolve() } *)

Record Timer := mkTimer { due : N; callback : Callback }.

(** One call of [uploadFiles]: what its closures capture. *)
Record Session := mkSession {
  token : string;
  files : Loc;
  filesBackup : Loc;
  finished : bool;
  promise : PromiseState;
  continuation : option nat;   (* [.then(resolve)] of the retrying session *)
  readyState : ReadyState
}.

(** What a session does, as the trace records it. *)
Inductive Effect :=
| WsOpen (sid : nat) (url : string)    (* new WebSocket(url) *)
| WsSend (sid : nat) (m : InMain)      (* ws.send(m) *)
| WsClose (sid : nat)                  (* ws.close() *)
| Warn (msg : string)                  (* console.warn(msg) *)
| Pruned (sid : nat) (path : string)   (* delete files[path] *)
| Resolved (sid : nat).                (* the promise is fulfilled *)

Record World := mkWorld {
  now : N;
  heap : list FileSet;
  sessions : list Session;      (* also the [websockets] registry *)
  timers : list Timer;
  trace : list (N * Effect)
}.

Definition set_now (t : N) (w : World) : World :=
  mkWorld t (heap w) (sessions w) (timers w) (trace w).
Definition set_heap (h : list FileSet) (w : World) : World :=
  mkWorld (now w) h (sessions w) (timers w) (trace w).
Definition set_sessions (ss : list Session) (w : World) : World :=
  mkWorld (now w) (heap w) ss (timers w) (trace w).
Definition set_timers (ts : list Timer) (w : World) : World :=
  mkWorld (now w) (heap w) (sessions w) ts (trace w).

Definition emit (e : Effect) (w : World) : World :=
  mkWorld (now w) (heap w) (sessions w) (timers w) (trace w ++ [(now w, e)]).

Fixpoint list_update {A} (i : nat) (f : A -> A) (l : list A) : list A :=
  match l, i with
  | [], _ => []
  | x :: l', O => f x :: l'
  | x :: l', S i' => x :: list_update i' f l'
  end.

Definition read (l : Loc) (w : World) : FileSet := nth l (heap w) [].
Definition write (l : Loc) (o : FileSet) (w : World) : World :=
  set_heap (list_update l (fun _ => o) (heap w)) w.
Definition alloc (o : FileSet) (w : World) : World * Loc :=
  (set_heap (heap w ++ [o]) w, length (heap w)).

Definition session (sid : nat) (w : World) : option Session :=
  nth_error (sessions w) sid.
Definition update_session (sid : nat) (f : Session -> Session) (w : World)
  : World :=
  set_sessions (list_update sid f (sessions w)) w.

Definition set_finished (b : bool) (s : Session) : Session :=
  mkSession (token s) (files s) (filesBackup s) b (promise s)
    (continuation s) (readyState s).
Definition set_promise (p : PromiseState) (s : Session) : Session :=
  mkSession (token s) (files s) (filesBackup s) (finished s) p
    (continuation s) (readyState s).
Definition set_readyState (r : ReadyState) (s : Session) : Session :=
  mkSession (token s) (files s) (filesBackup s) (finished s) (promise s)
    (continuation s) r.

(** [setTimeout(cb, ms)] *)
Definition setTimeout (c : Callback) (ms : N) (w : World) : World :=
  set_timers (timers w ++ [mkTimer (now w + ms) c]) w.

(** [ws.close()]: starts the closing handshake of an open socket. *)
Definition ws_close (sid : nat) (w : World) : World :=
  emit (WsClose sid)
    (update_session sid
       (fun s => match readyState s with
                 | OPEN => set_readyState CLOSING s
                 | _ => s
                 end) w).

(** [resolve()] of session [sid]; a settled promise stays as it is, a
    fulfilled one runs the [.then(resolve)] of the session that retried. *)
Fixpoint resolve_from (fuel : nat) (sid : nat) (w : World) : World :=
  match fuel with
  | O => w
  | S fuel' =>
      match session sid w with
      | None => w
      | Some s =>
          match promise s with
          | Pending =>
              let w1 := emit (Resolved sid)
                          (update_session sid (set_promise Fulfilled) w) in
              match continuation s with
              | Some p => resolve_from fuel' p w1
              | None => w1
              end
          | _ => w
          end
      end
  end.

Definition resolve (sid : nat) (w : World) : World :=
  resolve_from (S sid) sid w.

(** [uploadFiles(token, files)]; [k] is the session whose [resolve] is
    chained to the returned promise, if any. *)
Definition uploadFiles (tok : string) (fl : Loc) (k : option nat)
    (w : World) : World :=
  let (w1, bk) := alloc (Js.spread (read fl w)) w in
  let sid := length (sessions w1) in
  let w2 := set_sessions
              (sessions w1 ++ [mkSession tok fl bk false Pending k OPEN])
              w1 in
  let w3 := emit (WsOpen sid ("wss://cratecode.com/control/" ++ tok)%string)
              w2 in
  setTimeout (CbGuard sid) 10000 w3.

(** [a === b] on [string | undefined]. *)
Definition strict_eq (a b : option string) : bool :=
  match a, b with
  | Some x, Some y => x =? y
  | None, None => true
  | _, _ => false
  end.

(** [files[path] === text], [files] being an object made by a literal. *)
Definition same_text (o : FileSet) (path : string) (text : option string)
  : bool :=
  match Js.lookup path o with
  | Js.Own c => strict_eq (Some c) text
  | Js.Inherited _ => false
  | Js.Missing => strict_eq None text
  end.

(** First loop of the [Files] case: delete what is not in our list. *)
Definition send_deletions (sid : nat) (items : list string)
    (listing : list File) (w : World) : World :=
  fold_left
    (fun w f =>
       if negb (Js.includes (path f) items)
       then emit (WsSend sid (DeleteFile (path f))) w
       else w)
    listing w.

(** Second loop: drop from [files] what the container already has. *)
Definition prune (sid : nat) (fl : Loc) (listing : list File) (w : World)
  : World :=
  fold_left
    (fun w f =>
       if same_text (read fl w) (path f)
            (option_map Js.Uint8Array_toString (data f))
       then emit (Pruned sid (path f))
              (write fl (Js.del (path f) (read fl w)) w)
       else w)
    listing w.

(** Third loop: upload what is left. *)
Definition send_writes (sid : nat) (fl : Loc) (w : World) : World :=
  fold_left
    (fun w file =>
       let content := match Js.get file (read fl w) with
                      | Some c => c
                      | None => ""
                      end in
       emit (WsSend sid (SetFile file (Js.TextEncoder_encode content))) w)
    (Js.keys (read fl w)) w.

Definition onFiles (sid : nat) (s : Session) (listing : list File)
    (w : World) : World :=
  let items := Js.keys (read (files s) w) in
  let w1 := send_deletions sid items listing w in
  let w2 := prune sid (files s) listing w1 in
  let w3 := send_writes sid (files s) w2 in
  let w4 := setTimeout (CbClose sid) 1000 w3 in
  let w5 := update_session sid (set_finished true) w4 in
  resolve sid w5.

(** The [message] listener of session [sid]. *)
Definition onMessage (sid : nat) (d : WsData) (w : World) : World :=
  match session sid w with
  | None => w
  | Some s =>
      match d with
      | NotArrayBuffer => w
      | ArrayBuffer message =>
          match type message with
          | Initialized => emit (WsSend sid GetFiles) w
          | NotInitialized =>
              let w1 := emit (Warn "Received NotInitialized, retrying...") w in
              let w2 := update_session sid (set_finished true) w1 in
              let w3 := ws_close sid w2 in
              setTimeout (CbRetry sid) 1000 w3
          | Files =>
              match value message with
              | None => w
              | Some listing => onFiles sid s listing w
              end
          | OtherType _ => w
          end
      end
  end.

(** What a timer does when it fires. *)
Definition fire (c : Callback) (w : World) : World :=
  match c with
  | CbRetry sid =>
      match session sid w with
      | Some s => uploadFiles (token s) (filesBackup s) (Some sid) w
      | None => w
      end
  | CbClose sid => ws_close sid w
  | CbGuard sid =>
      match session sid w with
      | Some s =>
          if finished s then w
          else resolve sid
                 (emit (Warn "Timed out waiting for websocket to close.") w)
      | None => w
      end
  end.

(** The next timer to fire: the earliest one, the first set among equals. *)
Fixpoint pick (ts : list Timer) : option (Timer * list Timer) :=
  match ts with
  | [] => None
  | t :: ts' =>
      match pick ts' with
      | None => Some (t, [])
      | Some (m, rest) =>
          if (due t <=? due m)%N then Some (t, ts') else Some (m, t :: rest)
      end
  end.

(** A retry sets one more timer (the guard of the new session); the other
    callbacks set none. *)
Definition weight (t : Timer) : nat :=
  match callback t with CbRetry _ => 2 | _ => 1 end.

Definition total_weight (ts : list Timer) : nat :=
  fold_right (fun t n => (weight t + n)%nat) 0%nat ts.

Fixpoint run_timers (fuel : nat) (t : N) (w : World) : World :=
  match fuel with
  | O => w
  | S fuel' =>
      match pick (timers w) with
      | Some (tm, rest) =>
          if (due tm <=? t)%N
          then run_timers fuel' t
                 (fire (callback tm)
                    (set_now (N.max (now w) (due tm)) (set_timers rest w)))
          else w
      | None => w
      end
  end.

(** Let the clock reach [t]: every timer due by then fires, in order. *)
Definition advance (t : N) (w : World) : World :=
  let w' := run_timers (total_weight (timers w)) t w in
  set_now (N.max (now w') t) w'.

(** What the environment does to the client.  A socket delivers the frames
    that reach it until its closing handshake is over, also after
    [ws.close()] was called on it. *)
Inductive Input :=
| Message (sid : nat) (d : WsData)   (* a frame arrives on the socket *)
| SocketClosed (sid : nat).          (* the closing handshake is over *)

Definition step (i : N * Input) (w : World) : World :=
  let w' := advance (fst i) w in
  match snd i with
  | Message sid d =>
      match session sid w' with
      | Some s =>
          match readyState s with
          | CLOSED => w'
          | _ => onMessage sid d w'
          end
      | None => w'
      end
  | SocketClosed sid => update_session sid (set_readyState CLOSED) w'
  end.

Definition run (ins : list (N * Input)) (w : World) : World :=
  fold_left (fun w i => step i w) ins w.

(** The world in which [handleLesson] calls [uploadFiles(token, files)]:
    the file set it has built is the only object (location 0), the clock is
    at 0. *)
Definition start (tok : string) (fs : FileSet) : World :=
  uploadFiles tok 0 None (mkWorld 0 [fs] [] [] []).

(** The promise that [uploadFiles] returned to [handleLesson] is settled. *)
Definition settled (w : World) : bool :=
  match session 0 w with
  | Some s => match promise s with Pending => false | _ => true end
  | None => false
  end.

(** What went out on the socket of session [sid], in order. *)
Definition sent (sid : nat) (w : World) : list InMain :=
  flat_map (fun e => match snd e with
                     | WsSend sid' m => if Nat.eqb sid' sid then [m] else []
                     | _ => []
                     end) (trace w).

(** *** What the loops compute, and the inputs of the examples *)

(** The paths the second loop of the [Files] case drops from a file set,
    and the file set it leaves. *)
Fixpoint pruned_paths (o : FileSet) (listing : list File) : list string :=
  match listing with
  | [] => []
  | f :: rest =>
      if same_text o (path f)
           (option_map Js.Uint8Array_toString (data f))
      then path f :: pruned_paths (Js.del (path f) o) rest
      else pruned_paths o rest
  end.

Fixpoint pruned_set (o : FileSet) (listing : list File) : FileSet :=
  match listing with
  | [] => o
  | f :: rest =>
      if same_text o (path f)
           (option_map Js.Uint8Array_toString (data f))
      then pruned_set (Js.del (path f) o) rest
      else pruned_set o rest
  end.

(** The text [files[file]] that the third loop encodes. *)
Definition content (file : string) (o : FileSet) : string :=
  match Js.get file o with Some c => c | None => "" end.

Definition timeout_warning : Effect :=
  Warn "Timed out waiting for websocket to close.".

(** The world of one session that has neither finished nor retried. *)
Definition idle (tok : string) (fs : FileSet) (t : N) (r : ReadyState)
    (tr : list (N * Effect)) : World :=
  mkWorld t [fs; Js.spread fs] [mkSession tok 0 1 false Pending None r]
    [mkTimer 10000 (CbGuard 0)] tr.

Definition never_rejected (w : World) : Prop :=
  Forall (fun s => promise s <> Rejected) (sessions w).

(** An update of a session as the listener and the timers make them: it
    leaves the token, the two file sets and the chained [resolve] alone and
    rejects nothing. *)
Definition benign (f : Session -> Session) : Prop :=
  forall s, token (f s) = token s /\ files (f s) = files s
            /\ filesBackup (f s) = filesBackup s
            /\ continuation (f s) = continuation s
            /\ (promise s <> Rejected -> promise (f s) <> Rejected).

(** Only the session that [handleLesson] opened exists: it works on the
    file set at location 0 and holds at location 1 the copy it made of [fs]
    when it started. *)
Definition single (tok : string) (fs : FileSet) (w : World) : Prop :=
  exists s f0,
    sessions w = [s] /\ token s = tok /\ files s = 0%nat
    /\ filesBackup s = 1%nat /\ heap w = [f0; Js.spread fs].

(** The session whose [resolve] is chained to a promise is an earlier one. *)
Definition chained (w : World) : Prop :=
  forall i s p, session i w = Some s -> continuation s = Some p -> (p < i)%nat.

(** The signal [NotInitialized] sent to session [k], 100 ms after the
    retry that opened it. *)
Definition not_ready (k : nat) : N * Input :=
  ((1100 * N.of_nat k + 100)%N,
   Message k (ArrayBuffer (mkOut NotInitialized None))).

Definition is_files_message (i : Input) : bool :=
  match i with
  | Message _ (ArrayBuffer m) =>
      match type m with Files => true | _ => false end
  | _ => false
  end.

Definition is_timeout_warning (e : Effect) : bool :=
  match e with
  | Warn m => m =? "Timed out waiting for websocket to close."
  | _ => false
  end.

Definition desired_example : FileSet := [("y", "same"); ("z", "new")].

Definition remote_example : list File :=
  [mkFile "x" (Some (Js.TextEncoder_encode "old"));
   mkFile "y" (Some (Js.TextEncoder_encode "same"))].

Definition lesson_example : FileSet :=
  [("__init__.py", ""); ("main.py", "print(1)")].

Definition two_signals : list (N * Input) :=
  [(100%N, Message 0 (ArrayBuffer (mkOut NotInitialized None)));
   (600%N, Message 0 (ArrayBuffer (mkOut NotInitialized None)));
   (1200%N, Message 1 (ArrayBuffer (mkOut Initialized None)));
   (1300%N, Message 1 (ArrayBuffer
              (mkOut Files (Some [mkFile "__init__.py" (Some [])]))));
   (1700%N, Message 2 (ArrayBuffer (mkOut Initialized None)));
   (1800%N, Message 2 (ArrayBuffer
              (mkOut Files (Some [mkFile "__init__.py" (Some [])]))))].


(** *** Vocabulary of the properties of a run *)

(** The sessions whose promise the trace shows fulfilled, in order. *)
Definition resolved (tr : list (N * Effect)) : list nat :=
  flat_map (fun e => match snd e with Resolved sid => [sid] | _ => [] end) tr.

(** An update of a session that leaves its promise and the chained
    [resolve] alone. *)
Definition neutral (f : Session -> Session) : Prop :=
  forall s, promise (f s) = promise s /\ continuation (f s) = continuation s.

(** A property of the sessions and of the resolutions so far, at a world. *)
Definition holds (P : list Session -> list nat -> Prop) (w : World) : Prop :=
  P (sessions w) (resolved (trace w)).

(** The promise that a fulfilled promise is chained to is fulfilled; the
    chain leads to an earlier session, and only the first session has
    none; no promise is rejected. *)
Definition parents_resolved (ss : list Session) (rs : list nat) : Prop :=
  (forall i s p, nth_error ss i = Some s -> continuation s = Some p ->
                 (p < i)%nat
                 /\ (promise s = Fulfilled ->
                     exists sp, nth_error ss p = Some sp
                                /\ promise sp = Fulfilled))
  /\ (forall i s, nth_error ss i = Some s -> continuation s = None ->
                  i = 0%nat)
  /\ Forall (fun s => promise s <> Rejected) ss.

Definition closing (r : ReadyState) : ReadyState :=
  match r with OPEN => CLOSING | _ => r end.

(** When session [sid] started: the time of its [new WebSocket]. *)
Fixpoint opened_at (sid : nat) (tr : list (N * Effect)) : option N :=
  match tr with
  | [] => None
  | (t, WsOpen sid' _) :: tr' =>
      if Nat.eqb sid' sid then Some t else opened_at sid tr'
  | _ :: tr' => opened_at sid tr'
  end.

(** The session that a callback belongs to. *)
Definition callback_session (c : Callback) : nat :=
  match c with CbRetry sid | CbClose sid | CbGuard sid => sid end.

(** Every timer belongs to a session that exists, and a chained [resolve]
    is the one of an earlier session. *)
Definition well_formed (w : World) : Prop :=
  (forall tm, In tm (timers w) ->
              (callback_session (callback tm) < length (sessions w))%nat)
  /\ (forall i s p, session i w = Some s -> continuation s = Some p ->
                    (p < i)%nat).

(** Session [sid] is undecided: it is pending and not finished, its guard
    is set for the time [g] (and is its only guard), and it was never
    retried. *)
Definition undecided (sid : nat) (g : N) (w : World) : Prop :=
  (exists s, session sid w = Some s /\ finished s = false
             /\ promise s = Pending)
  /\ In (mkTimer g (CbGuard sid)) (timers w)
  /\ (forall tm, In tm (timers w) -> callback tm = CbGuard sid ->
                 due tm = g)
  /\ (now w <= g)%N
  /\ (forall tm, In tm (timers w) -> callback tm <> CbRetry sid)
  /\ (forall i s, session i w = Some s -> continuation s <> Some sid).

(** The guard of session [sid] has fired at the time [g]: it has logged
    the warning and resolved the promise. *)
Definition timed_out (sid : nat) (g : N) (w : World) : Prop :=
  (exists s, session sid w = Some s /\ promise s = Fulfilled)
  /\ exists tr1 tr2,
       trace w = tr1 ++ [(g, timeout_warning); (g, Resolved sid)] ++ tr2.

(** Where session [sid] stands while no frame has decided it: not yet
    open, undecided, or timed out 10 seconds after its start. *)
Definition guarded (sid : nat) (w : World) : Prop :=
  well_formed w
  /\ match opened_at sid (trace w) with
     | None => (length (sessions w) <= sid)%nat
     | Some t0 =>
         undecided sid (t0 + 10000) w \/ timed_out sid (t0 + 10000) w
     end.

(** An update of a session that leaves the chained [resolve] alone and
    keeps a fulfilled promise fulfilled. *)
Definition mild (f : Session -> Session) : Prop :=
  forall s, continuation (f s) = continuation s
            /\ (promise s = Fulfilled -> promise (f s) = Fulfilled).

(** A frame that decides a session: [NotInitialized], or [Files] with its
    payload. *)
Definition decisive (d : WsData) : bool :=
  match d with
  | ArrayBuffer m =>
      match type m, value m with
      | NotInitialized, _ => true
      | Files, Some _ => true
      | _, _ => false
      end
  | NotArrayBuffer => false
  end.

End Sync.

(** ** JSON values and lodash's [defaultsDeep] *)
Module Json.

(** What [JSON.parse] returns.  An array is an object whose properties are
    its indices ["0"], ["1"], ...; a number is opaque to the code, integers
    stand for them. *)
#[local] Set Warnings "-register-all".
Inductive t :=
| JNull
| JBool (b : bool)
| JNum (n : Z)
| JStr (s : string)
| JArr (props : list (string * t))
| JObj (props : list (string * t)).

(** [JSON.parse] of an array literal. *)
Fixpoint index_from (i : N) (xs : list t) : list (string * t) :=
  match xs with
  | [] => []
  | x :: xs' => (Js.string_of_N i, x) :: index_from (N.succ i) xs'
  end.
Definition array (xs : list t) : t := JArr (index_from 0 xs).

(** [typeof v === "object"]; [null] is one. *)
Definition typeof_object (v : t) : bool :=
  match v with JNull | JArr _ | JObj _ => true | _ => false end.

Definition typeof_string (v : t) : bool :=
  match v with JStr _ => true | _ => false end.

(** [Array.isArray(v)] *)
Definition isArray (v : t) : bool :=
  match v with JArr _ => true | _ => false end.

(** [Boolean(v)] *)
Definition truthy (v : t) : bool :=
  match v with
  | JNull => false
  | JBool b => b
  | JNum n => negb (n =? 0)%Z
  | JStr s => Js.truthy s
  | JArr _ | JObj _ => true
  end.

(** Truthiness of [v | undefined]. *)
Definition truthy_opt (v : option t) : bool :=
  match v with Some x => truthy x | None => false end.

(** lodash's [isObject]. *)
Definition isObject (v : t) : bool :=
  match v with JArr _ | JObj _ => true | _ => false end.

(** The elements of an array that comes from [JSON.parse], in order. *)
Definition elements (props : list (string * t)) : list t := map snd props.

Definition is_null (v : t) : bool :=
  match v with JNull => true | _ => false end.

(** [String(n)] for an integer. *)
Definition string_of_Z (n : Z) : string :=
  match n with
  | Zneg p => ("-" ++ Js.string_of_N (Npos p))%string
  | _ => Js.string_of_N (Z.to_N n)
  end.

(** [String(v)], which is also the property name [v] stands for in
    [v in o] and [o[v]]; inside an array [null] prints as nothing. *)
Fixpoint toString (v : t) : string :=
  match v with
  | JNull => "null"
  | JBool true => "true"
  | JBool false => "false"
  | JNum n => string_of_Z n
  | JStr s => s
  | JArr props =>
      Js.join ","
        (map (fun kv => if is_null (snd kv) then ""
                        else toString (snd kv)) props)
  | JObj _ => "[object Object]"
  end.

End Json.

(** [lodash/defaultsDeep], for values that come from [JSON.parse].  The
    library is [mergeWith] run with the customizer [customDefaultsMerge]:
    [baseMerge] walks the keys of the source; at a key where both sides are
    objects ([isObject], arrays included) the customizer merges the source
    into the destination recursively; where the destination has no value the
    source value is assigned (a fresh [[]] or [{}] filled by the same merge
    when it is an array or an object); in every other case the destination
    value stays. *)
Module Lodash.
Import Json.

(** What ends at [object[key]] once [srcValue] has been merged into the
    value [objValue] found there ([None]: [undefined]). *)
Fixpoint mergeValue (srcValue : Json.t) (objValue : option Json.t) : Json.t :=
  let baseMerge (source : list (string * Json.t)) (object : Js.Rec Json.t) :=
    fold_left
      (fun object km =>
         Js.set (fst km) (snd km (Js.get (fst km) object)) object)
      (Js.entries (map (fun kv => (fst kv, mergeValue (snd kv))) source))
      object in
  match srcValue with
  | JArr source =>
      match objValue with
      | None => JArr (baseMerge source [])
      | Some (JArr object) => JArr (baseMerge source object)
      | Some (JObj object) => JObj (baseMerge source object)
      | Some v => v
      end
  | JObj source =>
      match objValue with
      | None => JObj (baseMerge source [])
      | Some (JArr object) => JArr (baseMerge source object)
      | Some (JObj object) => JObj (baseMerge source object)
      | Some v => v
      end
  | _ =>
      match objValue with
      | None => srcValue
      | Some v => v
      end
  end.

(** [baseMerge(object, source, ..., customDefaultsMerge)] at the top. *)
Definition baseMerge (object source : Json.t) : Json.t :=
  if isObject object && isObject source
  then mergeValue source (Some object)
  else object.

(** [defaultsDeep(object, ...sources)]: [Object(object)], then every truthy
    source in turn.  The arguments have the declared type [object | null]:
    each is [JNull], an object or an array. *)
Definition defaultsDeep (object : Json.t) (sources : list Json.t) : Json.t :=
  fold_left
    (fun object source =>
       if truthy source then baseMerge object source else object)
    sources
    (match object with JNull => JObj [] | o => o end).

End Lodash.

(** ** The uploader: state, effects, resolver, unit and lesson handlers,
       manifest walker *)
Module Upload.
Import Json.

Definition Loc := nat.

(** [index.ts]: an entry of [State.images]. *)
Record ImageRecord := mkImage {
  img_id : string;
  img_format : string;
  img_width : option N;
  img_height : option N
}.

(** [index.ts]: [State].  [itemCount] and [idsMap] are objects: the field
    holds their location. *)
Record State := mkState {
  itemCount : Loc;
  idsMap : Loc;
  key : string;
  templates : option string;
  configTemplate : option Json.t;
  images : option (Js.Rec ImageRecord)
}.

(** [{ ...state }]: a new record with the same field values, hence the
    same [itemCount] and [idsMap] objects. *)
Definition spread (state : State) : State :=
  mkState (itemCount state) (idsMap state) (key state) (templates state)
    (configTemplate state) (images state).

Definition set_templates (t : option string) (state : State) : State :=
  mkState (itemCount state) (idsMap state) (key state) t
    (configTemplate state) (images state).
Definition set_configTemplate (c : option Json.t) (state : State) : State :=
  mkState (itemCount state) (idsMap state) (key state) (templates state)
    c (images state).

(** [string | null | undefined], or what [Object.prototype] has under an
    inherited name: [mapID] returns that when it is asked for such a
    name. *)
Inductive Maybe :=
| Undefined
| Null
| Str (s : string)
| Proto (name : string).

Definition maybe_truthy (m : Maybe) : bool :=
  match m with Str s => Js.truthy s | Proto _ => true | _ => false end.

(** [String(m)], also the property name [m] stands for. *)
Definition maybe_string (m : Maybe) : string :=
  match m with
  | Undefined => "undefined"
  | Null => "null"
  | Str s => s
  | Proto name => Js.inherited_text name
  end.

(** [classMap[lessonClass] || 0]: a number, or what [Object.prototype] has
    under an inherited name. *)
Inductive Class :=
| ClassNum (n : N)
| ClassProto (name : string).

Definition maybe_of_option (o : option string) : Maybe :=
  match o with Some s => Str s | None => Undefined end.

(** An entry of the [data] map of a unit. *)
Record UnitEntry := mkUnitEntry {
  next : list Maybe;
  previous : list Maybe;
  requireAll : bool
}.

(** The requests of the uploader, all under
    [https://cratecode.com/internal/api]. *)
Inductive Request :=
| GetId (name : string)
| GetLesson (id : string)
| PostProjectNew
| PutLesson (id : Maybe) (friendlyName name : string) (unit : Maybe)
    (project : string) (spec : option string) (lessonClass : Class)
| PutUnit (id : Maybe) (friendlyName name : string)
    (data : Js.Rec UnitEntry)
| PutConfig (lessonID : string) (config : Json.t)
| PutVideo (lessonID : string) (videoPath : string)
| GetToken (project : string).

(** How a request settles: with the one field of [res.data] its caller
    reads ([None]: the field is missing), or with an [AxiosError] whose
    [response?.status] is given. *)
Inductive Response :=
| Fulfilled (field : option string)
| Rejected (status : option N).

(** What the uploader does not contain: the platform, the container,
    Node's [path] and [fs], [JSON.parse] and [walkdir].  [axios n r] is how
    request [r] settles when [n] requests were made before it, the retries
    of the 429 interceptor of [upload] included.  [socket n] is what the
    container does to the sockets of the call of [uploadFiles] that [n]
    calls came before, and the time until which that call is watched. *)
Record Env := mkEnv {
  axios : nat -> Request -> Response;
  socket : nat -> list (N * Sync.Input) * N;
  Path_join : list string -> string;
  Path_dirname : string -> string;
  Path_relative : string -> string -> string;
  fs_existsSync : string -> bool;
  fs_readFile : string -> option string;
  JSON_parse : string -> option Json.t;
  walkdir : string -> option (list (string * bool))
}.

Inductive Error :=
| Error_ (message : string)          (* new Error(message) *)
| TypeError                          (* a property of null, a missing method *)
| AxiosError (status : option N)
| SystemError (path : string).       (* fs, JSON.parse, walkdir *)

Inductive Effect :=
| Http (authorization : string) (r : Request)
| Sleep (ms : N)
| ConsoleLog (msg : string)
| ConsoleError (msg : string)
| UploadFiles (token : string) (files : Js.Rec string).

Record World := mkWorld {
  counters : list N;              (* the [{ value }] objects *)
  memos : list (Js.Rec string);   (* the [idsMap] objects *)
  log : list Effect
}.

Inductive Outcome (A : Type) :=
| Ok (a : A)
| Throw (e : Error)
| Diverge.
Arguments Ok {A} a.
Arguments Throw {A} e.
Arguments Diverge {A}.

(** An [async] function: it reads and writes the world and returns,
    throws, or has not finished: the recursion is out of fuel, or the
    promise of [uploadFiles] is still pending when the time is up. *)
Definition M (A : Type) := World -> Outcome A * World.

Definition ret {A} (a : A) : M A := fun w => (Ok a, w).
Definition throw {A} (e : Error) : M A := fun w => (Throw e, w).
Definition bind {A B} (m : M A) (k : A -> M B) : M B :=
  fun w => match m w with
           | (Ok a, w') => k a w'
           | (Throw e, w') => (Throw e, w')
           | (Diverge, w') => (Diverge, w')
           end.
Definition catch {A} (m : M A) (h : Error -> M A) : M A :=
  fun w => match m w with
           | (Throw e, w') => h e w'
           | r => r
           end.

Notation "x <- m ;; k" := (bind m (fun x => k))
  (at level 61, m at next level, right associativity).
Notation "m ;;; k" := (bind m (fun _ => k))
  (at level 61, right associativity).

Definition effect (e : Effect) : M unit :=
  fun w => (Ok tt, mkWorld (counters w) (memos w) (log w ++ [e])).

Definition of_option {A} (o : option A) (e : Error) : M A :=
  match o with Some a => ret a | None => throw e end.

(** [for (const x of xs) { await body(x) }] *)
Fixpoint for_each {A} (xs : list A) (body : A -> M unit) : M unit :=
  match xs with
  | [] => ret tt
  | x :: xs' => body x ;;; for_each xs' body
  end.

(** The requests made so far. *)
Definition requests (w : World) : nat :=
  length (filter (fun e => match e with Http _ _ => true | _ => false end)
            (log w)).

Definition is_upload (e : Effect) : bool :=
  match e with UploadFiles _ _ => true | _ => false end.

(** The calls of [uploadFiles] so far. *)
Definition uploads (w : World) : nat := length (filter is_upload (log w)).

(** The promise that [uploadFiles(token, files)] returns, [n] calls having
    come before, is settled by the time the call is watched until. *)
Definition settles (E : Env) (n : nat) (token : string)
    (files : Js.Rec string) : bool :=
  Sync.settled
    (Sync.advance (snd (socket E n))
       (Sync.run (fst (socket E n)) (Sync.start token files))).

(** [await uploadFiles(token, files)]: the session of [Sync] with what the
    container does; the call returns once the promise is settled. *)
Definition uploadFiles (E : Env) (token : string) (files : Js.Rec string)
  : M unit :=
  fun w =>
    let w' := mkWorld (counters w) (memos w)
                (log w ++ [UploadFiles token files]) in
    if settles E (uploads w) token files
    then (Ok tt, w')
    else (Diverge, w').

(** One [axios] call with the [authorization] header. *)
Definition request (E : Env) (authorization : string) (r : Request)
  : M Response :=
  fun w =>
    (Ok (axios E (requests w) r),
     mkWorld (counters w) (memos w) (log w ++ [Http authorization r])).

(** [res.data.<field>] of a fulfilled request; a rejection is thrown. *)
Definition field_of (r : Response) : M (option string) :=
  match r with
  | Fulfilled f => ret f
  | Rejected st => throw (AxiosError st)
  end.

Definition list_set {A} (i : nat) (x : A) (l : list A) : list A :=
  firstn i l ++ match skipn i l with [] => [] | _ :: r => x :: r end.

Definition read_memo (l : Loc) : M (Js.Rec string) :=
  fun w => (Ok (nth l (memos w) []), w).
Definition write_memo (l : Loc) (o : Js.Rec string) : M unit :=
  fun w => (Ok tt, mkWorld (counters w) (list_set l o (memos w)) (log w)).

(** [index.ts]: [delay]. *)
Definition delay (state : State) : M unit :=
  fun w =>
    let value := N.succ (nth (itemCount state) (counters w) 0%N) in
    let w' := mkWorld (list_set (itemCount state) value (counters w))
                (memos w) (log w) in
    if (value mod 50 =? 0)%N
    then (effect (ConsoleLog "Hit ratelimit, sleeping.") ;;;
          effect (Sleep 60000) ;;;
          effect (ConsoleLog "Waking up.")) w'
    else (Ok tt, w').

(** [e.response?.status === 404] *)
Definition is_404 (status : option N) : bool :=
  match status with Some n => (n =? 404)%N | None => false end.

(** [util.ts]: [mapID]. *)
Definition mapID (E : Env) (id : option string) (state : State) : M Maybe :=
  match id with
  | None => ret Null
  | Some id =>
      if Js.startsWith ":" id then ret (Str (Js.substring_from 1 id))
      else
        let lookup : M Maybe :=
          res <- request E (key state) (GetId id) ;;
          match res with
          | Fulfilled (Some v) =>
              memo <- read_memo (idsMap state) ;;
              write_memo (idsMap state) (Js.store id v memo) ;;;
              ret (Str v)
          | Fulfilled None => ret Undefined
          | Rejected status =>
              if is_404 status then ret Null
              else throw (AxiosError status)
          end in
        memo <- read_memo (idsMap state) ;;
        newKey <- match Js.lookup id memo with
                  | Js.Own v => if Js.truthy v then ret (Str v) else lookup
                  | Js.Inherited name => ret (Proto name)
                  | Js.Missing => lookup
                  end ;;
        delay state ;;;
        ret newKey
  end.

(** [util.ts]: [mapIDNoNull]. *)
Definition mapIDNoNull (E : Env) (id : option string) (state : State)
  : M Maybe :=
  mappedID <- mapID E id state ;;
  match mappedID with
  | Null =>
      throw (Error_ ("Could not find an ID for "
                     ++ match id with Some s => s | None => "null" end
                     ++ ".")%string)
  | _ => ret mappedID
  end.

(** A value of a manifest used where the code expects [string | null]:
    [id.startsWith] is missing on anything else. *)
Definition as_id (v : Json.t) : M (option string) :=
  match v with
  | JNull => ret None
  | JStr s => ret (Some s)
  | _ => throw TypeError
  end.

(** [v[name]] for a value of a manifest. *)
Definition property (v : Json.t) (name : string) : M (option Json.t) :=
  match v with
  | JNull => throw TypeError
  | JObj props | JArr props => ret (Js.get name props)
  | _ => ret None
  end.

(** [v ?? []] followed by the check that it is an array. *)
Definition string_array (v : option Json.t) (what : string)
  : M (list Json.t) :=
  match v with
  | None | Some JNull => ret []
  | Some (JArr props) => ret (elements props)
  | Some _ => throw (Error_ (what ++ " must be a string array!")%string)
  end.

Fixpoint map_M {A B} (f : A -> M B) (xs : list A) : M (list B) :=
  match xs with
  | [] => ret []
  | x :: xs' => y <- f x ;; ys <- map_M f xs' ;; ret (y :: ys)
  end.

(** [unit.ts]: [handleUnit].  [lessons] has passed the check of
    [readManifest]: an object or [null]. *)
Definition handleUnit (E : Env) (state : State) (id name : string)
    (lessons : Json.t) : M (option string) :=
  actualID <- mapID E (Some id) state ;;
  let props := match lessons with JObj p => p | _ => [] end in
  let step (map : Js.Rec UnitEntry) (lessonID : string)
      : M (Js.Rec UnitEntry) :=
    newKey <- mapIDNoNull E (Some lessonID) state ;;
    entry <- of_option (Js.get lessonID props) TypeError ;;
    nextv <- property entry "next" ;;
    previousv <- property entry "previous" ;;
    next <- string_array nextv "next" ;;
    previous <- string_array previousv "previous" ;;
    newNext <- map_M (fun item => i <- as_id item ;; mapIDNoNull E i state)
                 next ;;
    newPrevious <- map_M (fun item => i <- as_id item ;;
                                       mapIDNoNull E i state) previous ;;
    requireAllv <- property entry "requireAll" ;;
    ret (Js.store (maybe_string newKey)
           (mkUnitEntry newNext newPrevious (truthy_opt requireAllv)) map) in
  map <- fold_left (fun acc lessonID => m <- acc ;; step m lessonID)
           (Js.keys props) (ret []) ;;
  res <- request E (key state) (PutUnit actualID id name map) ;;
  unitID <- field_of res ;;
  delay state ;;;
  ret unitID.


(** *** [lesson.ts] *)

(** [\s] of a regular expression, for code units below 256. *)
Definition is_space (c : ascii) : bool :=
  let n := N_of_ascii c in
  ((9 <=? n) && (n <=? 13) || (n =? 32) || (n =? 160))%N.

(** [[^$\s]] *)
Definition is_name_char (c : ascii) : bool :=
  negb (is_space c) && negb (c =? "$")%char.

(** The longest prefix of characters in a class, and what follows it. *)
Fixpoint span (p : ascii -> bool) (s : string) : string * string :=
  match s with
  | EmptyString => ("", "")
  | String c s' =>
      if p c then let (a, b) := span p s' in (String c a, b)
      else ("", s)
  end.

Definition drop (n : nat) (s : string) : string := Js.substring_from n s.

(** A match of [/\$\$IMAGE\s+([^$\s]+)(?:\s+([^$\s]+))?\$\$/] at the start
    of [s]: the two groups and what follows the match.  The classes of
    consecutive pieces are disjoint, so the greedy choice is the only one. *)
Definition match_image (s : string)
  : option (string * option string * string) :=
  if Js.startsWith "$$IMAGE" s then
    let (sp1, r1) := span is_space (drop 7 s) in
    let (name, r2) := span is_name_char r1 in
    if (sp1 =? "") || (name =? "") then None
    else if Js.startsWith "$$" r2 then Some (name, None, drop 2 r2)
    else
      let (sp2, r3) := span is_space r2 in
      let (alt, r4) := span is_name_char r3 in
      if (sp2 =? "") || (alt =? "") then None
      else if Js.startsWith "$$" r4 then Some (name, Some alt, drop 2 r4)
      else None
  else None.

(** The replacer of the README pass: the markdown image for [name]. *)
Definition image_tag (state : State) (name : string) (alt : option string)
  : M string :=
  match images state with
  | None =>
      throw (Error_ "An images folder must be set before images can be used.")
  | Some table =>
      match Js.lookup name table with
      | Js.Missing =>
          throw (Error_ ("Could not find image " ++ Js.dq ++ name
                         ++ Js.dq ++ ".")%string)
      | Js.Inherited _ =>
          (* a function or the prototype: it has no [width], [height],
             [id] or [format] *)
          let url := "https://img.cdn.cratecode.com/userfiles/img/undefined.undefined" in
          let label :=
            Js.join " "
              (filter Js.truthy
                 [match alt with Some a => a | None => "" end; ""]) in
          ret ("![" ++ label ++ "](" ++ url ++ ")")%string
      | Js.Own fileRecord =>
          let sizeMetadata :=
            match img_width fileRecord, img_height fileRecord with
            | Some w, Some h =>
                if (negb (w =? 0) && negb (h =? 0))%N
                then ("{" ++ Js.string_of_N w ++ "x" ++ Js.string_of_N h
                      ++ "}")%string
                else ""
            | _, _ => ""
            end in
          let url := ("https://img.cdn.cratecode.com/userfiles/img/"
                      ++ img_id fileRecord ++ "." ++ img_format fileRecord)%string in
          let label :=
            Js.join " "
              (filter Js.truthy
                 [match alt with Some a => a | None => "" end;
                  sizeMetadata]) in
          ret ("![" ++ label ++ "](" ++ url ++ ")")%string
      end
  end.

(** [content.replace(/.../g, replacer)]: left to right, a match is
    replaced and the scan resumes after it; [skip] counts the characters
    of the last match that are still ahead. *)
Fixpoint replace_images (state : State) (skip : nat) (s : string)
  : M string :=
  match s with
  | EmptyString => ret ""
  | String c s' =>
      match skip with
      | S skip' => replace_images state skip' s'
      | O =>
          match match_image s with
          | Some (name, alt, rest) =>
              tag <- image_tag state name alt ;;
              tail <- replace_images state
                        (String.length s' - String.length rest) s' ;;
              ret (tag ++ tail)%string
          | None =>
              tail <- replace_images state 0 s' ;;
              ret (String c tail)
          end
      end
  end.

Definition reserved : list string :=
  ["manifest.json"; "video.cv"; "config.json"].

(** [walk(dir)]: the entries under [dir] as
    [[path, stats.isFile(), Path.relative(dir, path)]]. *)
Definition walk (E : Env) (dir : string)
  : M (list (string * bool * string)) :=
  entries <- of_option (walkdir E dir) (SystemError dir) ;;
  ret (map (fun e => (fst e, snd e, Path_relative E dir (fst e))) entries).

(** The body of the loop over [walkEntries]. *)
Definition collect_entry (E : Env) (state : State)
    (files : Js.Rec string) (entry : string * bool * string)
  : M (Js.Rec string) :=
  let '(path, isFile, relative) := entry in
  if negb isFile then ret files
  else if Js.includes relative reserved then ret files
  else
    content <- of_option (fs_readFile E path) (SystemError path) ;;
    if Js.endsWith "/README.md" path
    then
      rendered <- replace_images state 0 content ;;
      ret (Js.store relative rendered files)
    else ret (Js.store relative content files).

Fixpoint collect (E : Env) (state : State)
    (walkEntries : list (string * bool * string)) (files : Js.Rec string)
  : M (Js.Rec string) :=
  match walkEntries with
  | [] => ret files
  | entry :: rest =>
      files' <- collect_entry E state files entry ;;
      collect E state rest files'
  end.

(** The desired file set of a lesson: the template directory first (if
    any), then the lesson directory. *)
Definition desired_files (E : Env) (state : State)
    (templateDir : option string) (dir : string) : M (Js.Rec string) :=
  lessonEntries <- walk E dir ;;
  templateEntries <- match templateDir with
                     | Some t => walk E t
                     | None => ret []
                     end ;;
  collect E state (templateEntries ++ lessonEntries) [].

(** [fs.existsSync(p) ? JSON.parse(fs.readFileSync(p, "utf-8")) : null] *)
Definition read_config (E : Env) (p : string) : M Json.t :=
  if fs_existsSync E p
  then text <- of_option (fs_readFile E p) (SystemError p) ;;
       of_option (JSON_parse E text) (SystemError p)
  else ret JNull.

Definition json_of_option (o : option Json.t) : Json.t :=
  match o with Some v => v | None => JNull end.

(** The three tiers put together: [configData]. *)
Definition merge_config (lessonConfig templateConfig : Json.t)
    (configTemplate : option Json.t) : option Json.t :=
  if truthy lessonConfig || truthy templateConfig
     || truthy (json_of_option configTemplate)
  then Some (Lodash.defaultsDeep lessonConfig
               [templateConfig; json_of_option configTemplate])
  else None.

Definition handleLesson (E : Env) (state : State) (id name : string)
    (unit spec extendsTemplate : option string) (lessonClass : Class)
    (dir : string) : M string :=
  let templateDir :=
    match extendsTemplate, templates state with
    | Some e, Some t =>
        if Js.truthy e && Js.truthy t then Some (Path_join E [t; e])
        else None
    | _, _ => None
    end in
  actualID <- mapID E (Some id) state ;;
  actualUnitID <- mapID E unit state ;;
  project <- (if maybe_truthy actualID
              then res <- request E (key state)
                            (GetLesson (maybe_string actualID)) ;;
                   field_of res
              else ret None) ;;
  delay state ;;;
  project <- (match project with
              | Some p => if Js.truthy p then ret (Some p) else
                  res <- request E (key state) PostProjectNew ;;
                  p' <- field_of res ;; delay state ;;; ret p'
              | None =>
                  res <- request E (key state) PostProjectNew ;;
                  p' <- field_of res ;; delay state ;;; ret p'
              end) ;;
  project <- (match project with
              | Some p => if Js.truthy p then ret p else
                  throw (Error_ "Could not create or find a project!")
              | None => throw (Error_ "Could not create or find a project!")
              end) ;;
  res <- request E (key state)
           (PutLesson actualID id name actualUnitID project spec
              lessonClass) ;;
  lessonID <- field_of res ;;
  delay state ;;;
  lessonID <- (match lessonID with
               | Some l => if Js.truthy l then ret l else
                   throw (Error_ "Could not create or find a lesson!")
               | None => throw (Error_ "Could not create or find a lesson!")
               end) ;;
  lessonConfig <- read_config E (Path_join E [dir; "config.json"]) ;;
  templateConfig <- (match templateDir with
                     | Some t =>
                         if Js.truthy t
                         then read_config E (Path_join E [t; "config.json"])
                         else ret JNull
                     | None => ret JNull
                     end) ;;
  (match merge_config lessonConfig templateConfig (configTemplate state) with
   | Some configData =>
       res <- request E (key state) (PutConfig lessonID configData) ;;
       field_of res ;;; delay state
   | None => ret tt
   end) ;;;
  let videoPath :=
    match templateDir with
    | Some t => if Js.truthy t
                   && fs_existsSync E (Path_join E [t; "video.cv"])
                then Some (Path_join E [t; "video.cv"])
                else None
    | None => None
    end in
  let videoPath :=
    if fs_existsSync E (Path_join E [dir; "video.cv"])
    then Some (Path_join E [dir; "video.cv"])
    else videoPath in
  (match videoPath with
   | Some v => if Js.truthy v
               then res <- request E (key state) (PutVideo lessonID v) ;;
                    field_of res ;;; delay state
               else ret tt
   | None => ret tt
   end) ;;;
  files <- desired_files E state templateDir dir ;;
  res <- request E (key state) (GetToken project) ;;
  token <- field_of res ;;
  token <- (match token with
            | Some t => if Js.truthy t then ret t else
                throw (Error_ "Could not get a token!")
            | None => throw (Error_ "Could not get a token!")
            end) ;;
  uploadFiles E token files ;;;
  ret lessonID.

(** *** [manifest.ts] *)

(** [classMap] *)
Definition classMap : Js.Rec N :=
  [("tutorial", 1%N); ("activity", 2%N); ("project", 3%N);
   ("challenge", 4%N)].

Definition option_string (v : option Json.t) : option string :=
  match v with Some (JStr s) => Some s | _ => None end.

Definition manifest_error (parent : option string) (manifest : string)
    (e : Error) : M unit :=
  (if match parent with Some p => Js.truthy p | None => false end
   then effect (ConsoleError
                  ("An error occurred while reading " ++ manifest
                   ++ " (called by "
                   ++ match parent with Some p => p | None => "" end
                   ++ "):")%string)
   else effect (ConsoleError
                  ("An error occurred while reading " ++ manifest
                   ++ ":")%string)) ;;;
  throw e.

(** The manifest up to the typed part: the JSON object and the state of
    the branch after [templates] and [configTemplate]. *)
Definition manifest_head (E : Env) (state : State) (manifest : string)
  : M (Json.t * State) :=
  text <- of_option (fs_readFile E manifest) (SystemError manifest) ;;
  data <- of_option (JSON_parse E text) (SystemError manifest) ;;
  if negb (typeof_object data) || isArray data
  then throw (Error_ "Manifest must be an object!")
  else
    let newBase := Path_dirname E manifest in
    templatesv <- property data "templates" ;;
    state <- (match templatesv with
              | Some (JStr t) =>
                  if Js.truthy t
                  then ret (set_templates (Some (Path_join E [newBase; t]))
                              state)
                  else ret state
              | Some v =>
                  if truthy v
                  then throw (Error_ "Templates must be a string!")
                  else ret state
              | None => ret state
              end) ;;
    configv <- property data "configTemplate" ;;
    state <- (match configv with
              | Some v =>
                  if truthy v
                  then if typeof_object v || isArray v
                       then ret (set_configTemplate (Some v) state)
                       else throw (Error_ "Templates must be a string!")
                  else ret state
              | None => ret state
              end) ;;
    ret (data, state).

(** The [unit] case of the switch. *)
Definition manifest_unit (E : Env) (state : State) (manifest : string)
    (data : Json.t) : M unit :=
  id <- property data "id" ;;
  name <- property data "name" ;;
  lessons <- property data "lessons" ;;
  match id with
  | Some (JStr id) =>
      match name with
      | Some (JStr name) =>
          match lessons with
          | Some ((JObj _ | JNull) as lessons) =>
              unitID <- handleUnit E (spread state) id name lessons ;;
              effect (ConsoleLog
                        ("Uploaded Unit " ++ Js.dq ++ manifest ++ Js.dq
                         ++ " (ID: " ++ Js.dq
                         ++ maybe_string (maybe_of_option unitID)
                         ++ Js.dq ++ ").")%string)
          | _ => throw (Error_ "lessons must be an object!")
          end
      | _ => throw (Error_ "name must be a string!")
      end
  | _ => throw (Error_ "id must be a string!")
  end.

(** The [lesson] case of the switch. *)
Definition manifest_lesson (E : Env) (state : State) (manifest : string)
    (data : Json.t) : M unit :=
  id <- property data "id" ;;
  name <- property data "name" ;;
  unit <- property data "unit" ;;
  spec <- property data "spec" ;;
  extendsTemplate <- property data "extends" ;;
  lessonClass <- property data "class" ;;
  match id with
  | Some (JStr id) =>
      match name with
      | Some (JStr name) =>
          match unit with
          | Some (JStr _ | JNull) =>
              match spec with
              | Some (JStr _ | JNull) =>
                  match extendsTemplate with
                  | None | Some (JStr _ | JNull) =>
                      if typeof_string (json_of_option extendsTemplate)
                         && match templates state with
                            | None => true
                            | Some _ => false
                            end
                      then throw (Error_ "extends must be used with templates!")
                      else
                        let inMap :=
                          match lessonClass with
                          | Some v => Js.has_in (toString v) classMap
                          | None => false
                          end in
                        let isNull :=
                          match lessonClass with
                          | Some JNull => true
                          | _ => false
                          end in
                        if negb inMap && negb isNull
                        then throw (Error_
                               ("class must be null or one of ["
                                ++ Js.join ", " (Js.keys classMap)
                                ++ "]!")%string)
                        else
                          let class :=
                            match lessonClass with
                            | Some v =>
                                match Js.lookup (toString v) classMap with
                                | Js.Own n => ClassNum n
                                | Js.Inherited name => ClassProto name
                                | Js.Missing => ClassNum 0
                                end
                            | None => ClassNum 0
                            end in
                          lessonID <- handleLesson E (spread state) id name
                                        (option_string unit)
                                        (option_string spec)
                                        (option_string extendsTemplate)
                                        class (Path_dirname E manifest) ;;
                          effect (ConsoleLog
                                    ("Uploaded Lesson " ++ Js.dq ++ manifest
                                     ++ Js.dq ++ " (ID: " ++ Js.dq
                                     ++ lessonID ++ Js.dq ++ ").")%string)
                  | _ => throw (Error_ "extends must be a string or null!")
                  end
              | _ => throw (Error_ "spec must be a string or null!")
              end
          | _ => throw (Error_ "unit must be a string or null!")
          end
      | _ => throw (Error_ "name must be a string!")
      end
  | _ => throw (Error_ "id must be a string!")
  end.

Definition type_error_message : string :=
  ("Type must be either undefined, " ++ Js.dq ++ "unit" ++ Js.dq ++ ", or "
   ++ Js.dq ++ "lesson" ++ Js.dq ++ ".")%string.

(** The end of the [try] block, from the check of [type] on. *)
Definition manifest_typed (E : Env) (state : State) (manifest : string)
    (data : Json.t) : M unit :=
  typev <- property data "type" ;;
  if negb (truthy_opt typev) then ret tt
  else
    (match typev with
     | Some (JStr t) =>
         if t =? "unit" then manifest_unit E state manifest data
         else if t =? "lesson" then manifest_lesson E state manifest data
         else throw (Error_ type_error_message)
     | _ => throw (Error_ type_error_message)
     end) ;;;
    delay state.

(** The fan-out over [upload], with [recurse] for the recursive call. *)
Definition manifest_upload (E : Env)
    (recurse : State -> option string -> string -> M unit)
    (state : State) (manifest : string) (data : Json.t) : M unit :=
  let newBase := Path_dirname E manifest in
  uploadv <- property data "upload" ;;
  if truthy_opt uploadv
  then match uploadv with
       | Some (JArr items) =>
           for_each (elements items)
             (fun item =>
                match item with
                | JStr item =>
                    recurse (spread state) (Some manifest)
                      (Path_join E [newBase; item; "manifest.json"])
                | _ => throw (Error_ "Upload must be a string array!")
                end)
       | _ => throw (Error_ "Upload must be an array!")
       end
  else ret tt.

(** [readManifest].  The manifests may refer to each other in a cycle;
    [fuel] bounds the depth of the recursion and [Diverge] is the outcome
    when it runs out. *)
Fixpoint readManifest (E : Env) (fuel : nat) (state : State)
    (parent : option string) (manifest : string) : M unit :=
  match fuel with
  | O => fun w => (Diverge, w)
  | S fuel' =>
      catch
        (head <- manifest_head E state manifest ;;
         manifest_upload E (readManifest E fuel') (snd head) manifest
           (fst head) ;;;
         manifest_typed E (snd head) manifest (fst head))
        (manifest_error parent manifest)
  end.

(** [index.ts]: the state [upload] starts from, and its call of
    [readManifest] on the root manifest. *)
Definition initial_world : World := mkWorld [0%N] [[]] [].
Definition initial_state (key : string) : State :=
  mkState 0 0 key None None None.
Definition upload (E : Env) (fuel : nat) (manifest key : string) : M unit :=
  readManifest E fuel (initial_state key) None manifest.


(** *** A small course, for the examples *)

(** The platform knows the lesson [intro] and no other name; the name
    [broken] makes it fail. *)
Definition demo_axios (n : nat) (r : Request) : Response :=
  match r with
  | GetId name =>
      if name =? "intro" then Fulfilled (Some "L1")
      else if name =? "broken" then Rejected (Some 500%N)
      else Rejected (Some 404%N)
  | PutUnit _ friendlyName _ _ => Fulfilled (Some ("id-of-" ++ friendlyName)%string)
  | _ => Fulfilled None
  end.

(** The files of the course; a manifest is named by its text. *)
Definition demo_files : Js.Rec string :=
  [("course/manifest.json", "root manifest");
   ("course/a/manifest.json", "manifest of unit a");
   ("course/b/manifest.json", "manifest of unit b");
   ("odd/manifest.json", "manifest with type 0");
   ("odd2/manifest.json", "manifest with templates 5");
   ("odd3/manifest.json", "manifest with a missing child");
   ("tpl/a", "1"); ("tpl/b", "2"); ("tpl/config.json", "template config");
   ("les/b", "3"); ("les/c", "4"); ("les/manifest.json", "lesson manifest")].

Definition demo_json : Js.Rec Json.t :=
  [("root manifest", JObj [("upload", array [JStr "a"; JStr "b"])]);
   ("manifest of unit a",
    JObj [("type", JStr "unit"); ("id", JStr "unit-a"); ("name", JStr "A");
          ("lessons", JObj [("intro", JObj [])])]);
   ("manifest of unit b",
    JObj [("type", JStr "unit"); ("id", JStr "unit-b"); ("name", JStr "B");
          ("lessons", JObj [("intro", JObj [])])]);
   ("manifest with type 0", JObj [("type", JNum 0)]);
   ("manifest with templates 5", JObj [("templates", JNum 5)]);
   ("manifest with a missing child", JObj [("upload", array [JStr "gone"])])].

(** [Path.dirname] and [Path.relative] on the paths of the course, which
    have one directory level below their root. *)
Definition demo_dirname (p : string) : string :=
  String.substring 0 (String.length p - String.length "/manifest.json") p.
Definition demo_relative (dir p : string) : string :=
  Js.substring_from (S (String.length dir)) p.

Definition demo_walkdir (dir : string) : option (list (string * bool)) :=
  Some (map (fun kv => (fst kv, true))
          (filter (fun kv => Js.startsWith (dir ++ "/")%string (fst kv))
             demo_files)).

(** A container that sends nothing; each session is watched for 10
    seconds. *)
Definition demo_socket (n : nat) : list (N * Sync.Input) * N :=
  ([], 10000%N).

Definition demo : Env :=
  mkEnv demo_axios demo_socket (Js.join "/") demo_dirname demo_relative
    (fun p => Js.has p demo_files) (fun p => Js.get p demo_files)
    (fun text => Js.get text demo_json) demo_walkdir.

(** *** The files of a directory, in the words of the specification *)

(** The regular files among [entries], the entries of the walk of [dir],
    that do not have a reserved name: [(relative path, path)], in the
    order of the walk. *)
Definition listed_in (E : Env) (dir : string)
    (entries : list (string * bool)) : list (string * string) :=
  flat_map
    (fun e =>
       let relative := Path_relative E dir (fst e) in
       if snd e && negb (Js.includes relative reserved)
       then [(relative, fst e)] else [])
    entries.

Definition listed (E : Env) (dir : string) : list (string * string) :=
  match walkdir E dir with
  | Some entries => listed_in E dir entries
  | None => []
  end.

(** The last of the listed files that has the relative path [k]. *)
Fixpoint last_at (k : string) (l : list (string * string))
  : option string :=
  match l with
  | [] => None
  | (relative, path) :: l' =>
      match last_at k l' with
      | Some p => Some p
      | None => if relative =? k then Some path else None
      end
  end.

(** The file that the overlay has at the relative path [k]: the one of
    the lesson directory, else the one of the template directory. *)
Definition overlay_at (E : Env) (templateDir : option string)
    (dir k : string) : option string :=
  match last_at k (listed E dir) with
  | Some p => Some p
  | None =>
      match templateDir with
      | Some t => last_at k (listed E t)
      | None => None
      end
  end.

(** The text that the file at [path] gives to a file set: what
    [readFile] returns, after the pass over a README. *)
Definition file_text (E : Env) (state : State) (path : string) (w : World)
  : Outcome string :=
  match fs_readFile E path with
  | Some content =>
      if Js.endsWith "/README.md" path
      then fst (replace_images state 0 content w)
      else Ok content
  | None => Throw (SystemError path)
  end.

(** A lesson directory that holds a file named [__proto__]. *)
Definition proto_files : Js.Rec string :=
  [("les/__proto__", "notes"); ("les/main.py", "print(1)")].

Definition proto_lesson : Env :=
  mkEnv demo_axios demo_socket (Js.join "/") demo_dirname demo_relative
    (fun p => Js.has p proto_files) (fun p => Js.get p proto_files)
    (fun text => None)
    (fun dir => Some (map (fun kv => (fst kv, true)) proto_files)).

Definition is_http (e : Effect) : bool :=
  match e with Http _ _ => true | _ => false end.

(** The memo of a state, as the world has it. *)
Definition memo_of (state : State) (w : World) : Js.Rec string :=
  nth (idsMap state) (memos w) [].

(** [state.idsMap[id]] is falsy: the memo has nothing usable for [id]. *)
Definition memo_miss (id : string) (state : State) (w : World) : Prop :=
  match Js.lookup id (memo_of state w) with
  | Js.Own v => Js.truthy v = false
  | Js.Inherited _ => False
  | Js.Missing => True
  end.

(** The memo of a state is an object of the world, and one that the code
    can have made: none of its own properties is named [__proto__]. *)
Definition memo_ok (state : State) (w : World) : Prop :=
  (idsMap state < length (memos w))%nat
  /\ Js.get "__proto__" (memo_of state w) = None.

(** *** Vocabulary of the properties of the uploader *)

(** [n] calls of [delay] in a row. *)
Fixpoint delays (n : nat) (state : State) : M unit :=
  match n with
  | O => ret tt
  | S n' => delay state ;;; delays n' state
  end.

Definition is_sleep (e : Effect) : bool :=
  match e with Sleep _ => true | _ => false end.

(** The value of the counter of a state, as the world has it. *)
Definition counter_of (state : State) (w : World) : N :=
  nth (itemCount state) (counters w) 0%N.

(** What a computation adds to the log lies in [Q], and it ends. *)
Definition only (Q : Effect -> Prop) {A} (m : M A) : Prop :=
  forall w, exists l,
    log (snd (m w)) = log w ++ l /\ Forall Q l /\ fst (m w) <> Diverge.

(** [a] is a value that [m] returns. *)
Definition returns {A} (m : M A) (a : A) : Prop :=
  exists w w', m w = (Ok a, w').

(** A computation that ends; what it adds to the log is a part in [Q]
    followed by a part that [P] describes when it returns ([P] is given the
    log up to that part) and [PT] when it throws. *)
Definition ends_with (Q : Effect -> Prop) {A}
    (P : list Effect -> list Effect -> Prop)
    (PT : Error -> list Effect -> Prop) (m : M A) : Prop :=
  forall w, exists l t,
    log (snd (m w)) = log w ++ l ++ t /\ Forall Q l
    /\ match fst (m w) with
       | Ok _ => P (log w ++ l) t
       | Throw e => PT e t
       | Diverge => False
       end.

(** As [ends_with], for a computation that may also be left waiting: the
    last part of what it added to the log is then as when it returns. *)
Definition ends_or_waits (Q : Effect -> Prop) {A}
    (P : list Effect -> list Effect -> Prop)
    (PT : Error -> list Effect -> Prop) (m : M A) : Prop :=
  forall w, exists l t,
    log (snd (m w)) = log w ++ l ++ t /\ Forall Q l
    /\ match fst (m w) with
       | Throw e => PT e t
       | _ => P (log w ++ l) t
       end.

(** What a computation adds to the log when it returns lies in [Q]. *)
Definition quiet_ok (Q : Effect -> Prop) {A} (m : M A) : Prop :=
  forall w, exists l,
    log (snd (m w)) = log w ++ l
    /\ (forall a, fst (m w) = Ok a -> Forall Q l).

(** A lookup of an id, or no request at all. *)
Definition is_lookup (e : Effect) : Prop :=
  match e with
  | Http _ (GetId _) | Sleep _ | ConsoleLog _ => True
  | _ => False
  end.

Definition no_request (e : Effect) : Prop :=
  match e with
  | Sleep _ | ConsoleLog _ => True
  | _ => False
  end.

Definition no_upload (e : Effect) : Prop :=
  match e with UploadFiles _ _ => False | _ => True end.

Definition no_console_error (e : Effect) : Prop :=
  match e with ConsoleError _ => False | _ => True end.

(** [templateDir] of [handleLesson]. *)
Definition template_dir (E : Env) (state : State)
    (extendsTemplate : option string) : option string :=
  match extendsTemplate, templates state with
  | Some e, Some t =>
      if Js.truthy e && Js.truthy t then Some (Path_join E [t; e]) else None
  | _, _ => None
  end.

(** The line that [readManifest] writes before it passes an error on. *)
Definition error_header (parent : option string) (manifest : string)
  : string :=
  if match parent with Some p => Js.truthy p | None => false end
  then ("An error occurred while reading " ++ manifest ++ " (called by "
        ++ match parent with Some p => p | None => "" end ++ "):")%string
  else ("An error occurred while reading " ++ manifest ++ ":")%string.

(** A platform that answers every request, for the examples. *)
Definition demo_platform (n : nat) (r : Request) : Response :=
  match r with
  | GetId name => Fulfilled (Some ("id-of-" ++ name)%string)
  | GetLesson _ => Fulfilled (Some "project-1")
  | PostProjectNew => Fulfilled (Some "project-2")
  | PutLesson _ friendlyName _ _ _ _ _ =>
      Fulfilled (Some ("id-of-" ++ friendlyName)%string)
  | PutUnit _ friendlyName _ _ =>
      Fulfilled (Some ("id-of-" ++ friendlyName)%string)
  | PutConfig _ _ => Fulfilled None
  | PutVideo _ _ => Fulfilled None
  | GetToken project => Fulfilled (Some ("token-of-" ++ project)%string)
  end.

Definition demo_online : Env :=
  mkEnv demo_platform demo_socket (Js.join "/") demo_dirname demo_relative
    (fun p => Js.has p demo_files) (fun p => Js.get p demo_files)
    (fun text => Js.get text demo_json) demo_walkdir.

(** The class that a request gives a lesson. *)
Definition class_of (r : Request) : option Class :=
  match r with
  | PutLesson _ _ _ _ _ _ lessonClass => Some lessonClass
  | _ => None
  end.

(** A class that [readManifest] can hand to [handleLesson]: a number of
    the class map, 0, or what [Object.prototype] has under one of its
    names. *)
Definition known_class (c : Class) : Prop :=
  match c with
  | ClassNum n => (n <= 4)%N
  | ClassProto name => Js.inherited name = true
  end.

(** A request with the key [k] that gives a lesson none but a known
    class. *)
Definition keyed (k : string) (e : Effect) : Prop :=
  match e with
  | Http authorization r =>
      authorization = k
      /\ match class_of r with Some c => known_class c | None => True end
  | _ => True
  end.

(** What a computation adds to the log lies in [Q], however it ends. *)
Definition always (Q : Effect -> Prop) {A} (m : M A) : Prop :=
  forall w, exists l, log (snd (m w)) = log w ++ l /\ Forall Q l.

(** What [handleLesson] does before it upserts the lesson: it looks ids
    and the project up and may create a project. *)
Definition before_upsert (e : Effect) : Prop :=
  match e with
  | Http _ (GetId _ | GetLesson _ | PostProjectNew) => True
  | Sleep _ | ConsoleLog _ => True
  | _ => False
  end.

(** What [handleLesson] does once the lesson is upserted: config, video,
    token, and the files. *)
Definition after_upsert (e : Effect) : Prop :=
  match e with
  | Http _ (PutConfig _ _ | PutVideo _ _ | GetToken _) => True
  | Sleep _ | ConsoleLog _ | UploadFiles _ _ => True
  | _ => False
  end.

(** Every character of [s] is in the class [p]. *)
Fixpoint all_chars (p : ascii -> bool) (s : string) : bool :=
  match s with
  | EmptyString => true
  | String c s' => p c && all_chars p s'
  end.

Definition not_dollar (c : ascii) : bool := negb (c =? "$")%char.

(** Where an entry of the desired file set comes from: a regular file
    [path] of a walk whose relative path is the key and is not reserved;
    the text is the content of the file, after the README pass when the
    file is a README. *)
Definition comes_from (E : Env) (state : State)
    (walkEntries : list (string * bool * string)) (k c : string) : Prop :=
  exists path text,
    In (path, true, k) walkEntries
    /\ Js.includes k reserved = false
    /\ fs_readFile E path = Some text
    /\ if Js.endsWith "/README.md" path
       then returns (replace_images state 0 text) c
       else c = text.



(** An id: a string, neither [null] nor [undefined] nor anything else. *)
Definition is_id (m : Maybe) : Prop := exists s, m = Str s.

(** Every reference of the graph of a unit is an id. *)
Definition all_ids (map : Js.Rec UnitEntry) : Prop :=
  forall k entry,
    Js.get k map = Some entry ->
    Forall is_id (next entry) /\ Forall is_id (previous entry).

(** The names that the [next] and [previous] lists of the lessons of a
    unit refer to. *)
Definition strings_of (v : option Json.t) : list string :=
  match v with
  | Some (JArr props) =>
      flat_map (fun x => match x with JStr s => [s] | _ => [] end)
        (elements props)
  | _ => []
  end.

Definition entry_names (entry : Json.t) : list string :=
  match entry with
  | JObj props | JArr props =>
      strings_of (Js.get "next" props) ++ strings_of (Js.get "previous" props)
  | _ => []
  end.

Definition graph_names (lessons : Json.t) : list string :=
  match lessons with
  | JObj props => flat_map (fun kv => entry_names (snd kv)) props
  | _ => []
  end.

(** The platform answers the lookup of an id with an id or with an
    error. *)
Definition answers_with_ids (E : Env) : Prop :=
  forall n name, axios E n (GetId name) <> Fulfilled None.



End Upload.

(** ** The images of a course: [images.ts] *)
Module Images.
Import Upload.

(** An entry of the list that the platform answers: a file it has. *)
Record Uploaded := mkUploaded {
  up_id : string;
  up_hash : string;
  up_format : string
}.

(** An entry of the result: [{ id, format, width, height }]; [id] is
    [undefined] when the answer to an upload has none. *)
Record Entry := mkEntry {
  id : option string;
  format : string;
  width : option N;
  height : option N
}.

Inductive Request :=
| GetFileList                                  (* GET  file/list *)
| PutImage (format : string) (filePath : string).
                                               (* PUT  file/image/upload/<format>,
                                                  the form holds the stream of
                                                  [filePath] *)

Inductive Effect :=
| Http (authorization : string) (r : Request)
| ConsoleLog (msg : string).

(** How the request of the list settles. *)
Inductive ListResponse :=
| Listed (files : list Uploaded)
| ListRejected (status : option N).

(** What [images.ts] does not contain: the platform, [fs], [path],
    [crypto] and [image-size].  [put_image n format filePath] is how the
    upload settles when [n] requests were made before it. *)
Record Env := mkEnv {
  file_list : ListResponse;
  put_image : nat -> string -> string -> Response;
  fs_readdir : string -> option (list string);
  fs_readFile : string -> option string;
  Path_join : list string -> string;
  Path_extname : string -> string;
  sha256_hex : string -> string;
  imageSize : string -> option (option N * option N)
}.

(** [getFileHash]: the first 16 hexadecimal digits of the SHA-256 of the
    file. *)
Definition getFileHash (E : Env) (path : string) : option string :=
  option_map (fun content => String.substring 0 16 (sha256_hex E content))
    (fs_readFile E path).

(** [uploadedList.find(file => file.format === format && file.hash === hash)] *)
Definition find_uploaded (format hash : string)
    (uploadedList : list Uploaded) : option Uploaded :=
  find (fun file => (up_format file =? format) && (up_hash file =? hash))
    uploadedList.

Definition is_request (e : Effect) : bool :=
  match e with Http _ _ => true | ConsoleLog _ => false end.

(** The loop over [filesNames]; the log is threaded through it. *)
Fixpoint upload_each (E : Env) (key path : string)
    (uploadedList : list Uploaded) (filesNames : list string)
    (output : Js.Rec Entry) (log : list Effect)
  : Outcome (Js.Rec Entry) * list Effect :=
  match filesNames with
  | [] => (Ok output, log)
  | fileName :: rest =>
      let filePath := Path_join E [path; fileName] in
      let format := Js.substring_from 1 (Path_extname E fileName) in
      match getFileHash E filePath with
      | None => (Throw (SystemError filePath), log)
      | Some hash =>
          match option_map (imageSize E) (fs_readFile E filePath) with
          | None => (Throw (SystemError filePath), log)
          | Some None => (Throw TypeError, log)
          | Some (Some (width, height)) =>
              match find_uploaded format hash uploadedList with
              | None =>
                  let log1 := log ++ [Http key (PutImage format filePath)] in
                  match put_image E (length (filter is_request log)) format
                          filePath with
                  | Fulfilled newId =>
                      upload_each E key path uploadedList rest
                        (Js.set fileName (mkEntry newId format width height)
                           output)
                        (log1 ++ [ConsoleLog ("Uploaded Image " ++ Js.dq
                                              ++ filePath ++ Js.dq ++ ".")%string])
                  | Rejected status => (Throw (AxiosError status), log1)
                  end
              | Some uploadedFile =>
                  upload_each E key path uploadedList rest
                    (Js.set fileName
                       (mkEntry (Some (up_id uploadedFile)) format width
                          height) output)
                    (log ++ [ConsoleLog ("Verified Image " ++ Js.dq
                                         ++ filePath ++ Js.dq ++ ".")%string])
              end
          end
      end
  end.

(** [uploadImages(state, path)], with the key of the state. *)
Definition uploadImages (E : Env) (key path : string)
  : Outcome (Js.Rec Entry) * list Effect :=
  let log := [Http key GetFileList] in
  match file_list E with
  | ListRejected status => (Throw (AxiosError status), log)
  | Listed uploadedList =>
      match fs_readdir E path with
      | None => (Throw (SystemError path), log)
      | Some filesNames =>
          upload_each E key path uploadedList filesNames [] log
      end
  end.

(** The file the platform has for the image [fileName] of the directory,
    if any. *)
Definition on_platform (E : Env) (uploadedList : list Uploaded)
    (path fileName : string) : option Uploaded :=
  match getFileHash E (Path_join E [path; fileName]) with
  | Some hash =>
      find_uploaded (Js.substring_from 1 (Path_extname E fileName)) hash
        uploadedList
  | None => None
  end.

Definition is_new (E : Env) (uploadedList : list Uploaded)
    (path fileName : string) : bool :=
  match on_platform E uploadedList path fileName with
  | Some _ => false
  | None => true
  end.

(** A directory of two images, one of which the platform has. *)
Definition demo_images : Env :=
  mkEnv (Listed [mkUploaded "img-1" "hash-of-logo" "png"])
    (fun n format filePath => Fulfilled (Some ("new-" ++ filePath)%string))
    (fun _ => Some ["logo.png"; "photo.jpg"])
    (fun p => Some p)
    (Js.join "/")
    (fun name => Js.substring_from (String.length name - 4) name)
    (fun content => if content =? "images/logo.png" then "hash-of-logo"
                    else "another-hash")
    (fun _ => Some (Some 64%N, Some 32%N)).

End Images.


(* ===================================================================== *)
(** * Part II: properties                                                  *)
(* ===================================================================== *)

(** Case analysis on the test of the conditional at hand. *)
Ltac case_test :=
  match goal with
  | |- context [if ?c then _ else _] => destruct c
  end.

(** ** Records *)
Section RecFacts.
Context {V : Type}.
Implicit Types (o : Js.Rec V) (k : string) (v : V).

Lemma get_set_same o k v : Js.get k (Js.set k v o) = Some v.
Proof.
  induction o as [|[k' v'] o IH]; simpl.
  - now rewrite String.eqb_refl.
  - destruct (String.eqb_spec k' k) as [->|Hne]; simpl.
    + now rewrite String.eqb_refl.
    + destruct (String.eqb_spec k' k); [contradiction|exact IH].
Qed.

Lemma get_set_other o k k' v :
  k <> k' -> Js.get k (Js.set k' v o) = Js.get k o.
Proof.
  intros Hne. induction o as [|[k0 v0] o IH]; simpl.
  - destruct (String.eqb_spec k' k); [congruence|reflexivity].
  - destruct (String.eqb_spec k0 k') as [->|H0]; simpl.
    + destruct (String.eqb_spec k' k); [congruence|reflexivity].
    + destruct (String.eqb_spec k0 k); [reflexivity|exact IH].
Qed.

Lemma get_del_same o k : Js.get k (Js.del k o) = None.
Proof.
  induction o as [|[k' v'] o IH]; simpl; [reflexivity|].
  destruct (String.eqb_spec k' k) as [->|Hne]; simpl; [exact IH|].
  destruct (String.eqb_spec k' k); [contradiction|exact IH].
Qed.

Lemma get_del_other o k k' :
  k <> k' -> Js.get k (Js.del k' o) = Js.get k o.
Proof.
  intros Hne. induction o as [|[k0 v0] o IH]; simpl; [reflexivity|].
  destruct (String.eqb_spec k0 k') as [->|H0]; simpl.
  - destruct (String.eqb_spec k' k); [congruence|exact IH].
  - destruct (String.eqb_spec k0 k); [reflexivity|exact IH].
Qed.

Lemma get_some_in o k v : Js.get k o = Some v -> In (k, v) o.
Proof.
  induction o as [|[k' v'] o IH]; simpl; [discriminate|].
  destruct (String.eqb_spec k' k) as [->|Hne].
  - intros [= ->]. now left.
  - intros H. right. now apply IH.
Qed.

Lemma in_get_some o k v : In (k, v) o -> exists v', Js.get k o = Some v'.
Proof.
  induction o as [|[k' v'] o IH]; simpl; [contradiction|].
  intros [[= -> ->]|Hin].
  - rewrite String.eqb_refl. now exists v.
  - destruct (String.eqb_spec k' k); [now exists v'|now apply IH].
Qed.

Lemma insert_index_perm (e : N * (string * V)) l :
  Permutation (Js.insert_index e l) (e :: l).
Proof.
  induction l as [|e' l IH]; simpl; [reflexivity|].
  destruct (fst e <? fst e')%N; [reflexivity|].
  rewrite IH. apply perm_swap.
Qed.

(** The enumeration of a record lists its properties, each once. *)
Lemma entries_perm o : Permutation (Js.entries o) o.
Proof.
  unfold Js.entries. induction o as [|[k v] o IH]; simpl; [reflexivity|].
  destruct (Js.array_index k) as [n|].
  - rewrite insert_index_perm. simpl. now constructor.
  - rewrite <- Permutation_middle. now constructor.
Qed.

Lemma in_keys_get o k : In k (Js.keys o) -> exists v, Js.get k o = Some v.
Proof.
  unfold Js.keys. intros Hin. apply in_map_iff in Hin.
  destruct Hin as [[k' v] [<- Hin]]. simpl.
  apply (Permutation_in _ (entries_perm o)) in Hin.
  eapply in_get_some; eauto.
Qed.

Lemma get_in_keys o k v : Js.get k o = Some v -> In k (Js.keys o).
Proof.
  intros H. apply get_some_in in H. unfold Js.keys.
  apply in_map_iff. exists (k, v). split; [reflexivity|].
  apply (Permutation_in _ (Permutation_sym (entries_perm o))). exact H.
Qed.

End RecFacts.

(** The enumeration order of ECMAScript, the rendering of bytes and the
    string helpers, on examples. *)
Example keys_order :
  Js.keys [("b", 1); ("10", 2); ("a", 3); ("9", 4); ("01", 5)]
  = ["9"; "10"; "b"; "a"; "01"].
Proof. reflexivity. Qed.

Example bytes_toString :
  Js.Uint8Array_toString (Js.TextEncoder_encode "same") = "115,97,109,101".
Proof. reflexivity. Qed.

Example string_helpers :
  Js.endsWith "/README.md" "a/b/README.md" = true
  /\ Js.substring_from 1 ":abc" = "abc"
  /\ Js.startsWith ":" ":abc" = true.
Proof. repeat split. Qed.

(** The copy [{ ...o }] of an object has the properties of [o]. *)
Lemma get_spread {V} (o : Js.Rec V) k :
  NoDup (map fst o) -> Js.get k (Js.spread o) = Js.get k o.
Proof.
  intros Hnd. unfold Js.spread.
  assert (Hin : forall (l : Js.Rec V) v,
            NoDup (map fst l) -> In (k, v) l -> Js.get k l = Some v).
  { induction l as [|[k' v'] l IH]; simpl; [contradiction|].
    intros v Hl [[= -> ->]|Hi]; [now rewrite String.eqb_refl|].
    inversion Hl as [|? ? Hnot Hl']; subst.
    destruct (String.eqb_spec k' k) as [->|Hne]; [|now apply IH].
    exfalso. apply Hnot. apply in_map_iff. now exists (k, v). }
  assert (Hnd' : NoDup (map fst (Js.entries o))).
  { eapply Permutation_NoDup; [|exact Hnd].
    apply Permutation_map, Permutation_sym, entries_perm. }
  destruct (Js.get k o) as [v|] eqn:Hg.
  - apply Hin; [exact Hnd'|].
    apply (Permutation_in _ (Permutation_sym (entries_perm o))).
    now apply get_some_in.
  - destruct (Js.get k (Js.entries o)) as [v|] eqn:Hg'; [|reflexivity].
    apply get_some_in in Hg'.
    apply (Permutation_in _ (entries_perm o)) in Hg'.
    destruct (in_get_some _ _ _ Hg') as [v' Hv']. congruence.
Qed.

Lemma includes_in x xs : Js.includes x xs = true <-> In x xs.
Proof.
  unfold Js.includes. rewrite existsb_exists. split.
  - intros [y [Hin Heq]]. apply String.eqb_eq in Heq. now subst.
  - intros Hin. exists x. split; [exact Hin|apply String.eqb_refl].
Qed.

(** ** The file-sync session *)
Section SyncFacts.
Import Proto Sync.

Lemma nth_list_update {A} i (f : A -> A) (l : list A) d :
  nth i (list_update i f l) d = if (i <? length l)%nat then f (nth i l d) else d.
Proof.
  revert i. induction l as [|x l IH]; intros [|i]; simpl; try reflexivity.
  rewrite IH. reflexivity.
Qed.

Lemma list_update_id {A} i (l : list A) d :
  list_update i (fun _ => nth i l d) l = l.
Proof.
  revert i. induction l as [|x l IH]; intros [|i]; simpl; try reflexivity.
  now rewrite IH.
Qed.

Lemma length_list_update {A} i (f : A -> A) l :
  length (list_update i f l) = length l.
Proof.
  revert i. induction l as [|x l IH]; intros [|i]; simpl; auto.
Qed.

Lemma list_update_twice {A} i (f g : A -> A) (l : list A) :
  list_update i g (list_update i f l) = list_update i (fun x => g (f x)) l.
Proof.
  revert i. induction l as [|x l IH]; intros [|i]; simpl; try reflexivity.
  now rewrite IH.
Qed.

Lemma pruned_set_nil listing : pruned_set [] listing = [].
Proof.
  induction listing as [|f rest IH]; simpl; [reflexivity|].
  destruct (same_text _ _ _); simpl; exact IH.
Qed.

Lemma send_deletions_spec sid items listing w :
  send_deletions sid items listing w =
  mkWorld (now w) (heap w) (sessions w) (timers w)
    (trace w ++ map (fun p => (now w, WsSend sid (DeleteFile p)))
                  (filter (fun p => negb (Js.includes p items))
                     (map path listing))).
Proof.
  unfold send_deletions. revert w.
  induction listing as [|f rest IH]; intros w; simpl.
  - rewrite app_nil_r. now destruct w.
  - rewrite IH. destruct (negb (Js.includes (path f) items)); simpl.
    + now rewrite <- app_assoc.
    + reflexivity.
Qed.

Lemma prune_spec sid fl listing w :
  prune sid fl listing w =
  mkWorld (now w)
    (list_update fl (fun _ => pruned_set (read fl w) listing) (heap w))
    (sessions w) (timers w)
    (trace w ++ map (fun p => (now w, Pruned sid p))
                  (pruned_paths (read fl w) listing)).
Proof.
  unfold prune. revert w.
  induction listing as [|f rest IH]; intros w; simpl.
  - rewrite app_nil_r. unfold read. rewrite list_update_id. now destruct w.
  - destruct (same_text (read fl w) (path f)
                (option_map Js.Uint8Array_toString (data f))) eqn:Heq.
    + rewrite IH. unfold read, write, emit, set_heap. simpl.
      rewrite nth_list_update, list_update_twice, <- app_assoc. simpl.
      destruct (fl <? length (heap w))%nat eqn:Hlt; [reflexivity|].
      apply Nat.ltb_ge in Hlt.
      rewrite (nth_overflow _ _ Hlt). simpl. reflexivity.
    + apply IH.
Qed.

Lemma send_writes_spec sid fl w :
  send_writes sid fl w =
  mkWorld (now w) (heap w) (sessions w) (timers w)
    (trace w ++ map (fun k => (now w, WsSend sid
                                 (SetFile k (Js.TextEncoder_encode
                                               (content k (read fl w))))))
                  (Js.keys (read fl w))).
Proof.
  unfold send_writes. generalize (Js.keys (read fl w)) as ks.
  assert (H : forall ks w0, heap w0 = heap w ->
    fold_left
      (fun (w1 : World) (file : string) =>
         emit (WsSend sid (SetFile file (Js.TextEncoder_encode
           match Js.get file (read fl w1) with Some c => c | None => "" end)))
           w1) ks w0 =
    mkWorld (now w0) (heap w0) (sessions w0) (timers w0)
      (trace w0 ++ map (fun k => (now w0, WsSend sid
                                   (SetFile k (Js.TextEncoder_encode
                                                 (content k (read fl w))))))
                    ks)).
  { induction ks as [|k ks IH]; intros w0 Hh; simpl.
    - rewrite app_nil_r. now destruct w0.
    - rewrite IH by exact Hh. unfold emit, content, read. simpl.
      rewrite Hh, <- app_assoc. reflexivity. }
  intros ks. now apply H.
Qed.

Lemma resolve_from_spec fuel sid w :
  exists ss rs,
    resolve_from fuel sid w =
    mkWorld (now w) (heap w) ss (timers w)
      (trace w ++ map (fun r => (now w, Resolved r)) rs).
Proof.
  revert sid w. induction fuel as [|fuel IH]; intros sid w; simpl.
  - exists (sessions w), []. simpl. rewrite app_nil_r. now destruct w.
  - destruct (session sid w) as [s|].
    2:{ exists (sessions w), []. simpl. rewrite app_nil_r. now destruct w. }
    destruct (promise s).
    2,3: exists (sessions w), []; simpl; rewrite app_nil_r; now destruct w.
    destruct (continuation s) as [p|].
    + destruct (IH p (emit (Resolved sid)
                        (update_session sid (set_promise Fulfilled) w)))
        as [ss [rs Heq]].
      rewrite Heq. exists ss, (sid :: rs). simpl.
      now rewrite <- app_assoc.
    + eexists _, [sid]. reflexivity.
Qed.

Lemma pruned_set_get o listing k c :
  Js.get k (pruned_set o listing) = Some c ->
  Js.get k o = Some c /\ ~ In k (pruned_paths o listing).
Proof.
  revert o. induction listing as [|f rest IH]; intros o; simpl.
  - intros H. split; [exact H|tauto].
  - destruct (same_text _ _ _).
    + intros H. destruct (IH _ H) as [Hg Hn].
      destruct (String.eqb_spec k (path f)) as [->|Hne].
      * rewrite get_del_same in Hg. discriminate.
      * rewrite get_del_other in Hg by exact Hne.
        split; [exact Hg|]. simpl. intros [Heq|Hin]; [congruence|tauto].
    + apply IH.
Qed.

End SyncFacts.

Section SyncRound.
Import Proto Sync.

Lemma send_deletions_facts sid items listing w :
  let w1 := send_deletions sid items listing w in
  now w1 = now w /\ heap w1 = heap w
  /\ trace w1 =
     trace w ++ map (fun p => (now w, WsSend sid (DeleteFile p)))
                  (filter (fun p => negb (Js.includes p items))
                     (map path listing)).
Proof. simpl. rewrite send_deletions_spec. simpl. auto. Qed.

Lemma prune_facts sid fl listing w :
  let w2 := prune sid fl listing w in
  now w2 = now w
  /\ read fl w2 = pruned_set (read fl w) listing
  /\ trace w2 =
     trace w ++ map (fun p => (now w, Pruned sid p))
                  (pruned_paths (read fl w) listing).
Proof.
  simpl. rewrite prune_spec. simpl. repeat split.
  unfold read at 1. simpl. rewrite nth_list_update.
  destruct (fl <? length (heap w))%nat eqn:Hlt; [reflexivity|].
  apply Nat.ltb_ge in Hlt. unfold read.
  rewrite (nth_overflow _ _ Hlt). now rewrite pruned_set_nil.
Qed.

Lemma send_writes_facts sid fl w :
  let w3 := send_writes sid fl w in
  now w3 = now w /\ read fl w3 = read fl w
  /\ trace w3 =
     trace w ++ map (fun k => (now w, WsSend sid
                                 (SetFile k (Js.TextEncoder_encode
                                               (content k (read fl w))))))
                  (Js.keys (read fl w)).
Proof. simpl. rewrite send_writes_spec. simpl. auto. Qed.

Lemma finish_facts sid fl w :
  let w6 := resolve sid (update_session sid (set_finished true)
                           (setTimeout (CbClose sid) 1000 w)) in
  read fl w6 = read fl w
  /\ exists resolved,
       trace w6 = trace w ++ map (fun r => (now w, Resolved r)) resolved.
Proof.
  simpl. unfold resolve.
  destruct (resolve_from_spec (S sid) sid
              (update_session sid (set_finished true)
                 (setTimeout (CbClose sid) 1000 w))) as [ss [rs Heq]].
  rewrite Heq. simpl. split; [reflexivity|]. now exists rs.
Qed.

(** C5.  One round of convergence, the [Files] case of the listener: what
    it appends to the trace is, in this order, the [DeleteFile] messages
    (one per listed path that is not a key of the file set as it is before
    any pruning), the prunings, the [SetFile] messages and the resolution
    of the promise.  The [SetFile] messages are the keys of the pruned
    file set, each with the encoding of its text; such a key is a path of
    the original set that no pruning removed. *)
Theorem C5_deletions_before_pruning_before_writes :
  forall sid s listing w,
    session sid w = Some s ->
    let desired := read (files s) w in
    let w' := onMessage sid (ArrayBuffer (mkOut Files (Some listing))) w in
    let kept := read (files s) w' in
    (exists resolved,
       trace w' =
       trace w
       ++ map (fun p => (now w, WsSend sid (DeleteFile p)))
            (filter (fun p => negb (Js.includes p (Js.keys desired)))
               (map path listing))
       ++ map (fun p => (now w, Pruned sid p)) (pruned_paths desired listing)
       ++ map (fun k => (now w, WsSend sid
                           (SetFile k (Js.TextEncoder_encode (content k kept)))))
            (Js.keys kept)
       ++ map (fun r => (now w, Resolved r)) resolved)
    /\ kept = pruned_set desired listing
    /\ (forall k, In k (Js.keys kept) ->
          exists c, Js.get k desired = Some c /\ Js.get k kept = Some c
                    /\ ~ In k (pruned_paths desired listing)).
Proof.
  intros sid s listing w Hs desired w' kept.
  assert (Hw' : w' = onFiles sid s listing w).
  { subst w'. unfold onMessage. now rewrite Hs. }
  unfold onFiles in Hw'. fold desired in Hw'.
  set (w1 := send_deletions sid (Js.keys desired) listing w) in Hw'.
  set (w2 := prune sid (files s) listing w1) in Hw'.
  set (w3 := send_writes sid (files s) w2) in Hw'.
  destruct (send_deletions_facts sid (Js.keys desired) listing w)
    as [Hn1 [Hh1 Ht1]]. fold w1 in Hn1, Hh1, Ht1.
  assert (Hr1 : read (files s) w1 = desired)
    by (unfold read; now rewrite Hh1).
  destruct (prune_facts sid (files s) listing w1) as [Hn2 [Hr2 Ht2]].
  fold w2 in Hn2, Hr2, Ht2. rewrite Hr1 in Hr2, Ht2.
  destruct (send_writes_facts sid (files s) w2) as [Hn3 [Hr3 Ht3]].
  fold w3 in Hn3, Hr3, Ht3. rewrite Hr2 in Hr3, Ht3.
  destruct (finish_facts sid (files s) w3) as [Hr6 [resolved Ht6]].
  rewrite <- Hw' in Hr6, Ht6. fold kept in Hr6.
  assert (Hkept : kept = pruned_set desired listing) by congruence.
  split; [|split].
  - exists resolved. rewrite Ht6, Ht3, Ht2, Ht1, Hn3, Hn2, Hn1, Hkept.
    now rewrite <- !app_assoc.
  - exact Hkept.
  - intros k Hin. destruct (in_keys_get _ _ Hin) as [c Hc].
    exists c. rewrite Hkept in Hc. destruct (pruned_set_get _ _ _ _ Hc).
    rewrite Hkept. auto.
Qed.

(** C5, at an instance. *)
Lemma C5_witness :
  session 0 (start "token" desired_example)
  = Some (mkSession "token" 0 1 false Pending None OPEN)
  /\ read 0 (onMessage 0 (ArrayBuffer (mkOut Files (Some remote_example)))
               (start "token" desired_example))
     = pruned_set (read 0 (start "token" desired_example)) remote_example.
Proof.
  split; [reflexivity|].
  exact (proj1 (proj2 (C5_deletions_before_pruning_before_writes
                         0 (mkSession "token" 0 1 false Pending None OPEN)
                         remote_example (start "token" desired_example)
                         eq_refl))).
Defined.

End SyncRound.

(** ** A session that hears nothing decisive *)
Section QuietSession.
Import Proto Sync.


Lemma advance_idle tok fs t r tr t' :
  (t' < 10000)%N ->
  advance t' (idle tok fs t r tr) = idle tok fs (N.max t t') r tr.
Proof.
  intros Ht. unfold advance, idle. simpl.
  destruct (N.leb_spec 10000 t'); [lia|reflexivity].
Qed.


End QuietSession.

(** ** Invariants of the sessions along a run *)
Section SessionInvariant.
Import Proto Sync.

(** A property of the list of sessions that the updates of the listener
    keep and that holds on when a session is opened. *)
Variable P : list Session -> Prop.
Hypothesis P_update :
  forall i f l, benign f -> P l -> P (list_update i f l).
Hypothesis P_open :
  forall l tok fl bk k,
    P l -> match k with Some p => (p < length l)%nat | None => True end ->
    P (l ++ [mkSession tok fl bk false Pending k OPEN]).

Lemma benign_finished b : benign (set_finished b).
Proof. intros s. repeat split; auto. Qed.

Lemma benign_fulfilled : benign (set_promise Fulfilled).
Proof. intros s. repeat split; simpl; discriminate. Qed.

Lemma benign_readyState r : benign (set_readyState r).
Proof. intros s. repeat split; auto. Qed.

Lemma benign_close :
  benign (fun s => match readyState s with
                   | OPEN => set_readyState CLOSING s
                   | _ => s
                   end).
Proof. intros s. destruct (readyState s); repeat split; auto. Qed.

Lemma resolve_from_keeps fuel sid w :
  P (sessions w) -> P (sessions (resolve_from fuel sid w)).
Proof.
  revert sid w. induction fuel as [|fuel IH]; intros sid w H; simpl; auto.
  destruct (session sid w) as [s|]; auto.
  destruct (promise s); auto.
  assert (H1 : P (sessions (emit (Resolved sid)
                              (update_session sid (set_promise Fulfilled) w))))
    by (apply P_update; [apply benign_fulfilled|exact H]).
  destruct (continuation s); auto.
Qed.

Lemma ws_close_keeps sid w : P (sessions w) -> P (sessions (ws_close sid w)).
Proof. intros H. apply P_update; [apply benign_close|exact H]. Qed.

Lemma onFiles_keeps sid s listing w :
  P (sessions w) -> P (sessions (onFiles sid s listing w)).
Proof.
  intros H. unfold onFiles, resolve. apply resolve_from_keeps.
  apply P_update; [apply benign_finished|].
  rewrite send_writes_spec, prune_spec, send_deletions_spec. exact H.
Qed.

Lemma onMessage_keeps sid d w :
  P (sessions w) -> P (sessions (onMessage sid d w)).
Proof.
  intros H. unfold onMessage.
  destruct (session sid w) as [s|]; auto.
  destruct d as [m|]; auto.
  destruct (type m); auto.
  - apply (ws_close_keeps sid
             (update_session sid (set_finished true)
                (emit (Warn "Received NotInitialized, retrying...") w))).
    apply P_update; [apply benign_finished|exact H].
  - destruct (value m); auto. now apply onFiles_keeps.
Qed.

Lemma fire_keeps c w : P (sessions w) -> P (sessions (fire c w)).
Proof.
  intros H. destruct c as [sid|sid|sid]; simpl.
  - destruct (session sid w) as [s|] eqn:Hs; auto.
    apply P_open; [exact H|]. cbv beta iota.
    apply nth_error_Some.
    change (nth_error (sessions w) sid <> None).
    unfold session in Hs. rewrite Hs. discriminate.
  - now apply ws_close_keeps.
  - destruct (session sid w) as [s|]; auto.
    destruct (finished s); auto.
    unfold resolve. now apply resolve_from_keeps.
Qed.

Lemma run_timers_keeps fuel t w :
  P (sessions w) -> P (sessions (run_timers fuel t w)).
Proof.
  revert w. induction fuel as [|fuel IH]; intros w H; simpl; auto.
  destruct (pick (timers w)) as [[tm rest]|]; auto.
  destruct (due tm <=? t)%N; auto.
  apply IH. now apply fire_keeps.
Qed.

Lemma advance_keeps t w : P (sessions w) -> P (sessions (advance t w)).
Proof. intros H. unfold advance. now apply run_timers_keeps. Qed.

Lemma step_keeps i w : P (sessions w) -> P (sessions (step i w)).
Proof.
  intros H. unfold step.
  pose proof (advance_keeps (fst i) w H) as Ha.
  destruct (snd i) as [sid d|sid].
  - destruct (session sid (advance (fst i) w)) as [s|]; auto.
    destruct (readyState s); auto; now apply onMessage_keeps.
  - apply P_update; [apply benign_readyState|exact Ha].
Qed.

Lemma run_keeps ins w : P (sessions w) -> P (sessions (run ins w)).
Proof.
  revert w. induction ins as [|i ins IH]; intros w H; simpl; auto.
  apply IH. now apply step_keeps.
Qed.

End SessionInvariant.

Section SessionInvariants.
Import Proto Sync.

Lemma Forall_list_update {A} (Q : A -> Prop) i f (l : list A) :
  (forall x, Q x -> Q (f x)) -> Forall Q l -> Forall Q (list_update i f l).
Proof.
  intros Hf. revert i. induction l as [|x l IH]; intros i H.
  - now destruct i.
  - inversion H; subst. destruct i; simpl; constructor; auto.
Qed.

(** No promise of [uploadFiles] is ever rejected. *)
Lemma run_never_rejected tok fs ins t :
  never_rejected (advance t (run ins (start tok fs))).
Proof.
  unfold never_rejected.
  apply (advance_keeps (Forall (fun s => promise s <> Rejected))).
  - intros i f l Hf H. apply Forall_list_update; [|exact H].
    intros s. apply Hf.
  - intros l tk fl bk k H _. apply Forall_app. split; [exact H|].
    constructor; [simpl; discriminate|constructor].
  - apply (run_keeps (Forall (fun s => promise s <> Rejected))).
    + intros i f l Hf H. apply Forall_list_update; [|exact H].
      intros s. apply Hf.
    + intros l tk fl bk k H _. apply Forall_app. split; [exact H|].
      constructor; [simpl; discriminate|constructor].
    + constructor; [simpl; discriminate|constructor].
Qed.

End SessionInvariants.

(** ** The event loop is given fuel enough *)
Section EventLoop.
Import Proto Sync.

Lemma pick_none ts : pick ts = None -> ts = [].
Proof.
  destruct ts as [|t ts]; [reflexivity|]. simpl.
  destruct (pick ts) as [[m r]|]; [destruct (due t <=? due m)%N|];
    discriminate.
Qed.

Lemma pick_weight ts tm rest :
  pick ts = Some (tm, rest) ->
  total_weight ts = (weight tm + total_weight rest)%nat.
Proof.
  revert tm rest. induction ts as [|t ts IH]; intros tm rest; simpl.
  - discriminate.
  - destruct (pick ts) as [[m r]|] eqn:Hp.
    + destruct (due t <=? due m)%N; intros [= <- <-]; simpl.
      * reflexivity.
      * rewrite (IH m r eq_refl). lia.
    + intros [= <- <-]. apply pick_none in Hp. now subst ts.
Qed.

Lemma timers_resolve_from fuel sid w :
  timers (resolve_from fuel sid w) = timers w.
Proof.
  destruct (resolve_from_spec fuel sid w) as [ss [rs Heq]]. now rewrite Heq.
Qed.

Lemma total_weight_app ts1 ts2 :
  total_weight (ts1 ++ ts2) = (total_weight ts1 + total_weight ts2)%nat.
Proof. induction ts1 as [|t ts1 IH]; simpl; [reflexivity|]. rewrite IH. lia. Qed.

(** Firing a timer leaves less to fire than the timer weighed. *)
Lemma fire_weight tm t rest w :
  (total_weight (timers (fire (callback tm) (set_now t (set_timers rest w)))) <
   weight tm + total_weight rest)%nat.
Proof.
  unfold weight. destruct (callback tm) as [sid|sid|sid]; simpl.
  - destruct (session sid _) as [s|]; simpl; [|lia].
    rewrite total_weight_app. simpl. lia.
  - lia.
  - destruct (session sid _) as [s|]; simpl; [|lia].
    destruct (finished s); simpl; [lia|].
    unfold resolve. rewrite timers_resolve_from. simpl. lia.
Qed.

(** With fuel for the weight of the timers, no timer that is due is left. *)
Lemma run_timers_complete fuel t w :
  (total_weight (timers w) <= fuel)%nat ->
  match pick (timers (run_timers fuel t w)) with
  | Some (tm, _) => (t < due tm)%N
  | None => True
  end.
Proof.
  revert w. induction fuel as [|fuel IH]; intros w Hw; simpl.
  - destruct (pick (timers w)) as [[tm rest]|] eqn:Hp; [|exact I].
    apply pick_weight in Hp. unfold weight in Hp.
    destruct (callback tm); lia.
  - destruct (pick (timers w)) as [[tm rest]|] eqn:Hp.
    + destruct (N.leb_spec (due tm) t) as [Hle|Hgt].
      * apply IH. pose proof (fire_weight tm (N.max (now w) (due tm)) rest w).
        apply pick_weight in Hp. lia.
      * now rewrite Hp.
    + now rewrite Hp.
Qed.

Lemma advance_complete t w :
  match pick (timers (advance t w)) with
  | Some (tm, _) => (t < due tm)%N
  | None => True
  end.
Proof. unfold advance. simpl. now apply run_timers_complete. Qed.

Lemma nth_error_list_update {A} i j (f : A -> A) (l : list A) :
  nth_error (list_update i f l) j
  = if Nat.eqb i j then option_map f (nth_error l j) else nth_error l j.
Proof.
  revert i j. induction l as [|x l IH]; intros i j.
  - destruct i as [|i], j as [|j]; simpl; try reflexivity.
    now destruct (Nat.eqb i j).
  - destruct i as [|i], j as [|j]; simpl; try reflexivity. apply IH.
Qed.

Lemma update_session_chained sid f w :
  (forall s, continuation (f s) = continuation s) ->
  chained w -> chained (update_session sid f w).
Proof.
  intros Hf Hw i s p Hs Hc. unfold session, update_session in Hs. simpl in Hs.
  rewrite nth_error_list_update in Hs.
  destruct (Nat.eqb sid i).
  - destruct (nth_error (sessions w) i) as [s0|] eqn:H0; [|discriminate].
    injection Hs as <-. rewrite Hf in Hc. eapply Hw; eauto.
  - eapply Hw; eauto.
Qed.

(** More fuel than the position of the session changes nothing. *)
Lemma resolve_from_enough sid :
  forall w n, chained w ->
    resolve_from (S sid + n) sid w = resolve_from (S sid) sid w.
Proof.
  induction sid as [sid IH] using lt_wf_ind. intros w n Hw.
  simpl. destruct (session sid w) as [s|] eqn:Hs; [|reflexivity].
  destruct (promise s); try reflexivity.
  destruct (continuation s) as [p|] eqn:Hc; [|reflexivity].
  pose proof (Hw sid s p Hs Hc) as Hp.
  assert (Hw1 : chained (emit (Resolved sid)
                           (update_session sid (set_promise Fulfilled) w)))
    by (apply (update_session_chained sid (set_promise Fulfilled) w); auto).
  replace (sid + n)%nat with (S p + (sid + n - S p))%nat by lia.
  rewrite (IH p Hp _ _ Hw1).
  replace sid with (S p + (sid - S p))%nat at 3 by lia.
  now rewrite (IH p Hp _ _ Hw1).
Qed.

(** Every world of a run is [chained]: [resolve] never lacks fuel there. *)
Lemma run_chained tok fs ins t :
  chained (advance t (run ins (start tok fs))).
Proof.
  set (P := fun l : list Session =>
              forall i s p, nth_error l i = Some s ->
                            continuation s = Some p -> (p < i)%nat).
  assert (Hup : forall i f l, benign f -> P l -> P (list_update i f l)).
  { intros i f l Hf Hl j s p Hs Hc. rewrite nth_error_list_update in Hs.
    destruct (Nat.eqb i j); [|now apply (Hl j s p)].
    destruct (nth_error l j) as [s0|] eqn:H0; [|discriminate].
    injection Hs as <-. destruct (Hf s0) as [_ [_ [_ [Hk _]]]].
    rewrite Hk in Hc. now apply (Hl j s0 p). }
  assert (Hop : forall l tok0 fl bk k,
    P l -> match k with Some p => (p < length l)%nat | None => True end ->
    P (l ++ [mkSession tok0 fl bk false Pending k OPEN])).
  { intros l tok0 fl bk k Hl Hk i s p Hs Hc.
    destruct (Nat.lt_ge_cases i (length l)) as [Hi|Hi].
    - rewrite nth_error_app1 in Hs by exact Hi. now apply (Hl i s p).
    - rewrite nth_error_app2 in Hs by exact Hi.
      destruct (i - length l)%nat as [|n] eqn:Hd; simpl in Hs.
      + injection Hs as <-. simpl in Hc. subst k. lia.
      + now destruct n. }
  apply (advance_keeps P Hup Hop), (run_keeps P Hup Hop).
  intros [|[|i]] s p Hs Hc; simpl in Hs; try discriminate.
  injection Hs as <-. discriminate.
Qed.

End EventLoop.

(** ** The guard of a session that no frame decides *)
Section Guard.
Import Proto Sync.
Variable sid : nat.

Lemma opened_at_app tr l :
  opened_at sid (tr ++ l)
  = match opened_at sid tr with
    | Some t => Some t
    | None => opened_at sid l
    end.
Proof.
  induction tr as [|[t e] tr IH]; simpl; [reflexivity|].
  destruct e; try exact IH. destruct (Nat.eqb sid0 sid); [reflexivity|exact IH].
Qed.

Lemma opened_at_map {A} (g : A -> N * Effect) l :
  (forall x url, snd (g x) <> WsOpen sid url) ->
  opened_at sid (map g l) = None.
Proof.
  intros Hg. induction l as [|x l IH]; simpl; [reflexivity|].
  specialize (Hg x). destruct (g x) as [t e]. simpl in Hg.
  destruct e; try exact IH. destruct (Nat.eqb_spec sid0 sid) as [->|_];
    [now elim (Hg url)|exact IH].
Qed.

(** What leaves the clock, the sessions and the timers alone and adds
    no start of session [sid] to the trace keeps the session guarded. *)
Lemma guarded_frame w w' l :
  now w' = now w -> sessions w' = sessions w -> timers w' = timers w ->
  trace w' = trace w ++ l -> opened_at sid l = None ->
  guarded sid w -> guarded sid w'.
Proof.
  intros Hn Hs Ht Htr Hl [[Hwf1 Hwf2] Hph]. split.
  - split.
    + intros tm. rewrite Ht, Hs. apply Hwf1.
    + intros i s p. unfold session. rewrite Hs. apply Hwf2.
  - rewrite Htr, opened_at_app, Hl.
    destruct (opened_at sid (trace w)) as [t0|]; [|now rewrite Hs].
    destruct Hph as [[Hs0 [Hg [Hu [Hnow [Hr Hc]]]]]|[Hs0 [tr1 [tr2 Hp]]]].
    + left. unfold undecided, session. rewrite Hs, Ht, Hn. auto 10.
    + right. split; [unfold session; now rewrite Hs|].
      exists tr1, (tr2 ++ l). rewrite Htr, Hp, <- !app_assoc. reflexivity.
Qed.

Lemma guarded_emit e w :
  (forall url, e <> WsOpen sid url) ->
  guarded sid w -> guarded sid (emit e w).
Proof.
  intros He. apply (guarded_frame w (emit e w) [(now w, e)]); try reflexivity.
  simpl. destruct e; try reflexivity.
  destruct (Nat.eqb_spec sid0 sid) as [->|_]; [now elim (He url)|reflexivity].
Qed.

Lemma session_emit i e w : session i (emit e w) = session i w.
Proof. reflexivity. Qed.

Lemma session_update_same i f w s :
  session i w = Some s -> session i (update_session i f w) = Some (f s).
Proof.
  unfold session, update_session. simpl. intros H.
  now rewrite nth_error_list_update, Nat.eqb_refl, H.
Qed.

Lemma session_update_other i j f w :
  i <> j -> session j (update_session i f w) = session j w.
Proof.
  unfold session, update_session. simpl. intros H.
  rewrite nth_error_list_update.
  destruct (Nat.eqb_spec i j); [contradiction|reflexivity].
Qed.

Lemma session_update_inv i j f w s :
  session j (update_session i f w) = Some s ->
  exists s0, session j w = Some s0 /\ (s = s0 \/ (i = j /\ s = f s0)).
Proof.
  unfold session, update_session. simpl. rewrite nth_error_list_update.
  destruct (Nat.eqb_spec i j) as [->|Hne].
  - destruct (nth_error (sessions w) j) as [s0|]; [|discriminate].
    intros [= <-]. exists s0. auto.
  - intros H. exists s. auto.
Qed.

(** An update of another session, or one that keeps a session
    undecided. *)
Lemma guarded_update i f w :
  mild f ->
  (forall g, undecided sid g w ->
     i <> sid \/ forall s, finished (f s) = finished s
                           /\ promise (f s) = promise s) ->
  guarded sid w -> guarded sid (update_session i f w).
Proof.
  intros Hf Hi [[Hwf1 Hwf2] Hph]. split.
  - split.
    + intros tm Hin. simpl. rewrite length_list_update. now apply Hwf1.
    + intros j s p Hs Hc.
      destruct (session_update_inv _ _ _ _ _ Hs) as [s0 [Hs0 [->|[_ ->]]]].
      * now apply (Hwf2 j s0 p).
      * rewrite (proj1 (Hf s0)) in Hc. now apply (Hwf2 j s0 p).
  - change (trace (update_session i f w)) with (trace w).
    destruct (opened_at sid (trace w)) as [t0|];
      [|simpl; now rewrite length_list_update].
    destruct Hph as [Hun|[[s [Hs Hp]] Htr]].
    + left. pose proof (Hi _ Hun) as Hi'.
      destruct Hun as [[s [Hs [Hfin Hp]]] [Hg [Hu [Hnow [Hr Hc]]]]].
      split; [|split; [exact Hg|split; [exact Hu|split; [exact Hnow|
        split; [exact Hr|]]]]].
      * destruct (Nat.eq_dec i sid) as [->|Hne].
        -- destruct Hi' as [Hne|Hkeep]; [now elim Hne|].
           exists (f s). split; [now apply session_update_same|].
           destruct (Hkeep s) as [-> ->]. auto.
        -- exists s. split; [now rewrite session_update_other|auto].
      * intros j s' Hs' Hc'.
        destruct (session_update_inv _ _ _ _ _ Hs') as [s0 [Hs0 [->|[_ ->]]]].
        -- now apply (Hc j s0).
        -- rewrite (proj1 (Hf s0)) in Hc'. now apply (Hc j s0).
    + right. split; [|exact Htr].
      destruct (Nat.eq_dec i sid) as [->|Hne].
      * exists (f s). split; [now apply session_update_same|].
        now apply (proj2 (Hf s)).
      * exists s. split; [now rewrite session_update_other|exact Hp].
Qed.

Lemma mild_finished b : mild (set_finished b).
Proof. intros s. split; auto. Qed.

Lemma mild_readyState r : mild (set_readyState r).
Proof. intros s. split; auto. Qed.

Lemma mild_fulfilled : mild (set_promise Fulfilled).
Proof. intros s. split; auto. Qed.

Lemma mild_close :
  mild (fun s => match readyState s with
                 | OPEN => set_readyState CLOSING s
                 | _ => s
                 end).
Proof. intros s. destruct (readyState s); split; auto. Qed.

Lemma guarded_ws_close p w : guarded sid w -> guarded sid (ws_close p w).
Proof.
  intros H. unfold ws_close. apply guarded_emit; [discriminate|].
  apply guarded_update; [apply mild_close| |exact H].
  intros g _. right. intros s. destruct (readyState s); auto.
Qed.

Lemma guarded_setTimeout c ms w :
  (callback_session c < length (sessions w))%nat ->
  (forall g, undecided sid g w -> c <> CbGuard sid /\ c <> CbRetry sid) ->
  guarded sid w -> guarded sid (setTimeout c ms w).
Proof.
  intros Hc Hne [[Hwf1 Hwf2] Hph]. split.
  - split; [|exact Hwf2]. intros tm Hin. simpl in Hin.
    apply in_app_or in Hin. destruct Hin as [Hin|[<-|[]]]; [now apply Hwf1|].
    exact Hc.
  - change (trace (setTimeout c ms w)) with (trace w).
    destruct (opened_at sid (trace w)) as [t0|]; [|exact Hph].
    destruct Hph as [Hun|Hto]; [left|now right].
    destruct (Hne _ Hun) as [Hg' Hr'].
    destruct Hun as [Hs [Hg [Hu [Hnow [Hr Hcn]]]]].
    split; [exact Hs|]. split; [simpl; apply in_or_app; now left|].
    split; [|split; [exact Hnow|split; [|exact Hcn]]].
    + intros tm Hin Hcb. simpl in Hin. apply in_app_or in Hin.
      destruct Hin as [Hin|[<-|[]]]; [now apply Hu|]. now elim Hg'.
    + intros tm Hin. simpl in Hin. apply in_app_or in Hin.
      destruct Hin as [Hin|[<-|[]]]; [now apply Hr|exact Hr'].
Qed.

(** [resolve] of another session does not reach an undecided one. *)
Lemma guarded_resolve_from fuel :
  forall p w,
    (forall g, undecided sid g w -> p <> sid) ->
    guarded sid w -> guarded sid (resolve_from fuel p w).
Proof.
  induction fuel as [|fuel IH]; intros p w Hp H; simpl; [exact H|].
  destruct (session p w) as [s|] eqn:Hs; [|exact H].
  destruct (promise s) eqn:Hpr; try exact H.
  assert (H1 : guarded sid (emit (Resolved p)
                              (update_session p (set_promise Fulfilled) w))).
  { apply guarded_emit; [discriminate|].
    apply guarded_update; [apply mild_fulfilled| |exact H].
    intros g Hun. left. now apply (Hp g). }
  destruct (continuation s) as [q|] eqn:Hq; [|exact H1].
  apply IH; [|exact H1].
  intros g [_ [_ [_ [_ [_ Hc]]]]] ->.
  apply (Hc p (set_promise Fulfilled s)); [|exact Hq].
  rewrite session_emit. now apply session_update_same.
Qed.

Lemma guarded_onFiles p s listing w :
  session p w = Some s ->
  (forall g, undecided sid g w -> p <> sid) ->
  guarded sid w -> guarded sid (onFiles p s listing w).
Proof.
  intros Hs Hp H. unfold onFiles, resolve.
  assert (Hlen : (p < length (sessions w))%nat).
  { apply nth_error_Some. unfold session in Hs. rewrite Hs. discriminate. }
  set (w3 := send_writes p (files s)
               (prune p (files s) listing
                  (send_deletions p (Js.keys (read (files s) w)) listing w))).
  assert (H3 : guarded sid w3 /\ sessions w3 = sessions w
               /\ timers w3 = timers w /\ now w3 = now w).
  { unfold w3. rewrite send_writes_spec, prune_spec, send_deletions_spec.
    simpl. split; [|auto].
    match goal with
    | |- guarded sid (mkWorld _ _ _ _ (((trace w ++ ?a) ++ ?b) ++ ?c)) =>
        apply (guarded_frame w _ (a ++ b ++ c)); try reflexivity;
          [simpl; now rewrite <- !app_assoc| |exact H]
    end.
    rewrite !opened_at_app, !opened_at_map; try reflexivity;
      intros; discriminate. }
  destruct H3 as [H3 [Hs3 [Ht3 Hn3]]].
  assert (Hun3 : forall g, undecided sid g w3 -> undecided sid g w).
  { intros g. unfold undecided, session. now rewrite Hs3, Ht3, Hn3. }
  assert (H4 : guarded sid (setTimeout (CbClose p) 1000 w3)).
  { apply guarded_setTimeout; [simpl; now rewrite Hs3| |exact H3].
    intros g _. split; discriminate. }
  assert (H5 : guarded sid (update_session p (set_finished true)
                              (setTimeout (CbClose p) 1000 w3))).
  { apply guarded_update; [apply mild_finished| |exact H4].
    intros g Hun. left. apply (Hp g), Hun3.
    destruct Hun as [Hs' [Hg [Hu [Hnow [Hr Hc]]]]].
    split; [exact Hs'|]. split.
    - simpl in Hg. apply in_app_or in Hg.
      destruct Hg as [Hg|[[=]|[]]]. exact Hg.
    - split; [|split; [exact Hnow|split; [|exact Hc]]].
      + intros tm Hin. apply Hu. simpl. apply in_or_app. now left.
      + intros tm Hin. apply Hr. simpl. apply in_or_app. now left. }
  apply guarded_resolve_from; [|exact H5].
  intros g [[s' [Hs' [Hfin _]]] _] ->.
  unfold session in Hs'. simpl in Hs'. rewrite Hs3 in Hs'.
  rewrite nth_error_list_update, Nat.eqb_refl in Hs'.
  unfold session in Hs. rewrite Hs in Hs'. injection Hs' as <-.
  discriminate.
Qed.

(** A frame for another session, or one that does not decide: the
    session stays guarded. *)
Lemma guarded_onMessage p d w :
  (forall g, undecided sid g w -> p = sid -> decisive d = false) ->
  guarded sid w -> guarded sid (onMessage p d w).
Proof.
  intros Hd H. unfold onMessage.
  destruct (session p w) as [s|] eqn:Hs; [|exact H].
  assert (Hlen : (p < length (sessions w))%nat).
  { apply nth_error_Some. unfold session in Hs. rewrite Hs. discriminate. }
  destruct d as [m|]; [|exact H].
  destruct m as [ty v]. simpl in *. destruct ty.
  - apply guarded_emit; [discriminate|exact H].
  - assert (Hp : forall g, undecided sid g w -> p <> sid).
    { intros g Hun ->. specialize (Hd g Hun eq_refl). discriminate. }
    apply guarded_setTimeout.
    + simpl. now rewrite !length_list_update.
    + intros g Hun. split; [discriminate|]. intros [= ->].
      destruct Hun as [[s' [Hs' [Hfin _]]] _].
      unfold session in Hs'. simpl in Hs'.
      rewrite list_update_twice, nth_error_list_update, Nat.eqb_refl in Hs'.
      unfold session in Hs. rewrite Hs in Hs'. injection Hs' as <-.
      destruct (readyState s); discriminate.
    + apply guarded_ws_close.
      apply guarded_update; [apply mild_finished| |].
      * intros g Hun. left. apply (Hp g).
        destruct Hun as [Hs' Hrest]. split; [exact Hs'|exact Hrest].
      * apply guarded_emit; [discriminate|exact H].
  - destruct v as [listing|]; [|exact H].
    apply guarded_onFiles; [exact Hs| |exact H].
    intros g Hun ->. specialize (Hd g Hun eq_refl). discriminate.
  - exact H.
Qed.

Lemma uploadFiles_world tok fl k w :
  uploadFiles tok fl k w =
  mkWorld (now w) (heap w ++ [Js.spread (read fl w)])
    (sessions w ++ [mkSession tok fl (length (heap w)) false Pending k OPEN])
    (timers w ++ [mkTimer (now w + 10000) (CbGuard (length (sessions w)))])
    (trace w ++ [(now w, WsOpen (length (sessions w))
                           ("wss://cratecode.com/control/" ++ tok)%string)]).
Proof. reflexivity. Qed.

(** A retry of another session opens a session; if it is [sid], the
    session starts undecided. *)
Lemma guarded_uploadFiles tok fl p w :
  (p < length (sessions w))%nat ->
  (forall g, undecided sid g w -> p <> sid) ->
  guarded sid w -> guarded sid (uploadFiles tok fl (Some p) w).
Proof.
  intros Hp Hne [[Hwf1 Hwf2] Hph]. rewrite uploadFiles_world.
  set (n := length (sessions w)) in *.
  set (snew := mkSession tok fl (length (heap w)) false Pending (Some p) OPEN).
  set (url := ("wss://cratecode.com/control/" ++ tok)%string).
  assert (Hsess : forall i s,
    nth_error (sessions w ++ [snew]) i = Some s ->
    (nth_error (sessions w) i = Some s /\ (i < n)%nat) \/ (i = n /\ s = snew)).
  { intros i s Hs. destruct (Nat.lt_ge_cases i n) as [Hi|Hi].
    - rewrite nth_error_app1 in Hs by exact Hi. auto.
    - rewrite nth_error_app2 in Hs by exact Hi. fold n in Hs.
      destruct (i - n)%nat as [|k] eqn:Hk; simpl in Hs.
      + injection Hs as <-. right. split; [lia|reflexivity].
      + now destruct k. }
  assert (Htimers : forall tm,
    In tm (timers w ++ [mkTimer (now w + 10000) (CbGuard n)]) ->
    In tm (timers w) \/ tm = mkTimer (now w + 10000) (CbGuard n)).
  { intros tm Hin. apply in_app_or in Hin.
    destruct Hin as [Hin|[<-|[]]]; auto. }
  split.
  - split.
    + intros tm Hin. cbn [timers sessions] in *. rewrite length_app.
      cbn [length]. fold n.
      destruct (Htimers tm Hin) as [Hin'| ->].
      * specialize (Hwf1 tm Hin'). lia.
      * cbn [callback callback_session]. lia.
    + intros i s q Hs Hc. unfold session in Hs. cbn [sessions] in Hs.
      destruct (Hsess i s Hs) as [[Hs0 _]|[-> ->]].
      * now apply (Hwf2 i s q).
      * cbn [continuation snew] in Hc. injection Hc as <-. exact Hp.
  - cbn [trace]. rewrite opened_at_app. cbn [opened_at].
    destruct (opened_at sid (trace w)) as [t0|] eqn:Hop.
    + destruct Hph as [Hun|[[s [Hs Hpr]] Htr]].
      * left. pose proof (Hne _ Hun) as Hpne.
        destruct Hun as [[s [Hs [Hfin Hpr]]] [Hg [Hu [Hnow [Hr Hc]]]]].
        assert (Hsid : (sid < n)%nat).
        { apply nth_error_Some. unfold session in Hs. rewrite Hs.
          discriminate. }
        split.
        { exists s. unfold session. cbn [sessions].
          rewrite nth_error_app1 by exact Hsid. auto. }
        split; [cbn [timers]; apply in_or_app; now left|].
        split.
        { intros tm Hin Hcb. cbn [timers] in Hin.
          destruct (Htimers tm Hin) as [Hin'| ->]; [now apply Hu|].
          cbn [callback] in Hcb. injection Hcb as Hcb. lia. }
        split; [exact Hnow|]. split.
        { intros tm Hin. cbn [timers] in Hin.
          destruct (Htimers tm Hin) as [Hin'| ->];
            [now apply Hr|discriminate]. }
        intros i s' Hs' Hc'. unfold session in Hs'. cbn [sessions] in Hs'.
        destruct (Hsess i s' Hs') as [[Hs0 _]|[-> ->]].
        -- now apply (Hc i s').
        -- cbn [continuation snew] in Hc'. injection Hc' as ->.
           now elim Hpne.
      * right. split.
        { exists s. unfold session. cbn [sessions]. unfold session in Hs.
          rewrite nth_error_app1; [auto|].
          apply nth_error_Some. rewrite Hs. discriminate. }
        destruct Htr as [tr1 [tr2 Htr]].
        exists tr1, (tr2 ++ [(now w, WsOpen n url)]).
        cbn [trace]. rewrite Htr, <- !app_assoc. reflexivity.
    + destruct (Nat.eqb_spec n sid) as [Hn|Hn].
      * left. split.
        { exists snew. unfold session. cbn [sessions].
          rewrite nth_error_app2 by (fold n; lia). fold n. rewrite <- Hn.
          rewrite Nat.sub_diag. auto. }
        split; [cbn [timers]; apply in_or_app; right; left; now rewrite Hn|].
        split.
        { intros tm Hin Hcb. cbn [timers] in Hin.
          destruct (Htimers tm Hin) as [Hin'| ->]; [|reflexivity].
          specialize (Hwf1 tm Hin'). rewrite Hcb in Hwf1.
          cbn [callback_session] in Hwf1. lia. }
        split; [cbn [now]; lia|]. split.
        { intros tm Hin Hcb. cbn [timers] in Hin.
          destruct (Htimers tm Hin) as [Hin'| ->]; [|discriminate].
          specialize (Hwf1 tm Hin'). rewrite Hcb in Hwf1.
          cbn [callback_session] in Hwf1. lia. }
        intros i s' Hs' Hc'. unfold session in Hs'. cbn [sessions] in Hs'.
        destruct (Hsess i s' Hs') as [[Hs0 Hi]|[-> ->]].
        -- assert (sid < i)%nat by (apply (Hwf2 i s' sid Hs0 Hc')). lia.
        -- cbn [continuation snew] in Hc'. injection Hc' as ->. lia.
      * cbn [sessions]. rewrite length_app. cbn [length]. fold n. lia.
Qed.

(** A callback of another session, or the close of this one. *)
Lemma guarded_fire c w :
  (callback_session c < length (sessions w))%nat ->
  (forall g, undecided sid g w -> c <> CbGuard sid /\ c <> CbRetry sid) ->
  guarded sid w -> guarded sid (fire c w).
Proof.
  intros Hc Hne H. destruct c as [p|p|p]; simpl in *.
  - destruct (session p w) as [s|] eqn:Hs; [|exact H].
    apply guarded_uploadFiles; [exact Hc| |exact H].
    intros g Hun ->. now elim (proj2 (Hne g Hun)).
  - now apply guarded_ws_close.
  - destruct (session p w) as [s|] eqn:Hs; [|exact H].
    destruct (finished s); [exact H|].
    unfold resolve. apply guarded_resolve_from.
    + intros g Hun ->.
      assert (Hun0 : undecided sid g w)
        by (destruct Hun as [Hs' Hrest]; split; [exact Hs'|exact Hrest]).
      now elim (proj1 (Hne g Hun0)).
    + apply guarded_emit; [discriminate|exact H].
Qed.

Lemma pick_facts ts tm rest :
  pick ts = Some (tm, rest) ->
  (forall x, In x ts <-> x = tm \/ In x rest)
  /\ (forall x, In x ts -> (due tm <= due x)%N).
Proof.
  revert tm rest. induction ts as [|t ts IH]; intros tm rest; simpl.
  - discriminate.
  - destruct (pick ts) as [[m r]|] eqn:Hp.
    + destruct (IH m r eq_refl) as [Hin Hmin].
      destruct (N.leb_spec (due t) (due m)) as [Hle|Hgt];
        intros [= <- <-]; split.
      * intros x. simpl. split; intros [->|Hx]; auto.
      * intros x [->|Hx]; [lia|]. specialize (Hmin x Hx). lia.
      * intros x. simpl. rewrite Hin. tauto.
      * intros x [->|Hx]; [lia|]. now apply Hmin.
    + intros [= <- <-]. apply pick_none in Hp. subst ts. split.
      * intros x. simpl. split; intros [->|[]]; auto.
      * intros x [->|[]]. lia.
Qed.

(** [resolve] fulfils a pending promise, there and then. *)
Lemma resolve_pending p w s :
  session p w = Some s -> promise s = Pending ->
  exists w1 l,
    resolve p w = w1
    /\ trace w1 = trace w ++ (now w, Resolved p) :: l
    /\ (exists s', session p w1 = Some s' /\ promise s' = Fulfilled)
    /\ timers w1 = timers w /\ length (sessions w1) = length (sessions w)
    /\ (forall i s1 q, session i w1 = Some s1 -> continuation s1 = Some q ->
          exists s0, session i w = Some s0 /\ continuation s0 = Some q).
Proof.
  intros Hs Hp. unfold resolve. simpl. rewrite Hs, Hp.
  set (w0 := emit (Resolved p) (update_session p (set_promise Fulfilled) w)).
  assert (Hgen : forall fuel q w2,
    (exists s', session p w2 = Some s' /\ promise s' = Fulfilled) ->
    exists l,
      trace (resolve_from fuel q w2) = trace w2 ++ l
      /\ (exists s', session p (resolve_from fuel q w2) = Some s'
                     /\ promise s' = Fulfilled)
      /\ timers (resolve_from fuel q w2) = timers w2
      /\ length (sessions (resolve_from fuel q w2)) = length (sessions w2)
      /\ (forall i s1 r, session i (resolve_from fuel q w2) = Some s1 ->
            continuation s1 = Some r ->
            exists s0, session i w2 = Some s0 /\ continuation s0 = Some r)).
  { induction fuel as [|fuel IH]; intros q w2 Hful; simpl.
    - exists []. rewrite app_nil_r. eauto 10.
    - destruct (session q w2) as [sq|] eqn:Hq;
        [|exists []; rewrite app_nil_r; eauto 10].
      destruct (promise sq) eqn:Hpq;
        try solve [exists []; rewrite app_nil_r; eauto 10].
      set (w3 := emit (Resolved q)
                   (update_session q (set_promise Fulfilled) w2)).
      assert (Hful3 : exists s', session p w3 = Some s'
                                 /\ promise s' = Fulfilled).
      { destruct Hful as [s' [Hs' Hp']].
        destruct (Nat.eq_dec q p) as [->|Hne].
        - exists (set_promise Fulfilled s'). split; [|reflexivity].
          unfold w3. rewrite session_emit.
          now apply session_update_same.
        - exists s'. split; [|exact Hp'].
          unfold w3. rewrite session_emit.
          now rewrite session_update_other. }
      assert (Hc3 : forall i s1 r, session i w3 = Some s1 ->
                continuation s1 = Some r ->
                exists s0, session i w2 = Some s0 /\ continuation s0 = Some r).
      { intros i s1 r Hs1 Hc1. unfold w3 in Hs1.
        rewrite session_emit in Hs1.
        destruct (session_update_inv q i (set_promise Fulfilled) w2 s1 Hs1)
          as [s0 [Hs0 [->|[_ ->]]]]; exists s0; auto. }
      destruct (continuation sq) as [r|].
      + destruct (IH r w3 Hful3) as [l [Ht [Hf [Htm [Hlen Hc]]]]].
        exists ((now w2, Resolved q) :: l).
        split; [rewrite Ht; unfold w3; simpl; now rewrite <- app_assoc|].
        split; [exact Hf|]. split; [exact Htm|]. split.
        * rewrite Hlen. unfold w3. simpl. apply length_list_update.
        * intros i s1 r' Hs1 Hc1.
          destruct (Hc i s1 r' Hs1 Hc1) as [s0 [Hs0 Hc0]].
          now apply (Hc3 i s0 r').
      + exists [(now w2, Resolved q)]. split; [reflexivity|].
        split; [exact Hful3|]. split; [reflexivity|]. split.
        * unfold w3. simpl. apply length_list_update.
        * exact Hc3. }
  assert (Hful0 : exists s', session p w0 = Some s' /\ promise s' = Fulfilled).
  { exists (set_promise Fulfilled s). split; [|reflexivity].
    unfold w0. rewrite session_emit. now apply session_update_same. }
  assert (Hc0 : forall i s1 r, session i w0 = Some s1 ->
            continuation s1 = Some r ->
            exists s0, session i w = Some s0 /\ continuation s0 = Some r).
  { intros i s1 r Hs1 Hc1. unfold w0 in Hs1. rewrite session_emit in Hs1.
    destruct (session_update_inv p i (set_promise Fulfilled) w s1 Hs1)
      as [s0 [Hs0 [->|[_ ->]]]]; exists s0; auto. }
  destruct (continuation s) as [q|].
  - destruct (Hgen p q w0 Hful0) as [l [Ht [Hf [Htm [Hlen Hc]]]]].
    eexists _, l. split; [reflexivity|].
    split; [rewrite Ht; unfold w0; simpl; now rewrite <- app_assoc|].
    split; [exact Hf|]. split; [exact Htm|]. split.
    + rewrite Hlen. unfold w0. simpl. apply length_list_update.
    + intros i s1 r Hs1 Hc1.
      destruct (Hc i s1 r Hs1 Hc1) as [s0 [Hs0 Hc0']].
      now apply (Hc0 i s0 r).
  - eexists _, []. split; [reflexivity|]. split; [reflexivity|].
    split; [exact Hful0|]. split; [reflexivity|]. split.
    + unfold w0. simpl. apply length_list_update.
    + exact Hc0.
Qed.

(** The timer that is due next fires: the session stays guarded; when
    the timer is the guard of the undecided session, the session times
    out. *)
Lemma guarded_fire_picked w tm rest :
  pick (timers w) = Some (tm, rest) ->
  guarded sid w ->
  guarded sid (fire (callback tm)
                 (set_now (N.max (now w) (due tm)) (set_timers rest w))).
Proof.
  intros Hpick H. destruct (pick_facts _ _ _ Hpick) as [Hin Hmin].
  set (w1 := set_now (N.max (now w) (due tm)) (set_timers rest w)).
  destruct H as [[Hwf1 Hwf2] Hph].
  assert (Htm : (callback_session (callback tm) < length (sessions w1))%nat).
  { apply Hwf1, Hin. now left. }
  assert (Hwf : well_formed w1).
  { split; [|exact Hwf2]. intros x Hx. apply Hwf1, Hin. now right. }
  destruct (opened_at sid (trace w)) as [t0|] eqn:Hop.
  2:{ apply guarded_fire; [exact Htm| |].
      - intros g [[s [Hs _]] _]. exfalso.
        assert (sid < length (sessions w))%nat; [|lia].
        apply nth_error_Some. unfold session in Hs. simpl in Hs.
        rewrite Hs. discriminate.
      - split; [exact Hwf|]. change (trace w1) with (trace w).
        now rewrite Hop. }
  destruct Hph as [Hun|Hto].
  2:{ apply guarded_fire; [exact Htm| |].
      - intros g [[s [Hs [_ Hp]]] _]. exfalso.
        destruct Hto as [[s' [Hs' Hp']] _]. unfold session in *.
        simpl in Hs. rewrite Hs' in Hs. injection Hs as <-. congruence.
      - split; [exact Hwf|]. change (trace w1) with (trace w).
        rewrite Hop. now right. }
  destruct Hun as [[s [Hs [Hfin Hp]]] [Hg [Hu [Hnow [Hr Hc]]]]].
  set (g := (t0 + 10000)%N) in *.
  assert (Hdue : (due tm <= g)%N) by (apply (Hmin _ Hg)).
  destruct (callback tm) as [p|p|p] eqn:Hcb.
  3: destruct (Nat.eq_dec p sid) as [->|Hne].
  3:{ (* the guard of the session *)
      pose proof (Hu tm (proj2 (Hin tm) (or_introl eq_refl)) Hcb) as Hdg.
      simpl. change (session sid w1) with (session sid w). rewrite Hs, Hfin.
      set (w2 := emit (Warn "Timed out waiting for websocket to close.") w1).
      destruct (resolve_pending sid w2 s) as
        [w3 [l [Hw3 [Ht3 [Hf3 [Htm3 [Hlen3 Hc3]]]]]]]; [exact Hs|exact Hp|].
      rewrite Hw3. split.
      - split.
        + intros x Hx. rewrite Htm3 in Hx. rewrite Hlen3.
          apply Hwf1, Hin. now right.
        + intros i s1 q Hs1 Hc1.
          destruct (Hc3 i s1 q Hs1 Hc1) as [s0 [Hs0 Hc0]].
          now apply (Hwf2 i s0 q).
      - rewrite Ht3. unfold w2. simpl.
        rewrite !opened_at_app, Hop. right. split; [exact Hf3|].
        exists (trace w), l. fold g. rewrite Ht3. unfold w2. simpl.
        replace (N.max (now w) (due tm)) with g by lia.
        rewrite <- app_assoc. reflexivity. }
  all: assert (Hun1 : undecided sid g w1);
    [split; [exists s; auto|];
     assert (Hother : forall x, In x (timers w) -> x <> tm -> In x rest)
       by (intros x Hx Hxt; apply Hin in Hx; destruct Hx; [contradiction|auto]);
     split; [apply Hother; [exact Hg|intros <-; simpl in Hcb; congruence]|];
     split; [intros x Hx; apply Hu, Hin; now right|];
     split; [simpl; lia|];
     split; [intros x Hx; apply Hr, Hin; now right|exact Hc]
    |].
  all: assert (Hg1 : guarded sid w1)
    by (split; [exact Hwf|]; change (trace w1) with (trace w);
        rewrite Hop; now left).
  - apply guarded_fire; [exact Htm| |exact Hg1].
    intros g' _. split; [discriminate|].
    intros [= ->]. apply (Hr tm); [apply Hin; now left|exact Hcb].
  - apply guarded_fire; [exact Htm| |exact Hg1].
    intros g' _. split; discriminate.
  - apply guarded_fire; [exact Htm| |exact Hg1].
    intros g' _. split; [|discriminate].
    intros [= ->]. now elim Hne.
Qed.

Lemma guarded_run_timers fuel t w :
  guarded sid w -> guarded sid (run_timers fuel t w).
Proof.
  revert w. induction fuel as [|fuel IH]; intros w H; simpl; [exact H|].
  destruct (pick (timers w)) as [[tm rest]|] eqn:Hp; [|exact H].
  destruct (due tm <=? t)%N; [|exact H].
  apply IH. now apply guarded_fire_picked.
Qed.

(** When the clock has reached [t], an undecided session has its guard
    still ahead. *)
Lemma guarded_advance t w :
  guarded sid w ->
  guarded sid (advance t w)
  /\ forall g, undecided sid g (advance t w) -> (t < g)%N.
Proof.
  intros H. unfold advance.
  set (w1 := run_timers (total_weight (timers w)) t w).
  assert (H1 : guarded sid w1) by now apply guarded_run_timers.
  assert (Hlate : forall g, In (mkTimer g (CbGuard sid)) (timers w1) ->
                            (t < g)%N).
  { intros g Hg.
    pose proof (run_timers_complete (total_weight (timers w)) t w
                  (Nat.le_refl _)) as Hc. fold w1 in Hc.
    destruct (pick (timers w1)) as [[tm rest]|] eqn:Hp.
    - destruct (pick_facts _ _ _ Hp) as [_ Hmin].
      specialize (Hmin _ Hg). simpl in Hmin. lia.
    - apply pick_none in Hp. rewrite Hp in Hg. destruct Hg. }
  split.
  - destruct H1 as [Hwf Hph]. split; [exact Hwf|].
    change (trace (set_now (N.max (now w1) t) w1)) with (trace w1).
    destruct (opened_at sid (trace w1)) as [t0|]; [|exact Hph].
    destruct Hph as [Hun|Hto]; [left|now right].
    destruct Hun as [Hs [Hg [Hu [Hnow [Hr Hc]]]]].
    split; [exact Hs|]. split; [exact Hg|]. split; [exact Hu|].
    split; [|split; [exact Hr|exact Hc]].
    simpl. specialize (Hlate _ Hg). lia.
  - intros g [_ [Hg _]]. now apply Hlate.
Qed.

Lemma guarded_step i w :
  (forall g d, undecided sid g (advance (fst i) w) ->
               snd i = Message sid d -> decisive d = false) ->
  guarded sid w -> guarded sid (step i w).
Proof.
  intros Hd H. unfold step.
  destruct (guarded_advance (fst i) w H) as [Ha _].
  destruct (snd i) as [p d|p] eqn:Hi.
  - destruct (session p (advance (fst i) w)) as [s|]; [|exact Ha].
    destruct (readyState s); try exact Ha;
      (apply guarded_onMessage; [|exact Ha]);
      intros g Hun ->; now apply (Hd g d).
  - apply guarded_update; [apply mild_readyState| |exact Ha].
    intros g _. right. auto.
Qed.

(** The trace of a run only grows. *)
Lemma resolve_from_trace fuel p w :
  exists l, trace (resolve_from fuel p w) = trace w ++ l.
Proof.
  destruct (resolve_from_spec fuel p w) as [ss [rs Heq]].
  rewrite Heq. simpl. eauto.
Qed.

Lemma onMessage_trace p d w :
  exists l, trace (onMessage p d w) = trace w ++ l.
Proof.
  unfold onMessage.
  destruct (session p w) as [s|]; [|exists []; now rewrite app_nil_r].
  destruct d as [m|]; [|exists []; now rewrite app_nil_r].
  destruct (type m).
  - eexists. reflexivity.
  - eexists. simpl. rewrite <- app_assoc. reflexivity.
  - destruct (value m) as [listing|]; [|exists []; now rewrite app_nil_r].
    unfold onFiles, resolve.
    match goal with |- context [resolve_from ?f ?q ?x] =>
      destruct (resolve_from_trace f q x) as [l Hl]; rewrite Hl end.
    simpl. rewrite send_writes_spec, prune_spec, send_deletions_spec. simpl.
    eexists. rewrite <- !app_assoc. reflexivity.
  - exists []. now rewrite app_nil_r.
Qed.

Lemma fire_trace c w : exists l, trace (fire c w) = trace w ++ l.
Proof.
  destruct c as [p|p|p]; simpl.
  - destruct (session p w); [|exists []; now rewrite app_nil_r].
    eexists. reflexivity.
  - eexists. reflexivity.
  - destruct (session p w) as [s|]; [|exists []; now rewrite app_nil_r].
    destruct (finished s); [exists []; now rewrite app_nil_r|].
    unfold resolve.
    match goal with |- context [resolve_from ?f ?q ?x] =>
      destruct (resolve_from_trace f q x) as [l Hl]; rewrite Hl end.
    simpl. eexists. rewrite <- app_assoc. reflexivity.
Qed.

Lemma run_timers_trace fuel t w :
  exists l, trace (run_timers fuel t w) = trace w ++ l.
Proof.
  revert w. induction fuel as [|fuel IH]; intros w; simpl;
    [exists []; now rewrite app_nil_r|].
  destruct (pick (timers w)) as [[tm rest]|];
    [|exists []; now rewrite app_nil_r].
  destruct (due tm <=? t)%N; [|exists []; now rewrite app_nil_r].
  match goal with |- context [run_timers fuel t ?x] =>
    destruct (IH x) as [l Hl]; rewrite Hl end.
  match goal with |- context [fire ?c ?x] =>
    destruct (fire_trace c x) as [l' Hl']; rewrite Hl' end.
  simpl. eexists. rewrite <- app_assoc. reflexivity.
Qed.

Lemma advance_trace t w : exists l, trace (advance t w) = trace w ++ l.
Proof. unfold advance. simpl. apply run_timers_trace. Qed.

Lemma step_trace i w :
  exists l, trace (step i w) = trace (advance (fst i) w) ++ l.
Proof.
  unfold step. destruct (snd i) as [p d|p].
  - destruct (session p (advance (fst i) w)) as [s|];
      [|exists []; now rewrite app_nil_r].
    destruct (readyState s); try apply onMessage_trace.
    exists []. now rewrite app_nil_r.
  - exists []. now rewrite app_nil_r.
Qed.

Lemma run_trace ins w : exists l, trace (run ins w) = trace w ++ l.
Proof.
  revert w. induction ins as [|i ins IH]; intros w; simpl;
    [exists []; now rewrite app_nil_r|].
  destruct (IH (step i w)) as [l Hl]. rewrite Hl.
  destruct (step_trace i w) as [l1 Hl1]. rewrite Hl1.
  destruct (advance_trace (fst i) w) as [l2 Hl2]. rewrite Hl2.
  eexists. rewrite <- !app_assoc. reflexivity.
Qed.

(** The frames that reach session [sid] before its guard is due decide
    nothing: the session stays guarded through the run.  The start [t0]
    is read in any later trace [tr]. *)
Lemma guarded_run ins :
  forall w t0 tr,
    (exists l, tr = trace (run ins w) ++ l) ->
    opened_at sid tr = Some t0 ->
    (forall t d, In (t, Message sid d) ins -> (t < t0 + 10000)%N ->
                 decisive d = false) ->
    guarded sid w -> guarded sid (run ins w).
Proof.
  induction ins as [|i ins IH]; intros w t0 tr Htr Hop Hd H; simpl;
    [exact H|].
  simpl in Htr. apply (IH (step i w) t0 tr Htr Hop).
  - intros t d Hin. apply Hd. now right.
  - apply guarded_step; [|exact H].
    intros g d Hun Hi.
    destruct (guarded_advance (fst i) w H) as [[_ Hph] Hlate].
    pose proof (Hlate g Hun) as Ht.
    destruct (opened_at sid (trace (advance (fst i) w))) as [t1|] eqn:Hop1.
    + assert (Heq : t1 = t0).
      { assert (Hst : opened_at sid tr = Some t1).
        { destruct Htr as [l0 ->].
          destruct (run_trace ins (step i w)) as [l Hl].
          destruct (step_trace i w) as [l1 Hl1].
          rewrite Hl, Hl1, <- !app_assoc, opened_at_app, Hop1.
          reflexivity. }
        congruence. }
      subst t1.
      assert (Hg : g = (t0 + 10000)%N).
      { destruct Hph as [Hun0|[[s' [Hs' Hp']] _]].
        - destruct Hun as [_ [Hg _]].
          destruct Hun0 as [_ [_ [Hu _]]].
          now apply (Hu _ Hg).
        - destruct Hun as [[s [Hs [_ Hp]]] _].
          rewrite Hs' in Hs. injection Hs as <-. congruence. }
      apply (Hd (fst i) d); [left|lia].
      destruct i as [t x]. simpl in *. now subst x.
    + exfalso. destruct Hun as [[s [Hs _]] _].
      assert (sid < length (sessions (advance (fst i) w)))%nat; [|lia].
      apply nth_error_Some. unfold session in Hs. rewrite Hs. discriminate.
Qed.

Lemma guarded_start tok fs : guarded sid (start tok fs).
Proof.
  unfold start, uploadFiles. simpl. split.
  - split.
    + intros tm [<-|[]]. simpl. lia.
    + intros [|[|i]] s p Hs Hc; simpl in Hs; try discriminate.
      injection Hs as <-. discriminate.
  - simpl. destruct sid as [|n]; [|simpl; lia].
    left. split; [eexists; unfold session; simpl; eauto|].
    split; [now left|]. split; [intros tm [<-|[]] _; reflexivity|].
    split; [simpl; lia|]. split.
    + intros tm [<-|[]]. discriminate.
    + intros [|[|i]] s Hs; unfold session in Hs; simpl in Hs;
        try discriminate. injection Hs as <-. discriminate.
Qed.

End Guard.

(** ** The timeout guard and the messages the session ignores *)
Section SessionOutcome.
Import Proto Sync.





End SessionOutcome.

(** ** The comparison of the second loop *)
Section Comparison.
Import Proto Sync.

Lemma string_of_N_length n : (1 <= String.length (Js.string_of_N n))%nat.
Proof.
  unfold Js.string_of_N. destruct n as [|p]; simpl; [lia|].
  pose proof (DecimalPos.Unsigned.to_uint_nonnil p) as Hnn.
  destruct (Pos.to_uint p); simpl; try lia. congruence.
Qed.

Lemma append_length (a b : string) :
  String.length (a ++ b)%string = (String.length a + String.length b)%nat.
Proof. induction a as [|c a IH]; simpl; [reflexivity|now rewrite IH]. Qed.

Lemma toString_length b bs :
  (1 + 2 * length bs <= String.length (Js.Uint8Array_toString (b :: bs)))%nat.
Proof.
  unfold Js.Uint8Array_toString, Js.join. revert b.
  induction bs as [|b' bs IH]; intros b.
  - simpl. apply string_of_N_length.
  - change (map Js.string_of_N (b :: b' :: bs))
      with (Js.string_of_N b :: map Js.string_of_N (b' :: bs)).
    specialize (IH b').
    change (String.concat "," (Js.string_of_N b :: map Js.string_of_N (b' :: bs)))
      with (Js.string_of_N b ++ "," ++ String.concat "," (map Js.string_of_N (b' :: bs)))%string.
    rewrite !append_length.
    pose proof (string_of_N_length b). simpl String.length at 2.
    simpl length. lia.
Qed.

Lemma encode_length c :
  (String.length c <= length (Js.TextEncoder_encode c))%nat.
Proof.
  induction c as [|a c IH]; simpl; [lia|].
  rewrite length_app. unfold Js.utf8_of_char.
  destruct (N_of_ascii a <? 128)%N; simpl; lia.
Qed.

Lemma single_char_differs a :
  Js.Uint8Array_toString (Js.TextEncoder_encode (String a "")) <> String a "".
Proof.
  destruct a as [[] [] [] [] [] [] [] []]; vm_compute; discriminate.
Qed.

(** The decimal rendering of the bytes of a text is never that text,
    unless the text is empty: the comparison of the second loop fails for
    every non-empty file that is the same on both sides. *)
Lemma same_text_is_not_recognised c :
  c <> "" ->
  strict_eq (Some c)
    (option_map Js.Uint8Array_toString (Some (Js.TextEncoder_encode c)))
  = false.
Proof.
  intros Hc. simpl. apply String.eqb_neq. intros Heq.
  destruct c as [|a [|a' c]]; [congruence| |].
  - symmetry in Heq. now apply single_char_differs in Heq.
  - apply (f_equal String.length) in Heq.
    pose proof (encode_length (String a (String a' c))) as Hlen.
    destruct (Js.TextEncoder_encode (String a (String a' c))) as [|b bs] eqn:He.
    + simpl in Hlen. lia.
    + pose proof (toString_length b bs) as Hts.
      simpl String.length in Heq, Hlen. simpl length in Hlen. lia.
Qed.

(** C1, what the code does on the example of the claim.  With the remote
    listing [{x: "old", y: "same"}] and the desired set
    [{y: "same", z: "new"}] the session sends [DeleteFile(x)], then
    [SetFile(y, "same")] and [SetFile(z, "new")]: [y] is not pruned, its
    text ["same"] is compared with ["115,97,109,101"]. *)
Theorem C1_unchanged_file_is_sent_again :
  let w := run [(10%N, Message 0 (ArrayBuffer (mkOut Initialized None)));
                (20%N, Message 0 (ArrayBuffer
                                    (mkOut Files (Some remote_example))))]
             (start "token" desired_example) in
  sent 0 w = [GetFiles; DeleteFile "x";
              SetFile "y" (Js.TextEncoder_encode "same");
              SetFile "z" (Js.TextEncoder_encode "new")]
  /\ read 0 w = desired_example
  /\ Js.Uint8Array_toString (Js.TextEncoder_encode "same") = "115,97,109,101".
Proof. vm_compute. repeat split. Qed.

End Comparison.

(** ** The first retry of a session *)
Section FirstRetry.
Import Proto Sync.

(** Sessions are opened, never removed. *)
Lemma run_timers_opened n fuel t w :
  (n <= length (sessions w))%nat ->
  (n <= length (sessions (run_timers fuel t w)))%nat.
Proof.
  apply (run_timers_keeps (fun l => (n <= length l)%nat)).
  - intros i f l _ H. now rewrite length_list_update.
  - intros l tok fl bk k H _. rewrite length_app. simpl. lia.
Qed.

Lemma step_opened n i w :
  (n <= length (sessions w))%nat -> (n <= length (sessions (step i w)))%nat.
Proof.
  apply (step_keeps (fun l => (n <= length l)%nat)).
  - intros j f l _ H. now rewrite length_list_update.
  - intros l tok fl bk k H _. rewrite length_app. simpl. lia.
Qed.

Lemma run_opened n ins w :
  (n <= length (sessions w))%nat -> (n <= length (sessions (run ins w)))%nat.
Proof.
  apply (run_keeps (fun l => (n <= length l)%nat)).
  - intros j f l _ H. now rewrite length_list_update.
  - intros l tok fl bk k H _. rewrite length_app. simpl. lia.
Qed.

(** What does not touch the sessions or the heap keeps [single]. *)
Lemma single_frame tok fs w w' :
  sessions w' = sessions w -> heap w' = heap w ->
  single tok fs w -> single tok fs w'.
Proof.
  intros Hs Hh [s [f0 H]]. exists s, f0. now rewrite Hs, Hh.
Qed.

Lemma single_update tok fs sid f w :
  benign f -> single tok fs w -> single tok fs (update_session sid f w).
Proof.
  intros Hf [s [f0 [Hs [Ht [Hfl [Hb Hh]]]]]].
  destruct (Hf s) as [Hf1 [Hf2 [Hf3 _]]].
  unfold update_session. simpl. rewrite Hs.
  destruct sid as [|sid]; simpl.
  - exists (f s), f0. repeat split; simpl; congruence.
  - exists s, f0. destruct sid; repeat split; auto.
Qed.

Lemma single_resolve_from tok fs fuel sid w :
  single tok fs w -> single tok fs (resolve_from fuel sid w).
Proof.
  revert sid w. induction fuel as [|fuel IH]; intros sid w H; simpl; auto.
  destruct (session sid w) as [s|]; auto.
  destruct (promise s); auto.
  assert (H1 : single tok fs (emit (Resolved sid)
                                (update_session sid (set_promise Fulfilled) w))).
  { apply (single_frame tok fs (update_session sid (set_promise Fulfilled) w));
      [reflexivity|reflexivity|].
    apply single_update; [apply benign_fulfilled|exact H]. }
  destruct (continuation s); auto.
Qed.

Lemma single_ws_close tok fs sid w :
  single tok fs w -> single tok fs (ws_close sid w).
Proof.
  intros H. unfold ws_close.
  eapply single_frame; [reflexivity|reflexivity|].
  apply single_update; [apply benign_close|exact H].
Qed.

Lemma single_onMessage tok fs sid d w :
  single tok fs w -> single tok fs (onMessage sid d w).
Proof.
  intros H. unfold onMessage.
  destruct (session sid w) as [s|] eqn:Hs; auto.
  destruct d as [m|]; auto.
  destruct (type m); auto.
  - eapply single_frame; [reflexivity|reflexivity|].
    apply single_ws_close. apply single_update; [apply benign_finished|].
    eapply single_frame; [reflexivity|reflexivity|exact H].
  - destruct (value m) as [listing|]; auto.
    unfold onFiles, resolve. apply single_resolve_from.
    apply single_update; [apply benign_finished|].
    rewrite send_writes_spec, prune_spec, send_deletions_spec. simpl.
    destruct H as [s0 [f0 [Hss [Ht [Hfl [Hb Hh]]]]]].
    assert (s = s0).
    { unfold session in Hs. rewrite Hss in Hs.
      destruct sid as [|[|sid]]; simpl in Hs; congruence. }
    subst s0. exists s. rewrite Hfl, Hh. simpl.
    eexists. repeat split; eauto.
Qed.

(** A timer that fires keeps [single], unless it opens a second session. *)
Lemma single_fire tok fs c w :
  single tok fs w ->
  single tok fs (fire c w) \/ (2 <= length (sessions (fire c w)))%nat.
Proof.
  intros H. destruct c as [sid|sid|sid]; simpl.
  - destruct (session sid w) as [s|]; [right|now left].
    unfold uploadFiles. simpl. destruct H as [s0 [f0 [Hss _]]].
    rewrite length_app, Hss. simpl. lia.
  - left. now apply single_ws_close.
  - left. destruct (session sid w) as [s|]; auto.
    destruct (finished s); auto.
    unfold resolve. apply single_resolve_from.
    eapply single_frame; [reflexivity|reflexivity|exact H].
Qed.

Lemma single_run_timers tok fs fuel t w :
  single tok fs w ->
  single tok fs (run_timers fuel t w)
  \/ (2 <= length (sessions (run_timers fuel t w)))%nat.
Proof.
  revert w. induction fuel as [|fuel IH]; intros w H; simpl; auto.
  destruct (pick (timers w)) as [[tm rest]|]; auto.
  destruct (due tm <=? t)%N; auto.
  destruct (single_fire tok fs (callback tm)
              (set_now (N.max (now w) (due tm)) (set_timers rest w))) as [Hs|Hn].
  - eapply single_frame; [reflexivity|reflexivity|exact H].
  - now apply IH.
  - right. now apply run_timers_opened.
Qed.

Lemma single_step tok fs i w :
  single tok fs w ->
  single tok fs (step i w) \/ (2 <= length (sessions (step i w)))%nat.
Proof.
  intros H. unfold step.
  assert (Ha : single tok fs (advance (fst i) w)
               \/ (2 <= length (sessions (advance (fst i) w)))%nat).
  { unfold advance.
    destruct (single_run_timers tok fs (total_weight (timers w)) (fst i) w H)
      as [Hs|Hn]; [left|right; exact Hn].
    eapply single_frame; [reflexivity|reflexivity|exact Hs]. }
  destruct Ha as [Hs|Hn].
  - left. destruct (snd i) as [sid d|sid].
    + destruct (session sid (advance (fst i) w)) as [s|]; auto.
      destruct (readyState s); auto; now apply single_onMessage.
    + apply single_update; [apply benign_readyState|exact Hs].
  - right. destruct (snd i) as [sid d|sid].
    + destruct (session sid (advance (fst i) w)) as [s|]; auto.
      destruct (readyState s); auto;
        apply (onMessage_keeps (fun l => (2 <= length l)%nat)); auto;
        try (intros j f l _ Hl; now rewrite length_list_update);
        intros l tk fl bk k Hl _; rewrite length_app; simpl; lia.
    + unfold update_session. simpl. now rewrite length_list_update.
Qed.

Lemma single_run tok fs ins :
  forall w, single tok fs w ->
  single tok fs (run ins w) \/ (2 <= length (sessions (run ins w)))%nat.
Proof.
  induction ins as [|i ins IH]; intros w H; simpl; auto.
  destruct (single_step tok fs i w H) as [Hs|Hn]; auto.
  right. now apply run_opened.
Qed.

Lemma single_start tok fs : single tok fs (start tok fs).
Proof. eexists _, _. repeat split. Qed.

(** Whatever the first session has received (listings that pruned its
    working set, any number of [NotInitialized] signals), as long as no
    retry has been opened yet, the retry that fires next starts a session
    whose working set is the copy made at the start of the first session:
    the entries of the original file set, untouched. *)
Lemma first_retry_is_pristine tok fs ins t ts :
  let w := run ins (start tok fs) in
  length (sessions w) = 1%nat ->
  let w' := fire (CbRetry 0) (set_now t (set_timers ts w)) in
  exists s1,
    session 1 w' = Some s1 /\ token s1 = tok /\ continuation s1 = Some 0%nat
    /\ read (files s1) w' = Js.entries fs
    /\ read (filesBackup s1) w' = Js.entries (Js.entries fs).
Proof.
  intros w Hlen w'.
  destruct (single_run tok fs ins _ (single_start tok fs)) as [Hs|Hn];
    [|fold w in Hn; lia].
  fold w in Hs. destruct Hs as [s [f0 [Hss [Ht [Hfl [Hb Hh]]]]]].
  subst w'. unfold fire, session. simpl. rewrite Hss. simpl.
  unfold uploadFiles, read, session. simpl. rewrite Hss, Hh, Hb, Ht. simpl.
  eexists. repeat split.
Qed.

(** C4, what the code does when [NotInitialized] comes twice on the socket
    that is closing (at 100 ms and 600 ms).  Both retries are given the
    same object [filesBackup].  The first one (session 1, at 1100 ms) uses
    it as its working set and prunes the empty file the container already
    has; the second one (session 2, at 1600 ms) therefore starts from a
    set without that file, and deletes the file from the container. *)
Theorem C4_second_retry_starts_from_pruned_set :
  let w := run two_signals (start "token" lesson_example) in
  option_map files (session 1 w) = Some 1
  /\ option_map files (session 2 w) = Some 1
  /\ read 1 (advance 1600 (run (firstn 4 two_signals)
                             (start "token" lesson_example)))
     = [("main.py", "print(1)")]
  /\ sent 2 w = [GetFiles; DeleteFile "__init__.py";
                 SetFile "main.py" (Js.TextEncoder_encode "print(1)")].
Proof. vm_compute. repeat split. Qed.

End FirstRetry.

(** ** The identity resolver *)
Section Resolver.
Import Upload Json.

Lemma delay_spec state w :
  exists w', delay state w = (Ok tt, w')
             /\ memos w' = memos w /\ requests w' = requests w.
Proof.
  unfold delay.
  destruct (N.succ (nth (itemCount state) (counters w) 0%N) mod 50 =? 0)%N.
  - eexists. split; [reflexivity|]. split; [reflexivity|].
    unfold requests. simpl. rewrite !filter_app. simpl.
    now rewrite !app_nil_r.
  - eexists. split; [reflexivity|]. split; reflexivity.
Qed.

Lemma nth_list_set {A} i (x : A) l d :
  (i < length l)%nat -> nth i (list_set i x l) d = x.
Proof.
  intros Hi. unfold list_set.
  rewrite app_nth2; rewrite length_firstn, Nat.min_l by lia; [|lia].
  rewrite Nat.sub_diag.
  destruct (skipn i l) eqn:Hs; [|reflexivity].
  apply (f_equal (@length A)) in Hs. rewrite length_skipn in Hs.
  simpl in Hs. lia.
Qed.

(** The part of [mapID] after the check of the marker, when the memo has
    nothing: the request, then [delay]. *)
Lemma mapID_lookup E id state w :
  Js.startsWith ":" id = false -> memo_miss id state w ->
  exists w1,
    request E (key state) (GetId id) w
    = (Ok (axios E (requests w) (GetId id)), w1)
    /\ memos w1 = memos w
    /\ requests w1 = S (requests w)
    /\ mapID E (Some id) state w =
       match axios E (requests w) (GetId id) with
       | Fulfilled (Some v) =>
           (write_memo (idsMap state) (Js.store id v (memo_of state w)) ;;;
            delay state ;;; ret (Str v)) w1
       | Fulfilled None => (delay state ;;; ret Undefined) w1
       | Rejected status =>
           if is_404 status then (delay state ;;; ret Null) w1
           else (Throw (AxiosError status), w1)
       end.
Proof.
  intros Hm Hmiss. eexists. split; [reflexivity|].
  split; [reflexivity|]. split.
  { unfold requests. simpl. rewrite filter_app. simpl.
    rewrite length_app. simpl. lia. }
  unfold mapID. rewrite Hm. unfold memo_miss, memo_of in Hmiss.
  unfold bind at 1. unfold read_memo at 1.
  destruct (Js.lookup id (nth (idsMap state) (memos w) [])) as [v0|name|].
  - rewrite Hmiss. unfold bind, request, read_memo, write_memo, ret, throw.
    simpl. unfold memo_of.
    destruct (axios E (requests w) (GetId id)) as [[v|]|st]; try reflexivity.
    destruct (is_404 st); reflexivity.
  - now elim Hmiss.
  - unfold bind, request, read_memo, write_memo, ret, throw.
    simpl. unfold memo_of.
    destruct (axios E (requests w) (GetId id)) as [[v|]|st]; try reflexivity.
    destruct (is_404 st); reflexivity.
Qed.

(** A name that the memo misses is not [__proto__]. *)
Lemma miss_not_proto id state w :
  memo_miss id state w -> Js.get "__proto__" (memo_of state w) = None ->
  (id =? "__proto__") = false.
Proof.
  intros Hmiss Hget. destruct (String.eqb_spec id "__proto__") as [->|];
    [|reflexivity].
  unfold memo_miss, Js.lookup in Hmiss. rewrite Hget in Hmiss.
  now elim Hmiss.
Qed.

(** A lookup that succeeds puts the id in the memo. *)
Lemma mapID_success E id state w v :
  Js.startsWith ":" id = false -> memo_miss id state w ->
  memo_ok state w ->
  axios E (requests w) (GetId id) = Fulfilled (Some v) ->
  exists w', mapID E (Some id) state w = (Ok (Str v), w')
             /\ Js.get id (memo_of state w') = Some v
             /\ requests w' = S (requests w).
Proof.
  intros Hid Hmiss [Hloc Hproto] Hr.
  pose proof (miss_not_proto id state w Hmiss Hproto) as Hnp.
  destruct (mapID_lookup E id state w Hid Hmiss)
    as [w1 [_ [Hmem [Hreq Hmap]]]].
  rewrite Hr in Hmap.
  set (w1' := mkWorld (counters w1)
                (list_set (idsMap state)
                   (Js.store id v (memo_of state w)) (memos w1)) (log w1)).
  destruct (delay_spec state w1') as [w2 [Hd [Hm2 Hr2]]].
  exists w2. rewrite Hmap. unfold bind, write_memo. fold w1'.
  rewrite Hd. split; [reflexivity|]. split.
  - unfold memo_of. rewrite Hm2. unfold w1'. simpl.
    rewrite nth_list_set by (rewrite Hmem; exact Hloc).
    unfold Js.store. rewrite Hnp. apply get_set_same.
  - rewrite Hr2. exact Hreq.
Qed.

(** A name the memo answers costs no request. *)
Lemma mapID_memo_hit E id state w v :
  Js.startsWith ":" id = false ->
  Js.get id (memo_of state w) = Some v -> Js.truthy v = true ->
  exists w', mapID E (Some id) state w = (Ok (Str v), w')
             /\ requests w' = requests w /\ memos w' = memos w.
Proof.
  intros Hid Hget Hv. unfold mapID. rewrite Hid.
  unfold bind at 1. unfold read_memo at 1. unfold memo_of in Hget.
  unfold Js.lookup. rewrite Hget, Hv. unfold bind, ret.
  destruct (delay_spec state w) as [w' [Hd [Hm Hr]]].
  rewrite Hd. exists w'. auto.
Qed.



End Resolver.

Section ResolverClaims.
Import Upload.

Lemma is_404_false st : st <> Some 404%N -> is_404 st = false.
Proof.
  destruct st as [n|]; simpl; [|reflexivity].
  intros H. apply N.eqb_neq. congruence.
Qed.

(** A name that [Object.prototype] has costs no request either: [mapID]
    returns what is inherited under it. *)
Lemma mapID_inherited E id state w name :
  Js.startsWith ":" id = false ->
  Js.lookup id (memo_of state w) = Js.Inherited name ->
  exists w', mapID E (Some id) state w = (Ok (Proto name), w')
             /\ requests w' = requests w /\ memos w' = memos w.
Proof.
  intros Hid Hget. unfold mapID. rewrite Hid.
  unfold bind at 1. unfold read_memo at 1. unfold memo_of in Hget.
  rewrite Hget. unfold bind, ret.
  destruct (delay_spec state w) as [w' [Hd [Hm Hr]]].
  rewrite Hd. exists w'. auto.
Qed.

(** C7.  [mapID(null)] is [null] and leaves the world as it is, so no
    request is made; an id that starts with [":"] gives what follows the
    marker, again with the world as it is.  For any other id for which
    [state.idsMap[id]] is falsy, one request is made: when it is answered
    404 the result is [null], not an error; when it fails in another way
    the failure is thrown; when it succeeds with an id, that id is in the
    memo of the state when [mapID] returns it.  When [state.idsMap[id]]
    is truthy (an id memoized before, or what the memo inherits from
    [Object.prototype] under that name) it is returned and no request is
    made. *)
Theorem C7_identity_resolution :
  forall E state w,
    mapID E None state w = (Ok Null, w)
    /\ (forall id, Js.startsWith ":" id = true ->
          mapID E (Some id) state w
          = (Ok (Str (Js.substring_from 1 id)), w))
    /\ (forall id,
          Js.startsWith ":" id = false -> memo_miss id state w ->
          (axios E (requests w) (GetId id) = Rejected (Some 404%N) ->
             exists w', mapID E (Some id) state w = (Ok Null, w')
                        /\ memos w' = memos w
                        /\ requests w' = S (requests w))
          /\ (forall st, axios E (requests w) (GetId id) = Rejected st ->
                st <> Some 404%N ->
                exists w', mapID E (Some id) state w
                           = (Throw (AxiosError st), w'))
          /\ (forall v, axios E (requests w) (GetId id) = Fulfilled (Some v) ->
                memo_ok state w ->
                exists w', mapID E (Some id) state w = (Ok (Str v), w')
                           /\ Js.get id (memo_of state w') = Some v
                           /\ requests w' = S (requests w)))
    /\ (forall id,
          Js.startsWith ":" id = false ->
          match Js.lookup id (memo_of state w) with
          | Js.Own v =>
              Js.truthy v = true ->
              exists w', mapID E (Some id) state w = (Ok (Str v), w')
                         /\ requests w' = requests w /\ memos w' = memos w
          | Js.Inherited name =>
              exists w', mapID E (Some id) state w = (Ok (Proto name), w')
                         /\ requests w' = requests w /\ memos w' = memos w
          | Js.Missing => True
          end).
Proof.
  intros E state w. split; [reflexivity|]. split; [|split].
  - intros id Hid. unfold mapID. now rewrite Hid.
  - intros id Hid Hmiss.
    destruct (mapID_lookup E id state w Hid Hmiss)
      as [w1 [_ [Hmem [Hreq Hmap]]]].
    split; [|split].
    + intros Hr. rewrite Hr in Hmap.
      change (is_404 (Some 404%N)) with true in Hmap. cbv iota in Hmap.
      destruct (delay_spec state w1) as [w2 [Hd [Hm2 Hr2]]].
      exists w2. rewrite Hmap. unfold bind. rewrite Hd.
      repeat split; congruence.
    + intros st Hr Hst. rewrite Hr, (is_404_false st Hst) in Hmap.
      now exists w1.
    + intros v Hr Hok. now apply mapID_success.
  - intros id Hid.
    destruct (Js.lookup id (memo_of state w)) as [v|name|] eqn:Hl;
      [|now apply mapID_inherited|exact I].
    intros Hv. apply mapID_memo_hit; [exact Hid| |exact Hv].
    unfold Js.lookup in Hl. destruct (Js.get id (memo_of state w)) as [v'|];
      [now injection Hl as ->|].
    destruct (Js.inherited id); discriminate.
Qed.

Lemma C7_witness :
  Js.startsWith ":" ":abc" = true
  /\ mapID demo (Some ":abc") (initial_state "key") initial_world
     = (Ok (Str "abc"), initial_world)
  /\ (exists w', mapID demo (Some "nobody") (initial_state "key") initial_world
                 = (Ok Null, w')
                 /\ memos w' = memos initial_world
                 /\ requests w' = S (requests initial_world))
  /\ (exists w', mapID demo (Some "constructor") (initial_state "key")
                   initial_world
                 = (Ok (Proto "constructor"), w')
                 /\ requests w' = requests initial_world
                 /\ memos w' = memos initial_world).
Proof.
  split; [reflexivity|]. split; [|split].
  - exact (proj1 (proj2 (C7_identity_resolution demo (initial_state "key")
                           initial_world)) ":abc" eq_refl).
  - exact (proj1 (proj1 (proj2 (proj2 (C7_identity_resolution demo
                                         (initial_state "key") initial_world)))
                    "nobody" eq_refl I) eq_refl).
  - exact (proj2 (proj2 (proj2 (C7_identity_resolution demo
                                  (initial_state "key") initial_world)))
             "constructor" eq_refl).
Defined.




End ResolverClaims.

(** ** The manifest walker *)
Section Walker.
Import Upload Json.




End Walker.

(** ** The desired file set of a lesson *)
Section FileSet.
Import Upload.

Lemma image_tag_pure state name alt :
  exists r, forall w, image_tag state name alt w = (r, w).
Proof.
  unfold image_tag. destruct (images state) as [table|]; [|now eexists].
  destruct (Js.lookup name table); now eexists.
Qed.

Lemma replace_images_pure state s :
  forall skip, exists r, forall w, replace_images state skip s w = (r, w).
Proof.
  induction s as [|c s IH]; intros skip; simpl; [now eexists|].
  destruct skip as [|skip]; [|apply IH].
  destruct (match_image (String c s)) as [[[name alt] rest]|].
  - destruct (image_tag_pure state name alt) as [rt Ht].
    destruct (IH (String.length s - String.length rest)%nat) as [rr Hr].
    unfold bind.
    destruct rt as [tag|e|]; [destruct rr as [tail|e|]|..];
      eexists; intros w; rewrite Ht; try rewrite Hr; reflexivity.
  - destruct (IH 0%nat) as [rr Hr]. unfold bind.
    destruct rr as [tail|e|]; eexists; intros w; rewrite Hr; reflexivity.
Qed.

Lemma collect_app E state l1 l2 files w :
  collect E state (l1 ++ l2) files w
  = bind (collect E state l1 files) (collect E state l2) w.
Proof.
  revert files w. induction l1 as [|entry l1 IH]; intros files w; simpl.
  - unfold bind, ret. reflexivity.
  - unfold bind.
    destruct (collect_entry E state files entry w) as [[f1|e|] w1];
      try reflexivity.
    apply IH.
Qed.


Lemma last_at_app k l1 l2 :
  last_at k (l1 ++ l2)
  = match last_at k l2 with
    | Some p => Some p
    | None => last_at k l1
    end.
Proof.
  induction l1 as [|[rel p] l1 IH]; simpl.
  - now destruct (last_at k l2).
  - rewrite IH. now destruct (last_at k l2).
Qed.

(** One entry of a walk: nothing for a directory or a reserved name; else
    the file is read and stored under its relative path, or the error of
    the reading is thrown. *)
Lemma collect_entry_listed E state dir e files w :
  match listed_in E dir [e] with
  | (rel, p) :: _ =>
      match file_text E state p w with
      | Ok c =>
          collect_entry E state files
            (fst e, snd e, Path_relative E dir (fst e)) w
          = (Ok (Js.store rel c files), w)
      | _ =>
          exists r,
            collect_entry E state files
              (fst e, snd e, Path_relative E dir (fst e)) w = (r, w)
            /\ forall f, r <> Ok f
      end
  | [] =>
      collect_entry E state files
        (fst e, snd e, Path_relative E dir (fst e)) w = (Ok files, w)
  end.
Proof.
  destruct e as [path isFile]. unfold listed_in, collect_entry.
  cbn [flat_map fst snd app].
  destruct isFile; cbn [andb negb app]; [|reflexivity].
  destruct (Js.includes (Path_relative E dir path) reserved);
    cbn [andb negb app]; [reflexivity|].
  unfold file_text, bind, of_option.
  destruct (fs_readFile E path) as [content|].
  2:{ eexists. split; [reflexivity|discriminate]. }
  unfold ret. cbn beta iota.
  destruct (Js.endsWith "/README.md" path); [|reflexivity].
  destruct (replace_images_pure state content 0) as [r Hr].
  rewrite (Hr w). cbn [fst].
  destruct r as [rendered|err|]; [reflexivity|..];
    (eexists; split; [reflexivity|discriminate]).
Qed.

(** The walk of one directory, file by file: it ends in the world it
    started in; when it returns, every listed file was read, a relative
    path has the text of the last file listed under it, and any other
    path has what it had; when it does not return, a listed file could
    not be read. *)
Lemma collect_listed E state dir l :
  forall files w,
    snd (collect E state
           (map (fun e => (fst e, snd e, Path_relative E dir (fst e))) l)
           files w) = w
    /\ match fst (collect E state
                    (map (fun e => (fst e, snd e,
                                    Path_relative E dir (fst e))) l)
                    files w) with
       | Ok f =>
           (forall rel p, In (rel, p) (listed_in E dir l) ->
                          exists c, file_text E state p w = Ok c)
           /\ (forall k, k <> "__proto__" ->
                 match last_at k (listed_in E dir l) with
                 | Some p => exists c, file_text E state p w = Ok c
                                       /\ Js.get k f = Some c
                 | None => Js.get k f = Js.get k files
                 end)
           /\ Js.get "__proto__" f = Js.get "__proto__" files
       | _ =>
           exists rel p, In (rel, p) (listed_in E dir l)
                         /\ forall c, file_text E state p w <> Ok c
       end.
Proof.
  induction l as [|e l IH]; intros files w.
  - simpl. split; [reflexivity|]. split; [intros rel p []|].
    split; [intros k _; reflexivity|reflexivity].
  - assert (Hcons : listed_in E dir (e :: l)
                     = listed_in E dir [e] ++ listed_in E dir l).
    { unfold listed_in. cbn [flat_map]. now rewrite app_nil_r. }
    rewrite Hcons. clear Hcons.
    cbn [map collect]. unfold bind.
    pose proof (collect_entry_listed E state dir e files w) as He.
    assert (Hone : listed_in E dir [e] = []
                   \/ exists rel p, listed_in E dir [e] = [(rel, p)]).
    { unfold listed_in. cbn [flat_map]. rewrite app_nil_r.
      destruct (snd e && negb (Js.includes (Path_relative E dir (fst e))
                                 reserved)); [right; eauto|now left]. }
    destruct Hone as [Hnil|[rel [p Hone]]].
    + rewrite Hnil in He |- *. rewrite He. simpl. apply IH.
    + rewrite Hone in He |- *.
      destruct (file_text E state p w) as [c|err|] eqn:Htext.
      * rewrite He.
        destruct (IH (Js.store rel c files) w) as [Hw Hrest].
        split; [exact Hw|].
        destruct (fst (collect E state
                         (map (fun e0 => (fst e0, snd e0,
                                          Path_relative E dir (fst e0))) l)
                         (Js.store rel c files) w)) as [f|err|].
        -- destruct Hrest as [Hread [Hget Hproto]]. split; [|split].
           ++ intros rel' p' [[= <- <-]|Hin]; [now exists c|].
              now apply (Hread rel' p').
           ++ intros k Hk. specialize (Hget k Hk). simpl.
              destruct (last_at k (listed_in E dir l)) as [q|];
                [exact Hget|].
              rewrite Hget. unfold Js.store.
              destruct (String.eqb_spec rel "__proto__") as [->|Hrel].
              ** destruct (String.eqb_spec "__proto__" k) as [<-|_];
                   [now elim Hk|reflexivity].
              ** destruct (String.eqb_spec rel k) as [<-|Hne].
                 --- exists c. split; [exact Htext|apply get_set_same].
                 --- apply get_set_other. congruence.
           ++ rewrite Hproto. unfold Js.store.
              destruct (String.eqb_spec rel "__proto__") as [->|Hrel];
                [reflexivity|].
              apply get_set_other. congruence.
        -- destruct Hrest as [rel' [p' [Hin Hbad]]].
           exists rel', p'. split; [now right|exact Hbad].
        -- destruct Hrest as [rel' [p' [Hin Hbad]]].
           exists rel', p'. split; [now right|exact Hbad].
      * destruct He as [r [He Hr]]. rewrite He.
        destruct r as [f|err'|]; [now elim (Hr f)|..]; simpl;
          (split; [reflexivity|]); exists rel, p;
          (split; [now left|]); intros c; rewrite Htext; discriminate.
      * destruct He as [r [He Hr]]. rewrite He.
        destruct r as [f|err'|]; [now elim (Hr f)|..]; simpl;
          (split; [reflexivity|]); exists rel, p;
          (split; [now left|]); intros c; rewrite Htext; discriminate.
Qed.

(** No file is listed under a reserved name. *)
Lemma last_at_reserved E dir k l :
  In k reserved -> last_at k (listed_in E dir l) = None.
Proof.
  intros Hk. induction l as [|e l IH]; [reflexivity|].
  unfold listed_in. cbn [flat_map]. fold (listed_in E dir l).
  destruct (snd e); cbn [andb]; [|exact IH].
  destruct (Js.includes (Path_relative E dir (fst e)) reserved) eqn:Hres;
    cbn [negb app]; [exact IH|].
  cbn [last_at]. rewrite IH.
  destruct (String.eqb_spec (Path_relative E dir (fst e)) k) as [Heq|_];
    [|reflexivity].
  apply includes_in in Hk. congruence.
Qed.

(** The walk of a directory lists what [walkdir] returns. *)
Lemma walk_listed E dir w :
  walk E dir w
  = match walkdir E dir with
    | Some entries =>
        (Ok (map (fun e => (fst e, snd e, Path_relative E dir (fst e)))
               entries), w)
    | None => (Throw (SystemError dir), w)
    end.
Proof.
  unfold walk, bind, of_option. now destruct (walkdir E dir).
Qed.

(** X25.  The desired file set, path by path.  When [handleLesson] has
    computed the desired file set, it has changed nothing else, and at
    every relative path other than [__proto__] the set has the text of
    the file that the overlay has there: the last regular, non-reserved
    entry with that relative path in the walk of the lesson directory,
    else the last such entry in the walk of the template directory (the
    text being what [readFile] returns, after the pass over a README);
    where the overlay has no file, the set has no key.  The set has no
    key [__proto__], and none of the reserved names [manifest.json],
    [video.cv] and [config.json].  And the set is computed whenever both
    walks succeed and every listed file can be read. *)
Theorem X25_desired_files_are_the_overlay :
  forall E state templateDir dir w,
    (forall files w',
       desired_files E state templateDir dir w = (Ok files, w') ->
       w' = w
       /\ (forall k, k <> "__proto__" ->
             match overlay_at E templateDir dir k with
             | Some p => exists c, file_text E state p w = Ok c
                                   /\ Js.get k files = Some c
             | None => Js.get k files = None
             end)
       /\ Js.get "__proto__" files = None
       /\ (forall k, In k reserved -> Js.get k files = None))
    /\ (walkdir E dir <> None ->
        (forall t, templateDir = Some t -> walkdir E t <> None) ->
        (forall rel p,
           In (rel, p) (listed E dir
                        ++ match templateDir with
                           | Some t => listed E t
                           | None => []
                           end) ->
           exists c, file_text E state p w = Ok c) ->
        exists files,
          desired_files E state templateDir dir w = (Ok files, w)).
Proof.
  intros E state templateDir dir w.
  unfold desired_files, bind, overlay_at, listed.
  rewrite walk_listed.
  destruct (walkdir E dir) as [le|] eqn:Hle.
  2:{ split; [intros files w' H; discriminate|]. intros H. now elim H. }
  set (L := map (fun e => (fst e, snd e, Path_relative E dir (fst e))) le).
  destruct templateDir as [t|].
  - rewrite walk_listed.
    destruct (walkdir E t) as [te|] eqn:Hte.
    2:{ split; [intros files w' H; discriminate|].
        intros _ H. now elim (H t eq_refl). }
    set (T := map (fun e => (fst e, snd e, Path_relative E t (fst e))) te).
    rewrite collect_app. unfold bind.
    destruct (collect_listed E state t te [] w) as [HwT HT]. fold T in HwT, HT.
    destruct (collect E state T [] w) as [[tf|err|] w1]; simpl in HwT;
      subst w1; cbn [fst] in HT.
    + destruct (collect_listed E state dir le tf w) as [HwL HL].
      fold L in HwL, HL.
      destruct (collect E state L tf w) as [[lf|err|] w2]; simpl in HwL;
        subst w2; cbn [fst] in HL.
      * destruct HT as [_ [HgetT HprotoT]].
        destruct HL as [_ [HgetL HprotoL]]. split; [|eauto].
        intros files w' [= <- <-]. split; [reflexivity|]. split; [|split].
        -- intros k Hk. specialize (HgetL k Hk). specialize (HgetT k Hk).
           destruct (last_at k (listed_in E dir le)); [exact HgetL|].
           rewrite HgetL.
           destruct (last_at k (listed_in E t te)); exact HgetT.
        -- now rewrite HprotoL, HprotoT.
        -- intros k Hk.
           assert (Hne : k <> "__proto__").
           { intros ->. apply includes_in in Hk. discriminate Hk. }
           specialize (HgetL k Hne). specialize (HgetT k Hne).
           rewrite (last_at_reserved E dir k le Hk) in HgetL.
           rewrite (last_at_reserved E t k te Hk) in HgetT.
           now rewrite HgetL, HgetT.
      * split; [intros files w' H; discriminate|]. intros _ _ Hread.
        destruct HL as [rel [p [Hin Hbad]]].
        destruct (Hread rel p) as [c Hc]; [apply in_or_app; now left|].
        now elim (Hbad c).
      * split; [intros files w' H; discriminate|]. intros _ _ Hread.
        destruct HL as [rel [p [Hin Hbad]]].
        destruct (Hread rel p) as [c Hc]; [apply in_or_app; now left|].
        now elim (Hbad c).
    + split; [intros files w' H; discriminate|]. intros _ _ Hread.
      destruct HT as [rel [p [Hin Hbad]]].
      destruct (Hread rel p) as [c Hc]; [apply in_or_app; now right|].
      now elim (Hbad c).
    + split; [intros files w' H; discriminate|]. intros _ _ Hread.
      destruct HT as [rel [p [Hin Hbad]]].
      destruct (Hread rel p) as [c Hc]; [apply in_or_app; now right|].
      now elim (Hbad c).
  - unfold ret at 1 2. cbn [app].
    destruct (collect_listed E state dir le [] w) as [HwL HL].
    fold L in HwL, HL.
    destruct (collect E state L [] w) as [[lf|err|] w2]; simpl in HwL;
      subst w2; cbn [fst] in HL.
    + destruct HL as [_ [HgetL HprotoL]]. split; [|eauto].
      intros files w' [= <- <-]. split; [reflexivity|]. split; [|split].
      * intros k Hk. specialize (HgetL k Hk).
        destruct (last_at k (listed_in E dir le)); exact HgetL.
      * exact HprotoL.
      * intros k Hk.
        assert (Hne : k <> "__proto__").
        { intros ->. apply includes_in in Hk. discriminate Hk. }
        specialize (HgetL k Hne).
        rewrite (last_at_reserved E dir k le Hk) in HgetL.
        exact HgetL.
    + split; [intros files w' H; discriminate|]. intros _ _ Hread.
      destruct HL as [rel [p [Hin Hbad]]].
      destruct (Hread rel p) as [c Hc]; [apply in_or_app; now left|].
      now elim (Hbad c).
    + split; [intros files w' H; discriminate|]. intros _ _ Hread.
      destruct HL as [rel [p [Hin Hbad]]].
      destruct (Hread rel p) as [c Hc]; [apply in_or_app; now left|].
      now elim (Hbad c).
Qed.

(** X25, at the example of the specification: the template has [a] and
    [b], the lesson has [b] and [c]; at [b] the set has the text of the
    lesson's file. *)
Lemma X25_witness :
  desired_files demo (initial_state "key") (Some "tpl") "les" initial_world
  = (Ok [("a", "1"); ("b", "3"); ("c", "4")], initial_world)
  /\ match overlay_at demo (Some "tpl") "les" "b" with
     | Some p =>
         exists c,
           file_text demo (initial_state "key") p initial_world = Ok c
           /\ Js.get "b" [("a", "1"); ("b", "3"); ("c", "4")] = Some c
     | None => Js.get "b" [("a", "1"); ("b", "3"); ("c", "4")] = None
     end.
Proof.
  assert (H : desired_files demo (initial_state "key") (Some "tpl") "les"
                initial_world
              = (Ok [("a", "1"); ("b", "3"); ("c", "4")], initial_world))
    by (vm_compute; reflexivity).
  split; [exact H|].
  apply (proj1 (proj2 (proj1 (X25_desired_files_are_the_overlay
                                demo (initial_state "key") (Some "tpl") "les"
                                initial_world) _ _ H))).
  discriminate.
Defined.

(** The example of the specification: the template files
    [{a: "1", b: "2"}] and the lesson files [{b: "3", c: "4"}] (with a
    [config.json] and a [manifest.json] beside them) give
    [{a: "1", b: "3", c: "4"}]. *)
Example overlay_example :
  desired_files demo (initial_state "key") (Some "tpl") "les" initial_world
  = (Ok [("a", "1"); ("b", "3"); ("c", "4")], initial_world).
Proof. vm_compute. reflexivity. Qed.

(** C8, the code at the failing input.  The lesson directory holds the
    regular files [__proto__] and [main.py]; the walk lists both, the
    relative path [__proto__] is not reserved and the file can be read.
    The desired file set has [main.py] only: [files["__proto__"] = text]
    runs the setter of [Object.prototype], which ignores a string, so the
    file is left out of the set that is the lesson directory's files. *)
Theorem C8_file_named_proto_is_left_out :
  walkdir proto_lesson "les"
  = Some [("les/__proto__", true); ("les/main.py", true)]
  /\ Path_relative proto_lesson "les" "les/__proto__" = "__proto__"
  /\ Js.includes "__proto__" reserved = false
  /\ fs_readFile proto_lesson "les/__proto__" = Some "notes"
  /\ desired_files proto_lesson (initial_state "key") None "les" initial_world
     = (Ok [("main.py", "print(1)")], initial_world).
Proof. vm_compute. repeat split. Qed.

End FileSet.

(** ** The three tiers of a lesson config *)
Section ConfigMerge.
Import Json Upload.

(** One merge keeps what the destination has at a key when that is not an
    object. *)
Lemma mergeValue_keeps_scalar src v :
  isObject v = false -> Lodash.mergeValue src (Some v) = v.
Proof. intros Hv. destruct src, v; simpl in *; congruence. Qed.

Lemma merge_fold_keeps_scalar (ms : list (string * (option Json.t -> Json.t)))
    (object : Js.Rec Json.t) k v :
  (forall km, In km ms -> forall x, isObject x = false -> snd km (Some x) = x) ->
  Js.get k object = Some v -> isObject v = false ->
  Js.get k (fold_left
              (fun object km =>
                 Js.set (fst km) (snd km (Js.get (fst km) object)) object)
              ms object) = Some v.
Proof.
  revert object. induction ms as [|km ms IH]; intros object Hms Hget Hv;
    simpl; [exact Hget|].
  apply IH; [intros km' Hin; apply Hms; now right| |exact Hv].
  destruct (String.eqb_spec k (fst km)) as [->|Hne].
  - rewrite get_set_same, Hget. f_equal. apply Hms; [now left|exact Hv].
  - now rewrite get_set_other.
Qed.

Lemma baseMerge_keeps_scalar props source k v :
  Js.get k props = Some v -> isObject v = false ->
  exists props', Lodash.baseMerge (JObj props) source = JObj props'
                 /\ Js.get k props' = Some v.
Proof.
  intros Hget Hv. unfold Lodash.baseMerge.
  assert (Hfold : forall sp,
    Js.get k (fold_left
                (fun object km =>
                   Js.set (fst km) (snd km (Js.get (fst km) object)) object)
                (Js.entries
                   (map (fun kv => (fst kv, Lodash.mergeValue (snd kv))) sp))
                props) = Some v).
  { intros sp. apply merge_fold_keeps_scalar; [|exact Hget|exact Hv].
    intros km Hin x Hx.
    apply (Permutation_in _ (entries_perm _)) in Hin.
    apply in_map_iff in Hin. destruct Hin as [kv [<- _]].
    now apply mergeValue_keeps_scalar. }
  destruct source as [|b|n|s|sp|sp];
    try (exists props; now split).
  - eexists. split; [reflexivity|]. apply Hfold.
  - eexists. split; [reflexivity|]. apply Hfold.
Qed.

(** A scalar of the lesson tier comes out of the merge as it is, whatever
    the template tier and the inherited tier have at its key. *)
Lemma lesson_scalar_wins lesson templateConfig inherited k v :
  Js.get k lesson = Some v -> isObject v = false ->
  exists props,
    merge_config (JObj lesson) templateConfig inherited = Some (JObj props)
    /\ Js.get k props = Some v.
Proof.
  intros Hget Hv. unfold merge_config, Lodash.defaultsDeep. simpl.
  assert (Hstep : forall props src,
    Js.get k props = Some v ->
    exists props',
      (if truthy src then Lodash.baseMerge (JObj props) src else JObj props)
      = JObj props' /\ Js.get k props' = Some v).
  { intros props src Hp. destruct (truthy src).
    - now apply baseMerge_keeps_scalar.
    - now exists props. }
  destruct (Hstep lesson templateConfig Hget) as [p1 [H1 G1]].
  destruct (Hstep p1 (json_of_option inherited) G1) as [p2 [H2 G2]].
  exists p2. now rewrite H1, H2.
Qed.

(** C2, what the code does with arrays.  The lesson config
    [{ "a": [1] }] and the template config [{ "a": [2, 3] }] merge to
    [{ "a": [1, 3] }]: the array of the lesson is completed, index by
    index, from the array of the template. *)
Theorem C2_arrays_are_merged_by_index :
  merge_config (JObj [("a", array [JNum 1])])
    (JObj [("a", array [JNum 2; JNum 3])]) None
  = Some (JObj [("a", array [JNum 1; JNum 3])])
  /\ merge_config (JObj [("a", array [JNum 1])]) JNull
       (Some (JObj [("a", array [JNum 2; JNum 3])]))
     = Some (JObj [("a", array [JNum 1; JNum 3])]).
Proof. vm_compute. split; reflexivity. Qed.

End ConfigMerge.

(* ===================================================================== *)
(** * Part III: further properties of the code                             *)
(* ===================================================================== *)

Section RateLimit.
Import Upload.

Lemma length_list_set {A} i (x : A) l : length (list_set i x l) = length l.
Proof.
  unfold list_set. rewrite length_app, length_firstn.
  destruct (skipn i l) eqn:Hs.
  - apply (f_equal (@length A)) in Hs. rewrite length_skipn in Hs.
    simpl in *. lia.
  - apply (f_equal (@length A)) in Hs. rewrite length_skipn in Hs.
    simpl in *. lia.
Qed.

(** One call of [delay]: the counter, the memos and the log after it. *)
Lemma delay_step state w :
  (itemCount state < length (counters w))%nat ->
  exists w',
    delay state w = (Ok tt, w')
    /\ counter_of state w' = N.succ (counter_of state w)
    /\ length (counters w') = length (counters w)
    /\ memos w' = memos w
    /\ log w' =
       log w ++ (if (N.succ (counter_of state w) mod 50 =? 0)%N
                 then [ConsoleLog "Hit ratelimit, sleeping."; Sleep 60000;
                       ConsoleLog "Waking up."]
                 else []).
Proof.
  intros Hloc. unfold delay, counter_of.
  destruct (N.succ (nth (itemCount state) (counters w) 0%N) mod 50 =? 0)%N.
  - eexists. split; [reflexivity|]. simpl.
    rewrite nth_list_set by exact Hloc. rewrite length_list_set.
    repeat split. now rewrite <- !app_assoc.
  - eexists. split; [reflexivity|]. simpl.
    rewrite nth_list_set by exact Hloc. rewrite length_list_set.
    repeat split. now rewrite app_nil_r.
Qed.

Lemma div_succ_50 c :
  (N.succ c / 50 = c / 50 + (if (N.succ c mod 50 =? 0) then 1 else 0))%N.
Proof.
  pose proof (N.div_mod c 50 ltac:(lia)) as Hc.
  pose proof (N.mod_lt c 50 ltac:(lia)) as Hlt.
  pose proof (N.div_mod (N.succ c) 50 ltac:(lia)) as Hs.
  pose proof (N.mod_lt (N.succ c) 50 ltac:(lia)) as Hslt.
  destruct (N.eqb_spec (N.succ c mod 50) 0) as [H0|H0];
    revert Hc Hlt Hs Hslt H0;
    generalize (c / 50)%N (c mod 50)%N (N.succ c / 50)%N (N.succ c mod 50)%N;
    intros; lia.
Qed.

(** X1.  The rate limit of [delay]: [n] calls in a row all return, raise
    the shared counter by [n] and sleep once, for 60 seconds, each time the
    counter reaches a multiple of 50; they make no request and leave the
    memo alone. *)
Theorem X1_delay_sleeps_at_every_50th_unit :
  forall n state w,
    (itemCount state < length (counters w))%nat ->
    exists w',
      delays n state w = (Ok tt, w')
      /\ counter_of state w' = (counter_of state w + N.of_nat n)%N
      /\ filter is_sleep (log w') =
         filter is_sleep (log w)
         ++ repeat (Sleep 60000)
              (N.to_nat (counter_of state w' / 50 - counter_of state w / 50))
      /\ requests w' = requests w
      /\ memos w' = memos w.
Proof.
  induction n as [|n IH]; intros state w Hloc.
  - exists w. split; [reflexivity|]. split; [simpl; lia|].
    split; [|split; reflexivity].
    replace (counter_of state w + N.of_nat 0)%N with (counter_of state w)
      by (simpl; lia).
    rewrite N.sub_diag. simpl. now rewrite app_nil_r.
  - destruct (delay_step state w Hloc) as [w1 [Hd [Hc [Hlen [Hm Hlog]]]]].
    destruct (IH state w1) as [w' [Hds [Hc' [Hs' [Hr' Hm']]]]];
      [now rewrite Hlen|].
    exists w'. simpl. unfold bind. rewrite Hd. split; [exact Hds|].
    assert (Hcount : counter_of state w' = (counter_of state w + N.of_nat (S n))%N)
      by (rewrite Hc', Hc; lia).
    split; [exact Hcount|].
    split; [|split].
    + rewrite Hs', Hlog, filter_app, <- app_assoc. f_equal.
      rewrite Hc.
      pose proof (div_succ_50 (counter_of state w)) as Hdiv.
      assert (Hmono : (N.succ (counter_of state w) / 50
                       <= counter_of state w' / 50)%N).
      { apply N.Div0.div_le_mono. lia. }
      revert Hdiv Hmono.
      generalize (counter_of state w' / 50)%N (counter_of state w / 50)%N
        (N.succ (counter_of state w) / 50)%N.
      intros q' q q1 Hdiv Hmono.
      destruct (N.succ (counter_of state w) mod 50 =? 0)%N; simpl.
      * replace (N.to_nat (q' - q)) with (S (N.to_nat (q' - q1))) by lia.
        reflexivity.
      * f_equal. f_equal. lia.
    + rewrite Hr'. destruct (delay_spec state w) as [w1' [Hd' [_ Hr1]]].
      rewrite Hd in Hd'. now injection Hd' as <-.
    + now rewrite Hm'.
Qed.

(** X1, at an instance: the first 100 units of work of an upload. *)
Lemma X1_witness :
  exists w',
    delays 100 (initial_state "key") initial_world = (Ok tt, w')
    /\ counter_of (initial_state "key") w' = 100%N
    /\ filter is_sleep (log w') = [Sleep 60000; Sleep 60000].
Proof.
  destruct (X1_delay_sleeps_at_every_50th_unit 100 (initial_state "key")
              initial_world) as [w' [H [Hc [Hs _]]]].
  - simpl. lia.
  - exists w'. split; [exact H|]. split; [exact Hc|].
    rewrite Hs, Hc. reflexivity.
Defined.

End RateLimit.
Section ResolverOutcomes.
Import Upload.

(** [mapID] on a name without the marker: [state.idsMap[id]] answers (an
    id memoized before, or what is inherited under that name), or the
    platform is asked; [delay] follows unless the request failed. *)
Lemma mapID_name E id state w :
  Js.startsWith ":" id = false ->
  (exists m, maybe_truthy m = true
             /\ mapID E (Some id) state w = (delay state ;;; ret m) w)
  \/ (memo_miss id state w
      /\ exists w1,
           counters w1 = counters w /\ memos w1 = memos w
           /\ log w1 = log w ++ [Http (key state) (GetId id)]
           /\ mapID E (Some id) state w =
              match axios E (requests w) (GetId id) with
              | Fulfilled (Some v) =>
                  (write_memo (idsMap state)
                     (Js.store id v (memo_of state w)) ;;;
                   delay state ;;; ret (Str v)) w1
              | Fulfilled None => (delay state ;;; ret Undefined) w1
              | Rejected status =>
                  if is_404 status then (delay state ;;; ret Null) w1
                  else (Throw (AxiosError status), w1)
              end).
Proof.
  intros Hm.
  assert (Hask : memo_miss id state w ->
    exists w1,
      counters w1 = counters w /\ memos w1 = memos w
      /\ log w1 = log w ++ [Http (key state) (GetId id)]
      /\ mapID E (Some id) state w =
         match axios E (requests w) (GetId id) with
         | Fulfilled (Some v) =>
             (write_memo (idsMap state)
                (Js.store id v (memo_of state w)) ;;;
              delay state ;;; ret (Str v)) w1
         | Fulfilled None => (delay state ;;; ret Undefined) w1
         | Rejected status =>
             if is_404 status then (delay state ;;; ret Null) w1
             else (Throw (AxiosError status), w1)
         end).
  { intros Hmiss.
    destruct (mapID_lookup E id state w Hm Hmiss) as [w1 [Hreq [_ [_ Hmap]]]].
    exists w1. injection Hreq as <-. simpl. auto. }
  destruct (Js.lookup id (memo_of state w)) as [v|name|] eqn:Hg.
  - destruct (Js.truthy v) eqn:Hv.
    + left. exists (Str v). split; [exact Hv|].
      unfold mapID. rewrite Hm. unfold bind at 1. unfold read_memo at 1.
      unfold memo_of in Hg. rewrite Hg, Hv. reflexivity.
    + right. assert (Hmiss : memo_miss id state w)
        by (unfold memo_miss; now rewrite Hg).
      split; [exact Hmiss|now apply Hask].
  - left. exists (Proto name). split; [reflexivity|].
    unfold mapID. rewrite Hm. unfold bind at 1. unfold read_memo at 1.
    unfold memo_of in Hg. rewrite Hg. reflexivity.
  - right. assert (Hmiss : memo_miss id state w)
      by (unfold memo_miss; now rewrite Hg).
    split; [exact Hmiss|now apply Hask].
Qed.

(** [delay] always returns. *)
Lemma delay_returns state w : exists w', delay state w = (Ok tt, w').
Proof. destruct (delay_spec state w) as [w' [H _]]. now exists w'. Qed.

Lemma mapID_ends E id state w : fst (mapID E id state w) <> Diverge.
Proof.
  destruct id as [id|]; [|simpl; discriminate].
  destruct (Js.startsWith ":" id) eqn:Hm.
  { unfold mapID. rewrite Hm. simpl. discriminate. }
  destruct (mapID_name E id state w Hm)
    as [[m [_ ->]]|[_ [w1 [_ [_ [_ ->]]]]]].
  - unfold bind. destruct (delay_returns state w) as [w' ->]. discriminate.
  - destruct (axios E (requests w) (GetId id)) as [[v|]|st].
    + unfold bind, write_memo.
      match goal with |- context [delay state ?x] =>
        destruct (delay_returns state x) as [w' ->] end. discriminate.
    + unfold bind. destruct (delay_returns state w1) as [w' ->]. discriminate.
    + destruct (is_404 st); [|discriminate].
      unfold bind. destruct (delay_returns state w1) as [w' ->]. discriminate.
Qed.

(** X3.  What a call of [mapID] costs.  A [null] input and an id with the
    marker cost nothing: the world is as before.  A name that returns
    counts one unit of work towards the rate limit, whether the memo
    answered or the platform did.  [mapID] throws only the [AxiosError] of
    a rejection that is not a 404, and then neither the counter nor the
    memo has changed; it always ends. *)
Theorem X3_mapID_counts_one_unit :
  forall E id state w r w',
    (itemCount state < length (counters w))%nat ->
    mapID E id state w = (r, w') ->
    match r with
    | Ok m =>
        match id with
        | None => m = Null /\ w' = w
        | Some s =>
            if Js.startsWith ":" s
            then m = Str (Js.substring_from 1 s) /\ w' = w
            else counter_of state w' = N.succ (counter_of state w)
        end
    | Throw e =>
        exists st, e = AxiosError st /\ is_404 st = false
                   /\ counters w' = counters w /\ memos w' = memos w
    | Diverge => False
    end.
Proof.
  intros E id state w r w' Hloc H.
  pose proof (mapID_ends E id state w) as Hend. rewrite H in Hend.
  destruct id as [id|];
    [|unfold mapID, ret in H; injection H as <- <-; auto].
  destruct (Js.startsWith ":" id) eqn:Hm.
  { unfold mapID in H. rewrite Hm in H. unfold ret in H.
    injection H as <- <-. auto. }
  destruct (mapID_name E id state w Hm)
    as [[m0 [_ Heq]]|[_ [w1 [Hc1 [Hm1 [_ Heq]]]]]]; rewrite Heq in H; clear Heq.
  - unfold bind, ret in H.
    destruct (delay_step state w Hloc) as [w2 [Hd [Hc _]]].
    rewrite Hd in H. injection H as <- <-. exact Hc.
  - assert (Hloc1 : (itemCount state < length (counters w1))%nat)
      by now rewrite Hc1.
    assert (Hcnt : counter_of state w1 = counter_of state w)
      by (unfold counter_of; now rewrite Hc1).
    destruct (axios E (requests w) (GetId id)) as [[v|]|st].
    + unfold bind, write_memo, ret in H.
      match type of H with context [delay state ?x] =>
        destruct (delay_step state x Hloc1) as [w2 [Hd [Hc _]]] end.
      rewrite Hd in H. injection H as <- <-. rewrite Hc. now f_equal.
    + unfold bind, ret in H.
      destruct (delay_step state w1 Hloc1) as [w2 [Hd [Hc _]]].
      rewrite Hd in H. injection H as <- <-. rewrite Hc. now f_equal.
    + destruct (is_404 st) eqn:H404.
      * unfold bind, ret in H.
        destruct (delay_step state w1 Hloc1) as [w2 [Hd [Hc _]]].
        rewrite Hd in H. injection H as <- <-. rewrite Hc. now f_equal.
      * injection H as <- <-. exists st. auto.
Qed.

(** X3, at an instance: a name the memo answers. *)
Lemma X3_witness :
  counter_of (initial_state "key")
    (snd (mapID demo (Some "intro") (initial_state "key")
            (mkWorld [49%N] [[("intro", "L1")]] [])))
  = 50%N.
Proof.
  pose proof (X3_mapID_counts_one_unit demo (Some "intro")
                (initial_state "key")
                (mkWorld [49%N] [[("intro", "L1")]] [])
                (Ok (Str "L1"))
                (snd (mapID demo (Some "intro") (initial_state "key")
                        (mkWorld [49%N] [[("intro", "L1")]] [])))) as H.
  simpl in H. apply H; [lia|]. vm_compute. reflexivity.
Defined.

End ResolverOutcomes.
(** ** The footprint of the handlers *)
Section Footprint.
Import Upload Json.
Variable Q : Effect -> Prop.

Lemma only_ret {A} (a : A) : only Q (ret a).
Proof.
  intros w. exists []. simpl. rewrite app_nil_r.
  split; [reflexivity|]. split; [constructor|discriminate].
Qed.

Lemma only_throw {A} e : only Q (@throw A e).
Proof.
  intros w. exists []. simpl. rewrite app_nil_r.
  split; [reflexivity|]. split; [constructor|discriminate].
Qed.

Lemma only_bind {A B} (m : M A) (k : A -> M B) :
  only Q m -> (forall a, only Q (k a)) -> only Q (bind m k).
Proof.
  intros Hm Hk w. destruct (Hm w) as [l1 [H1 [F1 E1]]]. unfold bind.
  destruct (m w) as [[a|e|] w1]; simpl in *.
  - destruct (Hk a w1) as [l2 [H2 [F2 E2]]]. exists (l1 ++ l2).
    rewrite H2, H1, app_assoc. split; [reflexivity|].
    split; [apply Forall_app; now split|exact E2].
  - exists l1. split; [exact H1|]. split; [exact F1|discriminate].
  - now elim E1.
Qed.

Lemma only_effect e : Q e -> only Q (effect e).
Proof.
  intros He w. exists [e]. simpl. split; [reflexivity|].
  split; [now constructor|discriminate].
Qed.

Lemma only_request E k r : Q (Http k r) -> only Q (request E k r).
Proof.
  intros He w. exists [Http k r]. simpl. split; [reflexivity|].
  split; [now constructor|discriminate].
Qed.

Lemma only_field_of r : only Q (field_of r).
Proof. destruct r; [apply only_ret|apply only_throw]. Qed.

Lemma only_of_option {A} (o : option A) e : only Q (of_option o e).
Proof. destruct o; [apply only_ret|apply only_throw]. Qed.

Lemma only_property v name : only Q (property v name).
Proof. destruct v; try apply only_ret; apply only_throw. Qed.

Lemma only_string_array v what : only Q (string_array v what).
Proof.
  destruct v as [[| | | | |]|]; try apply only_ret; apply only_throw.
Qed.

Lemma only_as_id v : only Q (as_id v).
Proof. destruct v; try apply only_ret; apply only_throw. Qed.

Lemma only_read_memo l : only Q (read_memo l).
Proof.
  intros w. exists []. simpl. rewrite app_nil_r.
  split; [reflexivity|]. split; [constructor|discriminate].
Qed.

Lemma only_write_memo l o : only Q (write_memo l o).
Proof.
  intros w. exists []. simpl. rewrite app_nil_r.
  split; [reflexivity|]. split; [constructor|discriminate].
Qed.

Lemma only_map_M {A B} (f : A -> M B) xs :
  (forall x, only Q (f x)) -> only Q (map_M f xs).
Proof.
  intros Hf. induction xs as [|x xs IH]; simpl; [apply only_ret|].
  apply only_bind; [apply Hf|]. intros y.
  apply only_bind; [exact IH|]. intros ys. apply only_ret.
Qed.

Lemma only_inv {A} (m : M A) w r w' :
  only Q m -> m w = (r, w') ->
  exists l, log w' = log w ++ l /\ Forall Q l /\ r <> Diverge.
Proof. intros Hm H. specialize (Hm w). now rewrite H in Hm. Qed.

Lemma ends_bind {A B} P PT (m : M A) (k : A -> M B) :
  (forall e, PT e []) -> only Q m ->
  (forall a, returns m a -> ends_with Q P PT (k a)) ->
  ends_with Q P PT (bind m k).
Proof.
  intros HPT Hm Hk w. destruct (Hm w) as [l1 [H1 [F1 E1]]]. unfold bind.
  destruct (m w) as [[a|e|] w1] eqn:Hmw; simpl in *.
  - destruct (Hk a (ex_intro _ w (ex_intro _ w1 Hmw)) w1)
      as [l2 [t [H2 [F2 Hpost]]]].
    exists (l1 ++ l2), t. rewrite H2, H1, <- !app_assoc.
    split; [reflexivity|]. split; [apply Forall_app; now split|].
    destruct (fst (k a w1)); try exact Hpost.
    now rewrite H1, <- app_assoc in Hpost.
  - exists l1, []. rewrite app_nil_r. auto.
  - now elim E1.
Qed.

Lemma waits_bind {A B} P PT (m : M A) (k : A -> M B) :
  (forall e, PT e []) -> only Q m ->
  (forall a, returns m a -> ends_or_waits Q P PT (k a)) ->
  ends_or_waits Q P PT (bind m k).
Proof.
  intros HPT Hm Hk w. destruct (Hm w) as [l1 [H1 [F1 E1]]]. unfold bind.
  destruct (m w) as [[a|e|] w1] eqn:Hmw; simpl in *.
  - destruct (Hk a (ex_intro _ w (ex_intro _ w1 Hmw)) w1)
      as [l2 [t [H2 [F2 Hpost]]]].
    exists (l1 ++ l2), t. rewrite H2, H1, <- !app_assoc.
    split; [reflexivity|]. split; [apply Forall_app; now split|].
    destruct (fst (k a w1)); try exact Hpost;
      now rewrite H1, <- app_assoc in Hpost.
  - exists l1, []. rewrite app_nil_r. auto.
  - now elim E1.
Qed.

Lemma always_of_only {A} (m : M A) : only Q m -> always Q m.
Proof.
  intros Hm w. destruct (Hm w) as [l [H [F _]]]. exists l. auto.
Qed.

Lemma always_bind {A B} (m : M A) (k : A -> M B) :
  always Q m -> (forall a, returns m a -> always Q (k a)) ->
  always Q (bind m k).
Proof.
  intros Hm Hk w. destruct (Hm w) as [l1 [H1 F1]]. unfold bind.
  destruct (m w) as [[a|e|] w1] eqn:Hmw; simpl in *.
  - destruct (Hk a (ex_intro _ w (ex_intro _ w1 Hmw)) w1) as [l2 [H2 F2]].
    exists (l1 ++ l2). rewrite H2, H1, app_assoc. split; [reflexivity|].
    apply Forall_app. now split.
  - now exists l1.
  - now exists l1.
Qed.

Lemma always_for_each {A} (xs : list A) body :
  (forall x, always Q (body x)) -> always Q (for_each xs body).
Proof.
  intros Hb. induction xs as [|x xs IH]; simpl.
  - apply always_of_only, only_ret.
  - apply always_bind; [apply Hb|]. intros _ _. exact IH.
Qed.

Lemma quiet_of_always {A} (m : M A) : always Q m -> quiet_ok Q m.
Proof.
  intros Hm w. destruct (Hm w) as [l [H F]]. exists l. auto.
Qed.

(** [uploadFiles] adds the hand-over to the log, and nothing else,
    whether its promise is settled or not. *)
Lemma uploadFiles_spec E token files w :
  exists r,
    uploadFiles E token files w
    = (r, mkWorld (counters w) (memos w) (log w ++ [UploadFiles token files]))
    /\ (r = Ok tt \/ r = Diverge).
Proof.
  unfold uploadFiles. destruct (settles _ _ _ _); eexists; eauto.
Qed.

Lemma always_uploadFiles E token files :
  Q (UploadFiles token files) -> always Q (uploadFiles E token files).
Proof.
  intros HQ w. destruct (uploadFiles_spec E token files w) as [r [-> _]].
  exists [UploadFiles token files]. split; [reflexivity|].
  now constructor.
Qed.

Hypothesis Q_sleep : forall ms, Q (Sleep ms).
Hypothesis Q_log : forall msg, Q (ConsoleLog msg).

Lemma only_delay state : only Q (delay state).
Proof.
  intros w. unfold delay.
  destruct (N.succ (nth (itemCount state) (counters w) 0%N) mod 50 =? 0)%N.
  - eexists. simpl. rewrite <- !app_assoc. simpl.
    split; [reflexivity|]. split; [|discriminate].
    repeat constructor; auto.
  - exists []. simpl. rewrite app_nil_r.
    split; [reflexivity|]. split; [constructor|discriminate].
Qed.

Variable state : State.
Hypothesis Q_get : forall id, Q (Http (key state) (GetId id)).

Lemma only_mapID E id : only Q (mapID E id state).
Proof.
  unfold mapID. destruct id as [id|]; [|apply only_ret].
  destruct (Js.startsWith ":" id); [apply only_ret|].
  apply only_bind; [apply only_read_memo|]. intros memo.
  assert (Hlookup : only Q
    (res <- request E (key state) (GetId id) ;;
     match res with
     | Fulfilled (Some v) =>
         memo <- read_memo (idsMap state) ;;
         write_memo (idsMap state) (Js.store id v memo) ;;;
         ret (Str v)
     | Fulfilled None => ret Undefined
     | Rejected status =>
         if is_404 status then ret Null else throw (AxiosError status)
     end)).
  { apply only_bind; [apply only_request, Q_get|]. intros [[v|]|st].
    - apply only_bind; [apply only_read_memo|]. intros memo'.
      apply only_bind; [apply only_write_memo|]. intros _. apply only_ret.
    - apply only_ret.
    - destruct (is_404 st); [apply only_ret|apply only_throw]. }
  apply only_bind.
  - destruct (Js.lookup id memo) as [v|name|];
      [|apply only_ret|exact Hlookup].
    destruct (Js.truthy v); [apply only_ret|exact Hlookup].
  - intros newKey. apply only_bind; [apply only_delay|].
    intros _. apply only_ret.
Qed.

Lemma only_mapIDNoNull E id : only Q (mapIDNoNull E id state).
Proof.
  unfold mapIDNoNull. apply only_bind; [apply only_mapID|].
  intros [| |s|name]; try apply only_ret. apply only_throw.
Qed.

End Footprint.

(** Rules of [only], applied as far as they go. *)
Ltac only_tac :=
  repeat first
    [ assumption
    | apply only_ret | apply only_throw
    | apply only_field_of | apply only_of_option | apply only_property
    | apply only_string_array | apply only_as_id
    | apply only_read_memo | apply only_write_memo
    | apply only_effect | apply only_request
    | apply only_delay | apply only_mapIDNoNull | apply only_mapID
    | apply only_map_M; intros ?
    | apply only_bind; [|intros ?]
    | match goal with
      | |- Upload.only _ (match ?x with _ => _ end) => destruct x
      | |- Upload.only _ (let _ := _ in _) => cbv zeta
      end
    | solve [intros; simpl; auto] ].

Section UnitFootprint.
Import Upload Json.

Lemma only_unit_fold Q E state props keys :
  (forall ms, Q (Sleep ms)) -> (forall msg, Q (ConsoleLog msg)) ->
  (forall id, Q (Http (key state) (GetId id))) ->
  forall acc : M (Js.Rec UnitEntry),
    only Q acc ->
    only Q
      (fold_left
         (fun acc lessonID =>
            m <- acc ;;
            newKey <- mapIDNoNull E (Some lessonID) state ;;
            entry <- of_option (Js.get lessonID props) TypeError ;;
            nextv <- property entry "next" ;;
            previousv <- property entry "previous" ;;
            next <- string_array nextv "next" ;;
            previous <- string_array previousv "previous" ;;
            newNext <- map_M (fun item => i <- as_id item ;;
                                           mapIDNoNull E i state) next ;;
            newPrevious <- map_M (fun item => i <- as_id item ;;
                                               mapIDNoNull E i state)
                             previous ;;
            requireAllv <- property entry "requireAll" ;;
            ret (Js.store (maybe_string newKey)
                   (mkUnitEntry newNext newPrevious (truthy_opt requireAllv))
                   m))
         keys acc).
Proof.
  intros Qs Ql Qg. induction keys as [|k keys IH]; intros acc Hacc; simpl.
  - exact Hacc.
  - apply IH. only_tac.
Qed.

Lemma delay_log state w :
  exists w' dl, delay state w = (Ok tt, w')
                /\ log w' = log w ++ dl /\ Forall no_request dl.
Proof.
  destruct (delay_returns state w) as [w' Hd].
  destruct (only_inv no_request (delay state) w (Ok tt) w') as [dl [Hl [F _]]].
  - apply only_delay; intros; exact I.
  - exact Hd.
  - now exists w', dl.
Qed.

(** X4.  The requests of [handleUnit]: the lookups of ids come first and
    the upsert of the unit is the last request.  When [handleUnit] returns
    it has sent the upsert once; when it throws anything but the error of
    a rejected request (an id that could not be found, an entry that is
    not an object, a [next] that is not an array), no upsert was sent. *)
Theorem X4_handleUnit_upserts_after_lookups :
  forall E state id name lessons w r w',
    handleUnit E state id name lessons w = (r, w') ->
    exists lookups rest,
      log w' = log w ++ lookups ++ rest
      /\ Forall is_lookup lookups
      /\ match r with
         | Ok _ =>
             exists actualID map tail,
               rest = Http (key state) (PutUnit actualID id name map) :: tail
               /\ Forall no_request tail
         | Throw (AxiosError _) =>
             rest = []
             \/ exists actualID map,
                  rest = [Http (key state) (PutUnit actualID id name map)]
         | Throw _ => rest = []
         | Diverge => False
         end.
Proof.
  intros E state id name lessons w r w' H.
  assert (Hends : ends_with is_lookup
            (fun _ t => exists actualID map tail,
               t = Http (key state) (PutUnit actualID id name map) :: tail
               /\ Forall no_request tail)
            (fun e t => t = []
               \/ exists st actualID map,
                    e = AxiosError st
                    /\ t = [Http (key state) (PutUnit actualID id name map)])
            (handleUnit E state id name lessons)).
  { unfold handleUnit.
    apply ends_bind; [now left|apply only_mapID; intros; exact I|].
    intros actualID _. cbv zeta.
    apply ends_bind; [now left| |].
    { apply only_unit_fold; try (intros; exact I). apply only_ret. }
    intros map _ w0. exists []. unfold bind, request.
    destruct (axios E (requests w0) (PutUnit actualID id name map))
      as [f|st]; simpl.
    - match goal with |- context [delay state ?x] =>
        destruct (delay_log state x) as [w1 [dl [Hd [Hl Fd]]]] end.
      rewrite Hd. simpl in *.
      exists (Http (key state) (PutUnit actualID id name map) :: dl).
      rewrite Hl, <- app_assoc. split; [reflexivity|].
      split; [constructor|]. now exists actualID, map, dl.
    - eexists. split; [reflexivity|]. split; [constructor|].
      right. now exists st, actualID, map. }
  destruct (Hends w) as [l [t [Hl [F Hpost]]]]. rewrite H in Hl, Hpost.
  simpl in Hl, Hpost. exists l, t. split; [exact Hl|]. split; [exact F|].
  destruct r as [u|e|]; [exact Hpost| |exact Hpost].
  destruct Hpost as [->|[st [a [m [-> ->]]]]].
  - destruct e; auto.
  - right. now exists a, m.
Qed.

(** X4, at an instance: the unit [A] of the course, with one lesson. *)
Lemma X4_witness :
  exists w' lookups rest,
    handleUnit demo (initial_state "key") "unit-a" "A"
      (JObj [("intro", JObj [])]) initial_world
    = (Ok (Some "id-of-unit-a"), w')
    /\ log w' = log initial_world ++ lookups ++ rest
    /\ Forall is_lookup lookups
    /\ exists actualID map tail,
         rest = Http "key" (PutUnit actualID "unit-a" "A" map) :: tail.
Proof.
  assert (H : exists w',
    handleUnit demo (initial_state "key") "unit-a" "A"
      (JObj [("intro", JObj [])]) initial_world
    = (Ok (Some "id-of-unit-a"), w')) by (eexists; vm_compute; reflexivity).
  destruct H as [w' H].
  destruct (X4_handleUnit_upserts_after_lookups _ _ _ _ _ _ _ _ H)
    as [lookups [rest [Hl [F [a [m [tail [Hr _]]]]]]]].
  exists w', lookups, rest. split; [exact H|]. split; [exact Hl|].
  split; [exact F|]. now exists a, m, tail.
Defined.

End UnitFootprint.
Section LessonFootprint.
Import Upload Json.
Variable Q : Effect -> Prop.

Lemma only_image_tag state name alt : only Q (image_tag state name alt).
Proof. unfold image_tag. only_tac. Qed.

Lemma only_replace_images state s :
  forall skip, only Q (replace_images state skip s).
Proof.
  induction s as [|c s IH]; intros skip; simpl; [apply only_ret|].
  destruct skip as [|skip]; [|apply IH].
  destruct (match_image (String c s)) as [[[name alt] rest]|].
  - apply only_bind; [apply only_image_tag|]. intros tag.
    apply only_bind; [apply IH|]. intros tail. apply only_ret.
  - apply only_bind; [apply IH|]. intros tail. apply only_ret.
Qed.

Lemma only_collect_entry E state files entry :
  only Q (collect_entry E state files entry).
Proof.
  destruct entry as [[path isFile] relative]. unfold collect_entry.
  destruct isFile; cbn [negb]; [|apply only_ret].
  destruct (Js.includes relative reserved); [apply only_ret|].
  apply only_bind; [apply only_of_option|]. intros content.
  destruct (Js.endsWith "/README.md" path); [|apply only_ret].
  apply only_bind; [apply only_replace_images|]. intros r. apply only_ret.
Qed.

Lemma only_collect E state walkEntries :
  forall files, only Q (collect E state walkEntries files).
Proof.
  induction walkEntries as [|entry rest IH]; intros files; cbn [collect];
    [apply only_ret|].
  apply only_bind; [apply only_collect_entry|exact IH].
Qed.

Lemma only_desired_files E state templateDir dir :
  only Q (desired_files E state templateDir dir).
Proof.
  unfold desired_files, walk.
  apply only_bind; [only_tac|]. intros lessonEntries.
  apply only_bind; [only_tac|]. intros templateEntries.
  apply only_collect.
Qed.

Lemma only_read_config E p : only Q (read_config E p).
Proof. unfold read_config. only_tac. Qed.

End LessonFootprint.

Section LessonSync.
Import Upload Json.

(** X5.  [handleLesson] hands the file set over last.  When it returns,
    the last two things it did are the request of the token of the
    project and the call of [uploadFiles], with the token the platform
    answered and with the desired file set of the lesson directory and
    its template directory; nothing was handed to [uploadFiles] before.
    The same holds when [handleLesson] is left waiting: it waits for the
    promise of that one call.  When it throws, [uploadFiles] was not
    called at all. *)
Theorem X5_handleLesson_hands_files_over_last :
  forall E state id name unit spec extendsTemplate lessonClass dir w r w',
    handleLesson E state id name unit spec extendsTemplate lessonClass dir w
    = (r, w') ->
    exists l t,
      log w' = log w ++ l ++ t
      /\ Forall no_upload l
      /\ match r with
         | Ok _ =>
             exists project token files,
               t = [Http (key state) (GetToken project);
                    UploadFiles token files]
               /\ axios E (length (filter is_http (log w ++ l)))
                    (GetToken project) = Fulfilled (Some token)
               /\ returns (desired_files E state
                             (template_dir E state extendsTemplate) dir) files
         | Throw _ => Forall no_upload t
         | Diverge =>
             exists project token files,
               t = [Http (key state) (GetToken project);
                    UploadFiles token files]
               /\ axios E (length (filter is_http (log w ++ l)))
                    (GetToken project) = Fulfilled (Some token)
               /\ returns (desired_files E state
                             (template_dir E state extendsTemplate) dir) files
         end.
Proof.
  intros E state id name unit spec extendsTemplate lessonClass dir w r w' H.
  set (P := fun (pre t : list Effect) =>
         exists project token files,
           t = [Http (key state) (GetToken project); UploadFiles token files]
           /\ axios E (length (filter is_http pre)) (GetToken project)
              = Fulfilled (Some token)
           /\ returns (desired_files E state
                         (template_dir E state extendsTemplate) dir) files).
  set (PT := fun (_ : Error) (t : list Effect) => Forall no_upload t).
  assert (HPT : forall e, PT e []) by (intros e; constructor).
  assert (Qh : forall k r0, no_upload (Http k r0)) by (intros; exact I).
  assert (Qs : forall ms, no_upload (Sleep ms)) by (intros; exact I).
  assert (Ql : forall msg, no_upload (ConsoleLog msg)) by (intros; exact I).
  assert (Hends : ends_or_waits no_upload P PT
            (handleLesson E state id name unit spec extendsTemplate
               lessonClass dir)).
  { unfold handleLesson. fold (template_dir E state extendsTemplate).
    remember (template_dir E state extendsTemplate) as td eqn:Htd in |- *.
    cbv zeta.
    apply waits_bind; [exact HPT|apply only_mapID; intros; exact I|].
    intros actualID _.
    apply waits_bind; [exact HPT|apply only_mapID; intros; exact I|].
    intros actualUnitID _.
    apply waits_bind; [exact HPT|only_tac|]. intros project0 _.
    apply waits_bind; [exact HPT|now apply only_delay|]. intros _ _.
    apply waits_bind; [exact HPT|only_tac|]. intros project1 _.
    apply waits_bind; [exact HPT|only_tac|]. intros project _.
    apply waits_bind; [exact HPT|only_tac|]. intros res _.
    apply waits_bind; [exact HPT|only_tac|]. intros lessonID0 _.
    apply waits_bind; [exact HPT|now apply only_delay|]. intros _ _.
    apply waits_bind; [exact HPT|only_tac|]. intros lessonID _.
    apply waits_bind; [exact HPT|apply only_read_config|]. intros lc _.
    apply waits_bind; [exact HPT| |]. 
    { destruct td as [t|]; [|apply only_ret].
      destruct (Js.truthy t); [apply only_read_config|apply only_ret]. }
    intros tc _.
    apply waits_bind; [exact HPT|only_tac|]. intros _ _.
    apply waits_bind; [exact HPT|only_tac|]. intros _ _.
    apply waits_bind; [exact HPT|apply only_desired_files|].
    intros files Hfiles w0. exists []. unfold bind, request.
    destruct (axios E (requests w0) (GetToken project)) as [[token|]|st] eqn:Ha;
      simpl.
    2,3: eexists; split; [reflexivity|]; split; [constructor|];
         repeat constructor.
    destruct (Js.truthy token); simpl.
    - match goal with |- context [uploadFiles E token files ?x] =>
        destruct (uploadFiles_spec E token files x) as [r0 [Hu Hr0]] end.
      rewrite Hu. simpl.
      exists [Http (key state) (GetToken project); UploadFiles token files].
      split; [destruct r0; now rewrite <- app_assoc|].
      split; [constructor|].
      assert (HP : P (log w0 ++ [])
                     [Http (key state) (GetToken project);
                      UploadFiles token files]).
      { exists project, token, files.
        split; [reflexivity|]. rewrite app_nil_r. split; [exact Ha|].
        rewrite Htd in Hfiles. exact Hfiles. }
      destruct Hr0 as [-> | ->]; exact HP.
    - eexists. split; [reflexivity|]. split; [constructor|].
      repeat constructor. }
  destruct (Hends w) as [l [t [Hl [F Hpost]]]]. rewrite H in Hl, Hpost.
  simpl in Hl, Hpost. exists l, t. split; [exact Hl|]. split; [exact F|].
  destruct r; exact Hpost.
Qed.

(** X5, at an instance: the lesson of the directory [les], on a platform
    that answers every request. *)
Lemma X5_witness :
  exists w' l t,
    handleLesson demo_online (initial_state "key") "intro" "Intro" None None
      None (ClassNum 1) "les" initial_world = (Ok "id-of-intro", w')
    /\ log w' = l ++ t
    /\ Forall no_upload l
    /\ exists project token files,
         t = [Http "key" (GetToken project); UploadFiles token files].
Proof.
  assert (H : exists w',
    handleLesson demo_online (initial_state "key") "intro" "Intro" None None
      None (ClassNum 1) "les" initial_world = (Ok "id-of-intro", w'))
    by (eexists; vm_compute; reflexivity).
  destruct H as [w' H].
  destruct (X5_handleLesson_hands_files_over_last _ _ _ _ _ _ _ _ _ _ _ _ H)
    as [l [t [Hl [F [project [token [files [Ht _]]]]]]]].
  exists w', l, t. split; [exact H|]. split; [exact Hl|].
  split; [exact F|]. now exists project, token, files.
Defined.

End LessonSync.
Section ManifestError.
Import Upload.

Lemma manifest_error_spec parent manifest e w :
  manifest_error parent manifest e w =
  (Throw e,
   mkWorld (counters w) (memos w)
     (log w ++ [ConsoleError (error_header parent manifest)])).
Proof.
  unfold manifest_error, error_header.
  destruct (match parent with Some p => Js.truthy p | None => false end);
    reflexivity.
Qed.

End ManifestError.

Section HandlerFootprint.
Import Upload Json.
Variable Q : Effect -> Prop.
Variable k0 : string.
Hypothesis Q_req : forall r, class_of r = None -> Q (Http k0 r).
Hypothesis Q_class :
  forall actualID id name unit project spec lessonClass,
    known_class lessonClass ->
    Q (Http k0 (PutLesson actualID id name unit project spec lessonClass)).
Hypothesis Q_sleep : forall ms, Q (Sleep ms).
Hypothesis Q_log : forall msg, Q (ConsoleLog msg).
Hypothesis Q_upload : forall token files, Q (UploadFiles token files).

Lemma Q_lookup id : Q (Http k0 (GetId id)).
Proof. now apply Q_req. Qed.

Lemma only_handleUnit E state id name lessons :
  key state = k0 -> only Q (handleUnit E state id name lessons).
Proof.
  intros Hk.
  assert (Hget : forall i, Q (Http (key state) (GetId i)))
    by (rewrite Hk; apply Q_lookup).
  unfold handleUnit.
  apply only_bind; [apply only_mapID; auto|].
  intros actualID. cbv zeta.
  apply only_bind; [apply only_unit_fold; auto; apply only_ret|].
  intros map.
  apply only_bind; [apply only_request; rewrite Hk; now apply Q_req|].
  intros res.
  apply only_bind; [apply only_field_of|]. intros unitID.
  apply only_bind; [now apply only_delay|]. intros _. apply only_ret.
Qed.

(** A request of [handleLesson] that is not the upsert of the lesson. *)
Lemma only_plain_request E r :
  class_of r = None -> only Q (res <- request E k0 r ;; field_of res).
Proof.
  intros Hr. apply only_bind; [apply only_request; now apply Q_req|].
  intros res. apply only_field_of.
Qed.

Lemma always_handleLesson E state id name unit spec extendsTemplate
    lessonClass dir :
  key state = k0 -> known_class lessonClass ->
  always Q (handleLesson E state id name unit spec extendsTemplate
              lessonClass dir).
Proof.
  intros Hk Hclass.
  assert (Hd : only Q (delay state)) by now apply only_delay.
  assert (Hm : forall i, only Q (mapID E i state)).
  { intros i. apply only_mapID; auto. intros i'. rewrite Hk. apply Q_lookup. }
  assert (Hplain : forall r, class_of r = None ->
            only Q (request E (key state) r))
    by (intros r Hr; apply only_request; rewrite Hk; now apply Q_req).
  unfold handleLesson. fold (template_dir E state extendsTemplate).
  generalize (template_dir E state extendsTemplate) as td. intros td.
  cbv zeta.
  apply always_bind; [apply always_of_only, Hm|]. intros actualID _.
  apply always_bind; [apply always_of_only, Hm|]. intros actualUnitID _.
  apply always_bind.
  { apply always_of_only.
    destruct (maybe_truthy actualID); [|apply only_ret].
    rewrite Hk. now apply only_plain_request. }
  intros project0 _.
  apply always_bind; [apply always_of_only, Hd|]. intros _ _.
  assert (Hnew : only Q (res <- request E (key state) PostProjectNew ;;
                         p' <- field_of res ;; delay state ;;; ret p')).
  { apply only_bind; [now apply Hplain|]. intros res.
    apply only_bind; [apply only_field_of|]. intros p'.
    apply only_bind; [exact Hd|]. intros _. apply only_ret. }
  apply always_bind.
  { apply always_of_only. destruct project0 as [p|]; [|exact Hnew].
    destruct (Js.truthy p); [apply only_ret|exact Hnew]. }
  intros project1 _.
  apply always_bind.
  { apply always_of_only. destruct project1 as [p|]; [|apply only_throw].
    destruct (Js.truthy p); [apply only_ret|apply only_throw]. }
  intros project _.
  apply always_bind;
    [apply always_of_only, only_request; rewrite Hk; now apply Q_class|].
  intros res _.
  apply always_bind; [apply always_of_only, only_field_of|].
  intros lessonID0 _.
  apply always_bind; [apply always_of_only, Hd|]. intros _ _.
  apply always_bind.
  { apply always_of_only. destruct lessonID0 as [l|]; [|apply only_throw].
    destruct (Js.truthy l); [apply only_ret|apply only_throw]. }
  intros lessonID _.
  apply always_bind; [apply always_of_only, only_read_config|]. intros lc _.
  apply always_bind.
  { apply always_of_only. destruct td as [t|]; [|apply only_ret].
    destruct (Js.truthy t); [apply only_read_config|apply only_ret]. }
  intros tc _.
  apply always_bind.
  { apply always_of_only.
    destruct (merge_config lc tc (configTemplate state)); [|apply only_ret].
    apply only_bind; [now apply Hplain|]. intros res'.
    apply only_bind; [apply only_field_of|]. intros _. exact Hd. }
  intros _ _.
  apply always_bind.
  { apply always_of_only.
    match goal with |- only Q (match ?x with _ => _ end) =>
      destruct x as [video|]; [|apply only_ret] end.
    destruct (Js.truthy video); [|apply only_ret].
    apply only_bind; [now apply Hplain|]. intros res'.
    apply only_bind; [apply only_field_of|]. intros _. exact Hd. }
  intros _ _.
  apply always_bind; [apply always_of_only, only_desired_files|].
  intros files _.
  apply always_bind; [apply always_of_only; now apply Hplain|].
  intros res' _.
  apply always_bind; [apply always_of_only, only_field_of|].
  intros token0 _.
  apply always_bind.
  { apply always_of_only. destruct token0 as [t|]; [|apply only_throw].
    destruct (Js.truthy t); [apply only_ret|apply only_throw]. }
  intros token _.
  apply always_bind; [now apply always_uploadFiles|]. intros _ _.
  apply always_of_only, only_ret.
Qed.

Lemma only_manifest_head E st manifest :
  only Q (manifest_head E st manifest).
Proof.
  unfold manifest_head.
  apply only_bind; [apply only_of_option|]. intros text.
  apply only_bind; [apply only_of_option|]. intros data.
  destruct (negb (typeof_object data) || isArray data);
    [apply only_throw|].
  cbv zeta. only_tac.
Qed.

Lemma only_manifest_unit E state manifest data :
  key state = k0 -> only Q (manifest_unit E state manifest data).
Proof.
  intros Hk. unfold manifest_unit.
  repeat (apply only_bind; [apply only_property|]; intros ?).
  repeat match goal with
         | |- only _ (match ?x with _ => _ end) => destruct x
         end; try apply only_throw.
  all: apply only_bind; [apply only_handleUnit; exact Hk|];
       intros unitID; apply only_effect; auto.
Qed.

(** The class that the [lesson] case computes is a known one. *)
Lemma class_known s :
  known_class match Js.lookup s classMap with
              | Js.Own n => ClassNum n
              | Js.Inherited name => ClassProto name
              | Js.Missing => ClassNum 0
              end.
Proof.
  unfold Js.lookup, classMap. cbn [Js.get].
  repeat match goal with
         | |- context [if ?b then _ else _] => destruct b eqn:?
         end; simpl; try lia; assumption.
Qed.

Lemma always_manifest_lesson E state manifest data :
  key state = k0 -> always Q (manifest_lesson E state manifest data).
Proof.
  intros Hk. unfold manifest_lesson.
  repeat (apply always_bind; [apply always_of_only, only_property|];
          intros ? _).
  repeat match goal with
         | |- always _ (match ?x with _ => _ end) => destruct x
         | |- always _ (let _ := _ in _) => cbv zeta
         end; try apply always_of_only, only_throw.
  all: apply always_bind;
         [apply always_handleLesson;
          [exact Hk
          |match goal with
           | |- known_class (match ?c with _ => _ end) =>
               destruct c; [apply class_known|simpl; lia]
           end]|];
       intros lessonID _; apply always_of_only, only_effect; auto.
Qed.

Lemma always_manifest_typed E state manifest data :
  key state = k0 -> always Q (manifest_typed E state manifest data).
Proof.
  intros Hk. unfold manifest_typed.
  apply always_bind; [apply always_of_only, only_property|]. intros typev _.
  destruct (negb (truthy_opt typev)); [apply always_of_only, only_ret|].
  apply always_bind;
    [|intros _ _; apply always_of_only, only_delay; auto].
  destruct typev as [[| | |t| |]|]; try apply always_of_only, only_throw.
  destruct (t =? "unit");
    [now apply always_of_only, only_manifest_unit|].
  destruct (t =? "lesson");
    [now apply always_manifest_lesson|apply always_of_only, only_throw].
Qed.

Lemma quiet_of_only {A} (m : M A) : only Q m -> quiet_ok Q m.
Proof.
  intros Hm w. destruct (Hm w) as [l [H [F _]]]. exists l. auto.
Qed.

Lemma quiet_bind {A B} (m : M A) (k : A -> M B) :
  quiet_ok Q m -> (forall a, quiet_ok Q (k a)) -> quiet_ok Q (bind m k).
Proof.
  intros Hm Hk w. destruct (Hm w) as [l1 [H1 F1]]. unfold bind.
  destruct (m w) as [[a|e|] w1]; simpl in *.
  - destruct (Hk a w1) as [l2 [H2 F2]]. exists (l1 ++ l2).
    rewrite H2, H1, app_assoc. split; [reflexivity|].
    intros b Hb. apply Forall_app. split; [now apply (F1 a)|now apply (F2 b)].
  - exists l1. split; [exact H1|]. discriminate.
  - exists l1. split; [exact H1|]. discriminate.
Qed.

Lemma quiet_for_each {A} (xs : list A) body :
  (forall x, quiet_ok Q (body x)) -> quiet_ok Q (for_each xs body).
Proof.
  intros Hb. induction xs as [|x xs IH]; simpl.
  - apply quiet_of_only, only_ret.
  - apply quiet_bind; [apply Hb|]. intros _. exact IH.
Qed.

Lemma quiet_manifest_upload E recurse state manifest data :
  (forall s p m, quiet_ok Q (recurse s p m)) ->
  quiet_ok Q (manifest_upload E recurse state manifest data).
Proof.
  intros Hr. unfold manifest_upload. cbv zeta.
  apply quiet_bind; [apply quiet_of_only, only_property|]. intros uploadv.
  destruct (truthy_opt uploadv); [|apply quiet_of_only, only_ret].
  destruct uploadv as [[| | | |items|]|];
    try (apply quiet_of_only, only_throw).
  apply quiet_for_each. intros [| | |item| |];
    try (apply quiet_of_only, only_throw). apply Hr.
Qed.

Hypothesis Q_error : forall msg, Q (ConsoleError msg).

Lemma manifest_head_key E state manifest data state' :
  returns (manifest_head E state manifest) (data, state') ->
  key state' = key state.
Proof.
  intros [w [w1 H]]. revert H. unfold manifest_head, bind, of_option.
  destruct (fs_readFile E manifest) as [text|]; simpl; [|discriminate].
  destruct (JSON_parse E text) as [d|]; simpl; [|discriminate].
  destruct d as [|b|n|str|props|props]; simpl; try discriminate.
  destruct (Js.get "templates" props) as [[|b|n|t|ps|ps]|];
    destruct (Js.get "configTemplate" props) as [[|b'|n'|t'|ps'|ps']|];
    simpl; repeat case_test; simpl; try discriminate;
    intros [= <- <- <-]; reflexivity.
Qed.

Lemma always_manifest_upload E recurse state manifest data :
  key state = k0 ->
  (forall s p m, key s = k0 -> always Q (recurse s p m)) ->
  always Q (manifest_upload E recurse state manifest data).
Proof.
  intros Hk Hr. unfold manifest_upload. cbv zeta.
  apply always_bind; [apply always_of_only, only_property|].
  intros uploadv _.
  destruct (truthy_opt uploadv); [|apply always_of_only, only_ret].
  destruct uploadv as [[| | | |items|]|];
    try (apply always_of_only, only_throw).
  apply always_for_each. intros [| | |item| |];
    try (apply always_of_only, only_throw). apply Hr. exact Hk.
Qed.

Lemma always_readManifest E fuel :
  forall state parent manifest,
    key state = k0 ->
    always Q (readManifest E fuel state parent manifest).
Proof.
  induction fuel as [|fuel IH]; intros state parent manifest Hk w.
  - exists []. simpl. rewrite app_nil_r. split; [reflexivity|constructor].
  - cbn [readManifest]. unfold catch.
    match goal with |- context [bind ?m ?k w] =>
      assert (Hbody : always Q (bind m k)) end.
    { apply always_bind; [apply always_of_only, only_manifest_head|].
      intros [data state'] Hhead.
      pose proof (manifest_head_key _ _ _ _ _ Hhead) as Hk'.
      rewrite Hk in Hk'. cbn [fst snd].
      apply always_bind; [now apply always_manifest_upload|].
      intros _ _. now apply always_manifest_typed. }
    destruct (Hbody w) as [l [Hl F]].
    match goal with |- context [bind ?m ?k w] =>
      destruct (bind m k w) as [[u|e|] w1] end; simpl in *.
    + now exists l.
    + rewrite manifest_error_spec. simpl. eexists.
      rewrite Hl, <- app_assoc. split; [reflexivity|].
      apply Forall_app. split; [exact F|]. repeat constructor.
      apply Q_error.
    + now exists l.
Qed.

End HandlerFootprint.

Section ManifestErrors.
Import Upload Json.


Lemma quiet_readManifest E fuel :
  forall state parent manifest,
    quiet_ok no_console_error (readManifest E fuel state parent manifest).
Proof.
  assert (Qh : forall k r, no_console_error (Http k r)) by (intros; exact I).
  assert (Qs : forall ms, no_console_error (Sleep ms)) by (intros; exact I).
  assert (Ql : forall msg, no_console_error (ConsoleLog msg))
    by (intros; exact I).
  assert (Qu : forall t f, no_console_error (UploadFiles t f))
    by (intros; exact I).
  induction fuel as [|fuel IH]; intros state parent manifest w.
  - exists []. simpl. rewrite app_nil_r. split; [reflexivity|discriminate].
  - cbn [readManifest]. unfold catch.
    match goal with |- context [bind ?m ?k w] =>
      assert (Hbody : quiet_ok no_console_error (bind m k)) end.
    { apply quiet_bind; [apply quiet_of_only, only_manifest_head|].
      intros head. apply quiet_bind; [now apply quiet_manifest_upload|].
      intros _. apply quiet_of_always.
      now apply (always_manifest_typed no_console_error (key (snd head))). }
    destruct (Hbody w) as [l [Hl F]].
    match goal with |- context [bind ?m ?k w] =>
      destruct (bind m k w) as [[u|e|] w1] end; simpl in *.
    + exists l. split; [exact Hl|]. intros a _. now apply (F u).
    + rewrite manifest_error_spec. simpl. eexists.
      rewrite Hl, <- app_assoc. split; [reflexivity|discriminate].
    + exists l. split; [exact Hl|discriminate].
Qed.

(** X6.  [readManifest] reports every error and nothing else: when it
    returns, it has written no line to [console.error], whatever the
    manifests below it did; when it throws, the last thing it did is to
    write the line that names the manifest (and the manifest that referred
    to it), and the error is the one that arose. *)
Theorem X6_readManifest_reports_what_it_throws :
  forall E fuel state parent manifest w r w',
    readManifest E fuel state parent manifest w = (r, w') ->
    exists l,
      log w' = log w ++ l
      /\ match r with
         | Ok _ => Forall no_console_error l
         | Throw _ =>
             exists l0,
               l = l0 ++ [ConsoleError (error_header parent manifest)]
         | Diverge => True
         end.
Proof.
  intros E fuel state parent manifest w r w' H.
  destruct (quiet_readManifest E fuel state parent manifest w) as [l [Hl F]].
  rewrite H in Hl, F. simpl in Hl, F. exists l. split; [exact Hl|].
  destruct r as [u|e|]; [now apply (F u)| |exact I].
  destruct fuel as [|fuel]; [discriminate|].
  cbn [readManifest] in H. unfold catch in H.
  match type of H with context [bind ?m ?k w] =>
    assert (Hbody : quiet_ok no_console_error (bind m k));
    [|destruct (Hbody w) as [l1 [Hl1 _]];
      destruct (bind m k w) as [[u|e1|] w1]] end.
  { apply quiet_bind; [apply quiet_of_only, only_manifest_head|].
    intros head. apply quiet_bind.
    - apply quiet_manifest_upload. intros s p m.
      apply quiet_readManifest.
    - intros _. apply quiet_of_always.
      apply (always_manifest_typed no_console_error (key (snd head)));
        try (intros; exact I). reflexivity. }
  - discriminate.
  - rewrite manifest_error_spec in H. injection H as <- <-.
    simpl in Hl, Hl1. rewrite Hl1, <- app_assoc in Hl.
    apply app_inv_head in Hl. subst l. now exists l1.
  - discriminate.
Qed.

(** X6, at an instance: the course on a platform that knows no name.  The
    lesson of the first unit cannot be found; the error is reported for
    the unit and then for the root. *)
Lemma X6_witness :
  exists w' l0,
    readManifest
      (mkEnv (fun _ _ => Rejected (Some 404%N)) demo_socket (Js.join "/")
         demo_dirname
         demo_relative (fun p => Js.has p demo_files)
         (fun p => Js.get p demo_files) (fun text => Js.get text demo_json)
         demo_walkdir)
      2 (initial_state "key") None "course/manifest.json" initial_world
    = (Throw (Error_ "Could not find an ID for intro."), w')
    /\ log w' = l0 ++ [ConsoleError
                         (error_header None "course/manifest.json")].
Proof.
  assert (H : exists w',
    readManifest
      (mkEnv (fun _ _ => Rejected (Some 404%N)) demo_socket (Js.join "/")
         demo_dirname
         demo_relative (fun p => Js.has p demo_files)
         (fun p => Js.get p demo_files) (fun text => Js.get text demo_json)
         demo_walkdir)
      2 (initial_state "key") None "course/manifest.json" initial_world
    = (Throw (Error_ "Could not find an ID for intro."), w')).
  { eexists. vm_compute. reflexivity. }
  destruct H as [w' H].
  destruct (X6_readManifest_reports_what_it_throws _ _ _ _ _ _ _ _ H)
    as [l [Hl [l0 Hl0]]].
  exists w', l0. split; [exact H|]. rewrite Hl, Hl0. reflexivity.
Defined.

(** X7.  A manifest whose text is not a JSON object is refused before
    anything else happens: an array or a scalar with the error of
    [readManifest], the value [null] (an object for [typeof]) with the
    [TypeError] of its first property access.  The only trace is the line
    on [console.error]. *)
Theorem X7_manifest_must_be_an_object :
  forall E fuel state parent manifest text data w,
    fs_readFile E manifest = Some text ->
    JSON_parse E text = Some data ->
    (forall props, data <> JObj props) ->
    readManifest E (S fuel) state parent manifest w =
    (Throw (if is_null data then TypeError
            else Error_ "Manifest must be an object!"),
     mkWorld (counters w) (memos w)
       (log w ++ [ConsoleError (error_header parent manifest)])).
Proof.
  intros E fuel state parent manifest text data w Hread Hparse Hobj.
  cbn [readManifest]. unfold catch, bind at 1 2. unfold manifest_head.
  unfold bind at 1. unfold of_option at 1. rewrite Hread. unfold ret at 1.
  unfold bind at 1. unfold of_option at 1. rewrite Hparse. unfold ret at 1.
  destruct data as [|b|n|s|props|props]; simpl;
    try apply manifest_error_spec.
  now elim (Hobj props).
Qed.

(** X7, at an instance: a manifest that holds an array. *)
Lemma X7_witness :
  fst (readManifest
         (mkEnv demo_axios demo_socket (Js.join "/") demo_dirname demo_relative
            (fun _ => true) (fun _ => Some "[]")
            (fun _ => Some (JArr [])) demo_walkdir)
         1 (initial_state "key") None "manifest.json" initial_world)
  = Throw (Error_ "Manifest must be an object!").
Proof.
  rewrite (X7_manifest_must_be_an_object
             (mkEnv demo_axios demo_socket (Js.join "/") demo_dirname demo_relative
                (fun _ => true) (fun _ => Some "[]")
                (fun _ => Some (JArr [])) demo_walkdir)
             0 (initial_state "key") None "manifest.json" "[]" (JArr [])
             initial_world eq_refl eq_refl).
  - reflexivity.
  - intros props. discriminate.
Defined.

(** X8.  What every request of an upload carries.  Whatever the
    manifests hold and however the upload ends, each request it makes has
    the API key given to [upload] in its [authorization] header, and each
    upsert of a lesson gives the lesson a known class: 0 for [null], 1 to
    4 for the names of the class map, or, when the manifest names a
    property of [Object.prototype] as its class, the value the class map
    inherits under that name. *)
Theorem X8_requests_carry_the_key_and_a_known_class :
  forall E fuel manifest k w,
    exists l,
      log (snd (upload E fuel manifest k w)) = log w ++ l
      /\ Forall (keyed k) l.
Proof.
  intros E fuel manifest k w. unfold upload.
  apply (always_readManifest (keyed k) k); try (intros; exact I).
  - intros r Hr. simpl. rewrite Hr. auto.
  - intros actualID id name unit project spec lessonClass Hc. simpl. auto.
  - reflexivity.
Qed.

End ManifestErrors.
Section LessonOrder.
Import Upload Json.

(** A request, then a computation whose effects lie in [Q2] and that may
    be left waiting. *)
Lemma waits_request_then Q1 Q2 {A} E k r (rest : Response -> M A) :
  (forall res, always Q2 (rest res)) ->
  ends_or_waits Q1
    (fun _ t => exists tail, t = Http k r :: tail /\ Forall Q2 tail)
    (fun _ t => t = [] \/ exists tail, t = Http k r :: tail /\ Forall Q2 tail)
    (bind (request E k r) rest).
Proof.
  intros Hrest w. exists []. unfold bind, request.
  set (w1 := mkWorld (counters w) (memos w) (log w ++ [Http k r])).
  destruct (Hrest (axios E (requests w) r) w1) as [l [Hl F]].
  exists (Http k r :: l). simpl. split.
  - rewrite Hl. unfold w1. simpl. now rewrite <- app_assoc.
  - split; [constructor|].
    destruct (fst (rest (axios E (requests w) r) w1)).
    + now exists l.
    + right. now exists l.
    + now exists l.
Qed.

(** X9.  The order of [handleLesson].  Before the lesson is upserted,
    [handleLesson] only looks up ids and the project and, if need be,
    creates a project.  The upsert of the lesson (with the name, the
    spec and the class it was given) is sent at most once; the config,
    the video, the request of the token and the hand-over of the files
    come after it, never before.  When [handleLesson] returns, or is left
    waiting for [uploadFiles], the upsert was sent. *)
Theorem X9_lesson_is_upserted_before_its_uploads :
  forall E state id name unit spec extendsTemplate lessonClass dir w r w',
    handleLesson E state id name unit spec extendsTemplate lessonClass dir w
    = (r, w') ->
    exists before after,
      log w' = log w ++ before ++ after
      /\ Forall before_upsert before
      /\ (after = []
          \/ exists actualID actualUnitID project tail,
               after = Http (key state)
                         (PutLesson actualID id name actualUnitID project
                            spec lessonClass) :: tail
               /\ Forall after_upsert tail)
      /\ match r with
         | Ok _ => after <> []
         | Throw _ => True
         | Diverge => after <> []
         end.
Proof.
  intros E state id name unit spec extendsTemplate lessonClass dir w r w' H.
  set (P := fun (_ t : list Effect) =>
         exists actualID actualUnitID project tail,
           t = Http (key state)
                 (PutLesson actualID id name actualUnitID project spec
                    lessonClass) :: tail
           /\ Forall after_upsert tail).
  set (PT := fun (_ : Error) (t : list Effect) => t = [] \/ P [] t).
  assert (HPT : forall e, PT e []) by (intros e; now left).
  assert (Hd : forall Q, (forall ms, Q (Sleep ms)) ->
                         (forall msg, Q (ConsoleLog msg)) ->
                         only Q (delay state))
    by (intros Q Qs Ql; now apply only_delay).
  assert (Hends : ends_or_waits before_upsert P PT
            (handleLesson E state id name unit spec extendsTemplate
               lessonClass dir)).
  { unfold handleLesson. fold (template_dir E state extendsTemplate).
    generalize (template_dir E state extendsTemplate) as td. intros td.
    cbv zeta.
    apply waits_bind; [exact HPT|apply only_mapID; intros; exact I|].
    intros actualID _.
    apply waits_bind; [exact HPT|apply only_mapID; intros; exact I|].
    intros actualUnitID _.
    apply waits_bind; [exact HPT|only_tac|]. intros project0 _.
    apply waits_bind; [exact HPT|apply Hd; intros; exact I|]. intros _ _.
    apply waits_bind; [exact HPT|only_tac|]. intros project1 _.
    apply waits_bind; [exact HPT|only_tac|]. intros project _.
    assert (Htail : ends_or_waits before_upsert
              (fun _ t => exists tail,
                 t = Http (key state)
                       (PutLesson actualID id name actualUnitID project spec
                          lessonClass) :: tail
                 /\ Forall after_upsert tail)
              (fun _ t => t = []
                 \/ exists tail,
                      t = Http (key state)
                            (PutLesson actualID id name actualUnitID project
                               spec lessonClass) :: tail
                      /\ Forall after_upsert tail)
              (res <- request E (key state)
                        (PutLesson actualID id name actualUnitID project spec
                           lessonClass) ;;
               lessonID <- field_of res ;;
               delay state ;;;
               lessonID <- (match lessonID with
                            | Some l => if Js.truthy l then ret l else
                                throw (Error_ "Could not create or find a lesson!")
                            | None =>
                                throw (Error_ "Could not create or find a lesson!")
                            end) ;;
               lessonConfig <- read_config E (Path_join E [dir; "config.json"]) ;;
               templateConfig <- (match td with
                                  | Some t =>
                                      if Js.truthy t
                                      then read_config E
                                             (Path_join E [t; "config.json"])
                                      else ret JNull
                                  | None => ret JNull
                                  end) ;;
               (match merge_config lessonConfig templateConfig
                        (configTemplate state) with
                | Some configData =>
                    res <- request E (key state)
                             (PutConfig lessonID configData) ;;
                    field_of res ;;; delay state
                | None => ret tt
                end) ;;;
               (match (if fs_existsSync E (Path_join E [dir; "video.cv"])
                       then Some (Path_join E [dir; "video.cv"])
                       else match td with
                            | Some t =>
                                if Js.truthy t
                                   && fs_existsSync E
                                        (Path_join E [t; "video.cv"])
                                then Some (Path_join E [t; "video.cv"])
                                else None
                            | None => None
                            end) with
                | Some v =>
                    if Js.truthy v
                    then res <- request E (key state) (PutVideo lessonID v) ;;
                         field_of res ;;; delay state
                    else ret tt
                | None => ret tt
                end) ;;;
               files <- desired_files E state td dir ;;
               res <- request E (key state) (GetToken project) ;;
               token <- field_of res ;;
               token <- (match token with
                         | Some t => if Js.truthy t then ret t else
                             throw (Error_ "Could not get a token!")
                         | None => throw (Error_ "Could not get a token!")
                         end) ;;
               uploadFiles E token files ;;;
               ret lessonID)).
    { apply waits_request_then. intros res.
      assert (Hda : only after_upsert (delay state))
        by (apply Hd; intros; exact I).
      apply always_bind; [apply always_of_only, only_field_of|].
      intros lessonID0 _.
      apply always_bind; [apply always_of_only, Hda|]. intros _ _.
      apply always_bind; [apply always_of_only; only_tac|].
      intros lessonID _.
      apply always_bind; [apply always_of_only, only_read_config|].
      intros lc _.
      apply always_bind.
      { apply always_of_only. destruct td as [t|]; [|apply only_ret].
        destruct (Js.truthy t); [apply only_read_config|apply only_ret]. }
      intros tc _.
      apply always_bind; [apply always_of_only; only_tac|]. intros _ _.
      apply always_bind; [apply always_of_only; only_tac|]. intros _ _.
      apply always_bind; [apply always_of_only, only_desired_files|].
      intros files _.
      apply always_bind; [apply always_of_only; only_tac|]. intros res' _.
      apply always_bind; [apply always_of_only; only_tac|]. intros token0 _.
      apply always_bind; [apply always_of_only; only_tac|]. intros token _.
      apply always_bind; [now apply always_uploadFiles|]. intros _ _.
      apply always_of_only, only_ret. }
    intros w0. destruct (Htail w0) as [l [t [Hl [F Hpost]]]].
    exists l, t. split; [exact Hl|]. split; [exact F|].
    destruct (fst _).
    - destruct Hpost as [tail [-> Ft]].
      now exists actualID, actualUnitID, project, tail.
    - destruct Hpost as [->|[tail [-> Ft]]]; [now left|right].
      now exists actualID, actualUnitID, project, tail.
    - destruct Hpost as [tail [-> Ft]].
      now exists actualID, actualUnitID, project, tail. }
  destruct (Hends w) as [l [t [Hl [F Hpost]]]]. rewrite H in Hl, Hpost.
  simpl in Hl, Hpost. exists l, t. split; [exact Hl|]. split; [exact F|].
  destruct r as [a|e|].
  - split; [right; exact Hpost|].
    destruct Hpost as [? [? [? [? [-> _]]]]]. discriminate.
  - split; [|exact I]. destruct Hpost as [->|Hp]; [now left|now right].
  - split; [right; exact Hpost|].
    destruct Hpost as [? [? [? [? [-> _]]]]]. discriminate.
Qed.

(** X9, at an instance: a platform on which no project can be found or
    created; nothing is written for the lesson. *)
Lemma X9_witness :
  exists w' before,
    handleLesson demo (initial_state "key") "intro" "Intro" None None None
      (ClassNum 1) "les" initial_world
    = (Throw (Error_ "Could not create or find a project!"), w')
    /\ log w' = before
    /\ Forall before_upsert before.
Proof.
  assert (H : exists w',
    handleLesson demo (initial_state "key") "intro" "Intro" None None None
      (ClassNum 1) "les" initial_world
    = (Throw (Error_ "Could not create or find a project!"), w'))
    by (eexists; vm_compute; reflexivity).
  destruct H as [w' H].
  destruct (X9_lesson_is_upserted_before_its_uploads _ _ _ _ _ _ _ _ _ _ _ _ H)
    as [before [after [Hl [F [Hafter _]]]]].
  assert (Hw : log w' = [Http "key" (GetId "intro");
                         Http "key" (GetLesson "L1");
                         Http "key" PostProjectNew])
    by (vm_compute in H; now injection H as <-).
  exists w', before. split; [exact H|]. split; [|exact F].
  destruct Hafter as [->|[a [u [p [tail [-> _]]]]]].
  - rewrite Hl. simpl. now rewrite app_nil_r.
  - exfalso. rewrite Hw in Hl. simpl in Hl.
    assert (Hin : In (Http (key (initial_state "key"))
                        (PutLesson a "intro" "Intro" u p None (ClassNum 1)))
                    [Http "key" (GetId "intro"); Http "key" (GetLesson "L1");
                     Http "key" PostProjectNew])
      by (rewrite Hl; apply in_or_app; right; now left).
    simpl in Hin. intuition discriminate.
Defined.

End LessonOrder.
(** ** The README pass and the file set *)
Section Readme.
Import Upload.

Lemma append_assoc_s (a b c : string) :
  ((a ++ b) ++ c = a ++ b ++ c)%string.
Proof. induction a as [|x a IH]; simpl; [reflexivity|now rewrite IH]. Qed.

Lemma append_nil_s (a : string) : (a ++ "")%string = a.
Proof. induction a as [|x a IH]; simpl; [reflexivity|now rewrite IH]. Qed.

Lemma substring_all s : String.substring 0 (String.length s) s = s.
Proof. induction s as [|c s IH]; simpl; [reflexivity|now rewrite IH]. Qed.

Lemma drop_app p r : drop (String.length p) (p ++ r)%string = r.
Proof.
  unfold drop, Js.substring_from. induction p as [|c p IH]; simpl.
  - rewrite Nat.sub_0_r. apply substring_all.
  - exact IH.
Qed.

Lemma startsWith_split p s :
  Js.startsWith p s = true -> s = (p ++ drop (String.length p) s)%string.
Proof.
  unfold Js.startsWith. revert s. induction p as [|c p IH]; intros s H.
  - simpl. unfold drop, Js.substring_from. rewrite Nat.sub_0_r.
    now rewrite substring_all.
  - destruct s as [|c' s]; simpl in H; [discriminate|].
    destruct (Ascii.ascii_dec c c') as [->|]; [|discriminate].
    simpl. f_equal. rewrite (IH s H) at 1. f_equal.
Qed.

Lemma startsWith_app p r : Js.startsWith p (p ++ r)%string = true.
Proof.
  unfold Js.startsWith. induction p as [|c p IH]; simpl.
  - now destruct r.
  - destruct (Ascii.ascii_dec c c); [exact IH|congruence].
Qed.

Lemma span_split p s a b : span p s = (a, b) -> s = (a ++ b)%string.
Proof.
  revert a b. induction s as [|c s IH]; intros a b; simpl.
  - now intros [= <- <-].
  - destruct (p c).
    + destruct (span p s) as [a' b'] eqn:Hs. intros [= <- <-].
      simpl. f_equal. now apply IH.
    + now intros [= <- <-].
Qed.

(** The longest prefix in a class, when the class ends where [r] starts. *)
Lemma span_app p a r :
  all_chars p a = true ->
  match r with String c _ => p c = false | EmptyString => True end ->
  span p (a ++ r)%string = (a, r).
Proof.
  intros Ha Hr. induction a as [|c a IH]; simpl in *.
  - destruct r as [|c r]; [reflexivity|]. simpl. now rewrite Hr.
  - apply andb_prop in Ha. destruct Ha as [Hc Ha].
    rewrite Hc, (IH Ha). reflexivity.
Qed.

Lemma length_append (a b : string) :
  String.length (a ++ b)%string = (String.length a + String.length b)%nat.
Proof. induction a; simpl; auto. Qed.

(** What a match of the pattern leaves is the end of the string. *)
Lemma match_image_rest s name alt rest :
  match_image s = Some (name, alt, rest) ->
  exists c mid, s = String c (mid ++ rest)%string.
Proof.
  unfold match_image.
  destruct (Js.startsWith "$$IMAGE" s) eqn:Hp; [|discriminate].
  apply startsWith_split in Hp. simpl String.length in Hp.
  destruct (span is_space (drop 7 s)) as [sp1 r1] eqn:H1.
  destruct (span is_name_char r1) as [n r2] eqn:H2.
  apply span_split in H1, H2.
  destruct ((sp1 =? "") || (n =? "")); [discriminate|].
  destruct (Js.startsWith "$$" r2) eqn:Hq.
  - intros [= <- <- <-]. apply startsWith_split in Hq.
    simpl String.length in Hq.
    exists "$"%char, ("$IMAGE" ++ sp1 ++ n ++ "$$")%string.
    rewrite Hp, H1, H2, Hq at 1. simpl.
    rewrite !append_assoc_s. reflexivity.
  - destruct (span is_space r2) as [sp2 r3] eqn:H3.
    destruct (span is_name_char r3) as [a r4] eqn:H4.
    apply span_split in H3, H4.
    destruct ((sp2 =? "") || (a =? "")); [discriminate|].
    destruct (Js.startsWith "$$" r4) eqn:Hr; [|discriminate].
    intros [= <- <- <-]. apply startsWith_split in Hr.
    simpl String.length in Hr.
    exists "$"%char, ("$IMAGE" ++ sp1 ++ n ++ sp2 ++ a ++ "$$")%string.
    rewrite Hp, H1, H2, H3, H4, Hr at 1. simpl.
    rewrite !append_assoc_s. reflexivity.
Qed.

(** Skipping the rest of a match. *)
Lemma replace_images_skip state mid rest w :
  replace_images state (String.length mid) (mid ++ rest)%string w
  = replace_images state 0 rest w.
Proof.
  induction mid as [|c mid IH]; simpl; [|exact IH].
  destruct rest; reflexivity.
Qed.

(** The pass at a match: the replacer, then the pass on what follows. *)
Lemma replace_images_match state s name alt rest w :
  match_image s = Some (name, alt, rest) ->
  replace_images state 0 s w
  = (tag <- image_tag state name alt ;;
     tail <- replace_images state 0 rest ;;
     ret (tag ++ tail)%string) w.
Proof.
  intros Hm. destruct (match_image_rest _ _ _ _ Hm) as [c [mid Hs]].
  subst s. cbn [replace_images]. rewrite Hm.
  rewrite length_append, Nat.add_sub. unfold bind.
  destruct (image_tag state name alt w) as [[tag|e|] w1]; try reflexivity.
  now rewrite replace_images_skip.
Qed.

Lemma match_image_no_dollar c s :
  not_dollar c = true -> match_image (String c s) = None.
Proof.
  intros Hc. unfold match_image, Js.startsWith.
  change (String.prefix "$$IMAGE" (String c s))
    with (if Ascii.ascii_dec "$" c then String.prefix "$IMAGE" s else false).
  destruct (Ascii.ascii_dec "$" c) as [<-|]; [discriminate|reflexivity].
Qed.

(** The pass copies what comes before the first [$]. *)
Lemma replace_images_prefix state pre s w :
  all_chars not_dollar pre = true ->
  replace_images state 0 (pre ++ s)%string w
  = (tail <- replace_images state 0 s ;; ret (pre ++ tail)%string) w.
Proof.
  intros Hpre. revert w. induction pre as [|c pre IH]; intros w; simpl.
  - unfold bind, ret. now destruct (replace_images state 0 s w) as [[t|e|] w1].
  - simpl in Hpre. apply andb_prop in Hpre. destruct Hpre as [Hc Hpre].
    rewrite (match_image_no_dollar c _ Hc). unfold bind. rewrite (IH Hpre).
    unfold bind, ret.
    now destruct (replace_images state 0 s w) as [[t|e|] w1].
Qed.

Lemma name_char_not_space c : is_name_char c = true -> is_space c = false.
Proof.
  unfold is_name_char. intros H. apply andb_prop in H.
  destruct H as [H _]. now apply negb_true_iff in H.
Qed.

(** The two forms of the placeholder are matches of the pattern. *)
Lemma match_image_placeholder name post :
  all_chars is_name_char name = true -> name <> "" ->
  match_image ("$$IMAGE " ++ name ++ "$$" ++ post)%string
  = Some (name, None, post).
Proof.
  intros Hn Hne. unfold match_image.
  change ("$$IMAGE " ++ name ++ "$$" ++ post)%string
    with ("$$IMAGE" ++ " " ++ name ++ "$$" ++ post)%string.
  rewrite startsWith_app.
  change 7%nat with (String.length "$$IMAGE"). rewrite drop_app.
  rewrite (span_app is_space " " (name ++ "$$" ++ post)); [|reflexivity|].
  2:{ destruct name as [|c name]; [congruence|]. simpl in *.
      apply andb_prop in Hn. now apply name_char_not_space. }
  rewrite (span_app is_name_char name ("$$" ++ post)); [|exact Hn|reflexivity].
  destruct name as [|c name]; [congruence|].
  cbn [String.eqb orb]. rewrite startsWith_app.
  change 2%nat with (String.length "$$"). now rewrite drop_app.
Qed.

Lemma match_image_placeholder_alt name alt post :
  all_chars is_name_char name = true -> name <> "" ->
  all_chars is_name_char alt = true -> alt <> "" ->
  match_image ("$$IMAGE " ++ name ++ " " ++ alt ++ "$$" ++ post)%string
  = Some (name, Some alt, post).
Proof.
  intros Hn Hne Ha Hae. unfold match_image.
  change ("$$IMAGE " ++ name ++ " " ++ alt ++ "$$" ++ post)%string
    with ("$$IMAGE" ++ " " ++ name ++ " " ++ alt ++ "$$" ++ post)%string.
  rewrite startsWith_app.
  change 7%nat with (String.length "$$IMAGE"). rewrite drop_app.
  rewrite (span_app is_space " " (name ++ " " ++ alt ++ "$$" ++ post));
    [|reflexivity|].
  2:{ destruct name as [|c name]; [congruence|]. simpl in *.
      apply andb_prop in Hn. now apply name_char_not_space. }
  rewrite (span_app is_name_char name (" " ++ alt ++ "$$" ++ post));
    [|exact Hn|reflexivity].
  destruct name as [|c name]; [congruence|].
  cbn [String.eqb orb].
  change (Js.startsWith "$$" (" " ++ alt ++ "$$" ++ post)) with false.
  cbv iota.
  rewrite (span_app is_space " " (alt ++ "$$" ++ post)); [|reflexivity|].
  2:{ destruct alt as [|c' alt]; [congruence|]. simpl in *.
      apply andb_prop in Ha. now apply name_char_not_space. }
  rewrite (span_app is_name_char alt ("$$" ++ post)); [|exact Ha|reflexivity].
  destruct alt as [|c' alt]; [congruence|].
  cbn [String.eqb orb]. rewrite startsWith_app.
  change 2%nat with (String.length "$$"). now rewrite drop_app.
Qed.

(** X10.  The README pass on a text whose first [$] starts a placeholder,
    in either form ([$$IMAGE name$$], [$$IMAGE name alt$$]): what precedes
    the placeholder is copied, the placeholder is replaced by the image
    tag of [name] (with the alternative text, if given), and the pass goes
    on with what follows the placeholder.  An error of the replacer or of
    the rest of the pass is the error of the pass. *)
Theorem X10_placeholder_is_replaced_by_image_tag :
  forall state pre name post w,
    all_chars not_dollar pre = true ->
    all_chars is_name_char name = true -> name <> "" ->
    replace_images state 0 (pre ++ "$$IMAGE " ++ name ++ "$$" ++ post)%string
      w
    = (tag <- image_tag state name None ;;
       tail <- replace_images state 0 post ;;
       ret (pre ++ tag ++ tail)%string) w
    /\ forall alt,
         all_chars is_name_char alt = true -> alt <> "" ->
         replace_images state 0
           (pre ++ "$$IMAGE " ++ name ++ " " ++ alt ++ "$$" ++ post)%string w
         = (tag <- image_tag state name (Some alt) ;;
            tail <- replace_images state 0 post ;;
            ret (pre ++ tag ++ tail)%string) w.
Proof.
  intros state pre name post w Hpre Hn Hne. split; [|intros alt Ha Hae].
  - rewrite (replace_images_prefix _ _ _ _ Hpre). unfold bind at 1.
    rewrite (replace_images_match _ _ _ _ _ _
               (match_image_placeholder name post Hn Hne)).
    unfold bind, ret.
    destruct (image_tag state name None w) as [[tag|e|] w1]; try reflexivity.
    now destruct (replace_images state 0 post w1) as [[t|e|] w2].
  - rewrite (replace_images_prefix _ _ _ _ Hpre). unfold bind at 1.
    rewrite (replace_images_match _ _ _ _ _ _
               (match_image_placeholder_alt name alt post Hn Hne Ha Hae)).
    unfold bind, ret.
    destruct (image_tag state name (Some alt) w) as [[tag|e|] w1];
      try reflexivity.
    now destruct (replace_images state 0 post w1) as [[t|e|] w2].
Qed.

(** X10, at an instance: a logo of 64 by 32 pixels. *)
Lemma X10_witness :
  fst (replace_images
         (mkState 0 0 "key" None None
            (Some [("logo.png", mkImage "abc" "png" (Some 64%N) (Some 32%N))]))
         0 "See $$IMAGE logo.png$$ here." initial_world)
  = Ok "See ![{64x32}](https://img.cdn.cratecode.com/userfiles/img/abc.png) here.".
Proof.
  change "See $$IMAGE logo.png$$ here."
    with ("See " ++ "$$IMAGE " ++ "logo.png" ++ "$$" ++ " here.")%string.
  rewrite (proj1 (X10_placeholder_is_replaced_by_image_tag
                    (mkState 0 0 "key" None None
                       (Some [("logo.png",
                               mkImage "abc" "png" (Some 64%N) (Some 32%N))]))
                    "See " "logo.png" " here." initial_world
                    eq_refl eq_refl ltac:(discriminate))).
  vm_compute. reflexivity.
Defined.

(** X11.  A text without [$] passes the README pass unchanged, whether or
    not a table of images is set. *)
Theorem X11_text_without_dollar_is_unchanged :
  forall state s w,
    all_chars not_dollar s = true ->
    replace_images state 0 s w = (Ok s, w).
Proof.
  intros state s w Hs.
  pose proof (replace_images_prefix state s "" w Hs) as H.
  rewrite append_nil_s in H. rewrite H.
  unfold bind, ret. simpl. now rewrite append_nil_s.
Qed.

(** X11, at an instance. *)
Lemma X11_witness :
  replace_images (initial_state "key") 0 "# Title" initial_world
  = (Ok "# Title", initial_world).
Proof.
  apply X11_text_without_dollar_is_unchanged. reflexivity.
Defined.

(** X12.  Without a table of images a placeholder cannot be rendered:
    the README pass throws on the first one, and so does the step of the
    walk that reads a README with a placeholder. *)
Theorem X12_placeholder_needs_the_images_table :
  forall E state files path relative pre name post w,
    images state = None ->
    all_chars not_dollar pre = true ->
    all_chars is_name_char name = true -> name <> "" ->
    Js.includes relative reserved = false ->
    Js.endsWith "/README.md" path = true ->
    fs_readFile E path
    = Some (pre ++ "$$IMAGE " ++ name ++ "$$" ++ post)%string ->
    collect_entry E state files (path, true, relative) w
    = (Throw (Error_ "An images folder must be set before images can be used."),
       w).
Proof.
  intros E state files path relative pre name post w Hi Hpre Hn Hne Hres
    Hend Hread.
  unfold collect_entry. cbn [negb]. rewrite Hres.
  unfold bind at 1. rewrite Hread. unfold of_option, ret at 1.
  rewrite Hend. unfold bind at 1.
  rewrite (replace_images_prefix _ _ _ _ Hpre). unfold bind at 1.
  rewrite (replace_images_match _ _ _ _ _ _
             (match_image_placeholder name post Hn Hne)).
  unfold bind at 1. unfold image_tag. rewrite Hi. reflexivity.
Qed.

(** X12, at an instance. *)
Lemma X12_witness :
  collect_entry
    (mkEnv demo_axios demo_socket (Js.join "/") demo_dirname demo_relative
       (fun _ => true) (fun _ => Some "Hi $$IMAGE logo.png$$")
       (fun _ => None) demo_walkdir)
    (initial_state "key") [] ("les/README.md", true, "README.md")
    initial_world
  = (Throw (Error_ "An images folder must be set before images can be used."),
     initial_world).
Proof.
  apply (X12_placeholder_needs_the_images_table _ _ _ _ _ "Hi " "logo.png" "");
    try reflexivity.
  discriminate.
Defined.

End Readme.
Section Provenance.
Import Upload.

Lemma comes_from_incl E state l1 l2 k c :
  (forall e, In e l1 -> In e l2) ->
  comes_from E state l1 k c -> comes_from E state l2 k c.
Proof.
  intros Hin [path [text [Hp H]]]. exists path, text. split; [|exact H].
  now apply Hin.
Qed.

Lemma collect_entry_comes_from E state files entry w f w' :
  collect_entry E state files entry w = (Ok f, w') ->
  forall k c, Js.get k f = Some c ->
    Js.get k files = Some c \/ comes_from E state [entry] k c.
Proof.
  destruct entry as [[path isFile] relative]. unfold collect_entry.
  destruct isFile; cbn [negb].
  2:{ intros [= <- <-]. auto. }
  destruct (Js.includes relative reserved) eqn:Hres.
  { intros [= <- <-]. auto. }
  unfold bind at 1. unfold of_option.
  destruct (fs_readFile E path) as [text|] eqn:Hread; [|discriminate].
  unfold ret at 1.
  destruct (Js.endsWith "/README.md" path) eqn:Hend.
  - unfold bind.
    destruct (replace_images state 0 text w) as [[rendered|e|] w1] eqn:Hr;
      try discriminate.
    intros [= <- <-] k c Hget.
    unfold Js.store in Hget.
    destruct (relative =? "__proto__"); [now left|].
    destruct (String.eqb_spec k relative) as [->|Hne].
    + rewrite get_set_same in Hget. injection Hget as <-. right.
      exists path, text. split; [now left|]. split; [exact Hres|].
      split; [exact Hread|]. rewrite Hend. now exists w, w1.
    + rewrite get_set_other in Hget by exact Hne. now left.
  - intros [= <- <-] k c Hget.
    unfold Js.store in Hget.
    destruct (relative =? "__proto__"); [now left|].
    destruct (String.eqb_spec k relative) as [->|Hne].
    + rewrite get_set_same in Hget. injection Hget as <-. right.
      exists path, text. split; [now left|]. split; [exact Hres|].
      split; [exact Hread|]. now rewrite Hend.
    + rewrite get_set_other in Hget by exact Hne. now left.
Qed.

Lemma collect_comes_from E state walkEntries :
  forall files w f w',
    collect E state walkEntries files w = (Ok f, w') ->
    forall k c, Js.get k f = Some c ->
      Js.get k files = Some c \/ comes_from E state walkEntries k c.
Proof.
  induction walkEntries as [|entry rest IH]; intros files w f w' H k c Hget.
  - injection H as <- <-. now left.
  - cbn [collect] in H. unfold bind in H.
    destruct (collect_entry E state files entry w) as [[f1|e|] w1] eqn:He;
      try discriminate.
    destruct (IH _ _ _ _ H k c Hget) as [Hf1|Hrest].
    + destruct (collect_entry_comes_from _ _ _ _ _ _ _ He k c Hf1)
        as [Hfiles|Hentry]; [now left|right].
      apply (comes_from_incl E state [entry]); [|exact Hentry].
      intros e [<-|[]]. now left.
    + right. apply (comes_from_incl E state rest); [|exact Hrest].
      intros e Hin. now right.
Qed.

(** X13.  Nothing in the desired file set of a lesson is made up: every
    key is the relative path of a regular file found by the walk of the
    lesson directory or of the template directory, it is none of the
    reserved names, and its text is the content of that file (the result
    of the README pass for a README). *)
Theorem X13_desired_files_come_from_the_walks :
  forall E state templateDir dir w files w',
    desired_files E state templateDir dir w = (Ok files, w') ->
    exists lessonEntries templateEntries,
      returns (walk E dir) lessonEntries
      /\ match templateDir with
         | Some t => returns (walk E t) templateEntries
         | None => templateEntries = []
         end
      /\ forall k c,
           Js.get k files = Some c ->
           comes_from E state (templateEntries ++ lessonEntries) k c.
Proof.
  intros E state templateDir dir w files w' H.
  unfold desired_files in H. unfold bind at 1 in H.
  destruct (walk E dir w) as [[lessonEntries|e|] w1] eqn:Hl; try discriminate.
  unfold bind at 1 in H.
  destruct (match templateDir with Some t => walk E t | None => ret [] end w1)
    as [[templateEntries|e|] w2] eqn:Ht; try discriminate.
  exists lessonEntries, templateEntries.
  split; [now exists w, w1|]. split.
  - destruct templateDir as [t|]; [now exists w1, w2|].
    now injection Ht as <- <-.
  - intros k c Hget.
    destruct (collect_comes_from _ _ _ _ _ _ _ H k c Hget) as [Hnil|Hc];
      [discriminate|exact Hc].
Qed.

(** X13, at an instance: the lesson [les] over the template [tpl]. *)
Lemma X13_witness :
  exists lessonEntries templateEntries,
    returns (walk demo "les") lessonEntries
    /\ returns (walk demo "tpl") templateEntries
    /\ comes_from demo (initial_state "key")
         (templateEntries ++ lessonEntries) "b" "3".
Proof.
  assert (H : desired_files demo (initial_state "key") (Some "tpl") "les"
                initial_world
              = (Ok [("a", "1"); ("b", "3"); ("c", "4")], initial_world))
    by (vm_compute; reflexivity).
  destruct (X13_desired_files_come_from_the_walks _ _ _ _ _ _ _ H)
    as [le [te [Hl [Ht Hall]]]].
  exists le, te. split; [exact Hl|]. split; [exact Ht|].
  apply Hall. reflexivity.
Defined.

End Provenance.
(** ** One round of convergence, path by path *)
Section RoundCoverage.
Import Proto Sync.

Lemma includes_keys_get (o : FileSet) k :
  Js.includes k (Js.keys o) = false <-> Js.get k o = None.
Proof.
  split.
  - intros H. destruct (Js.get k o) as [c|] eqn:Hg; [|reflexivity].
    apply get_in_keys in Hg. apply includes_in in Hg. congruence.
  - intros H. destruct (Js.includes k (Js.keys o)) eqn:Hi; [|reflexivity].
    apply includes_in in Hi. apply in_keys_get in Hi.
    destruct Hi as [v Hv]. congruence.
Qed.

Lemma strict_eq_some c o : strict_eq (Some c) o = true -> o = Some c.
Proof.
  destruct o as [c'|]; simpl; [|discriminate].
  intros H. apply String.eqb_eq in H. now subst.
Qed.

(** A path of the file set survives the second loop with its text, unless
    the listing has a file at that path whose rendering is that text. *)
Lemma pruned_set_keeps listing :
  forall o k c,
    Js.get k o = Some c ->
    Js.get k (pruned_set o listing) = Some c
    \/ exists f, In f listing /\ path f = k
                 /\ option_map Js.Uint8Array_toString (data f) = Some c.
Proof.
  induction listing as [|f rest IH]; intros o k c Hget; simpl.
  - now left.
  - destruct (same_text o (path f)
                (option_map Js.Uint8Array_toString (data f))) eqn:Heq.
    + destruct (String.eqb_spec k (path f)) as [->|Hne].
      * right. exists f. split; [now left|]. split; [reflexivity|].
        unfold same_text, Js.lookup in Heq. rewrite Hget in Heq.
        now apply strict_eq_some.
      * destruct (IH (Js.del (path f) o) k c) as [H|[f' [Hin H]]].
        -- now rewrite get_del_other.
        -- now left.
        -- right. exists f'. split; [now right|exact H].
    + destruct (IH o k c Hget) as [H|[f' [Hin H]]]; [now left|].
      right. exists f'. split; [now right|exact H].
Qed.

(** What the [Files] case of the listener appends to the trace. *)
Lemma files_round_trace sid s listing w :
  session sid w = Some s ->
  let desired := read (files s) w in
  let kept := pruned_set desired listing in
  exists resolved,
    trace (onMessage sid (ArrayBuffer (mkOut Files (Some listing))) w) =
    trace w
    ++ map (fun p => (now w, WsSend sid (DeleteFile p)))
         (filter (fun p => negb (Js.includes p (Js.keys desired)))
            (map path listing))
    ++ map (fun p => (now w, Pruned sid p)) (pruned_paths desired listing)
    ++ map (fun k => (now w, WsSend sid
                        (SetFile k (Js.TextEncoder_encode (content k kept)))))
         (Js.keys kept)
    ++ map (fun r => (now w, Resolved r)) resolved.
Proof.
  intros Hs desired kept.
  set (w' := onMessage sid (ArrayBuffer (mkOut Files (Some listing))) w).
  assert (Hw' : w' = onFiles sid s listing w).
  { subst w'. unfold onMessage. now rewrite Hs. }
  unfold onFiles in Hw'. fold desired in Hw'.
  set (w1 := send_deletions sid (Js.keys desired) listing w) in Hw'.
  set (w2 := prune sid (files s) listing w1) in Hw'.
  set (w3 := send_writes sid (files s) w2) in Hw'.
  destruct (send_deletions_facts sid (Js.keys desired) listing w)
    as [Hn1 [Hh1 Ht1]]. fold w1 in Hn1, Hh1, Ht1.
  assert (Hr1 : read (files s) w1 = desired)
    by (unfold read; now rewrite Hh1).
  destruct (prune_facts sid (files s) listing w1) as [Hn2 [Hr2 Ht2]].
  fold w2 in Hn2, Hr2, Ht2. rewrite Hr1 in Hr2, Ht2.
  destruct (send_writes_facts sid (files s) w2) as [Hn3 [Hr3 Ht3]].
  fold w3 in Hn3, Hr3, Ht3. rewrite Hr2 in Hr3, Ht3.
  destruct (finish_facts sid (files s) w3) as [Hr6 [resolved Ht6]].
  rewrite <- Hw' in Hr6, Ht6.
  exists resolved. rewrite Ht6, Ht3, Ht2, Ht1, Hn3, Hn2, Hn1.
  now rewrite <- !app_assoc.
Qed.

(** X14.  One round of convergence, path by path.  Every message the
    [Files] case sends is justified: a [DeleteFile] names a listed path
    that is not in the desired set, a [SetFile] carries a path of the
    desired set with the encoding of its text.  And nothing is forgotten:
    every listed path that is not in the desired set is deleted, and every
    path of the desired set is written, unless the listing has a file at
    that path whose rendering ([toString]) is the desired text. *)
Theorem X14_round_sends_what_differs :
  forall sid s listing w,
    session sid w = Some s ->
    let desired := read (files s) w in
    let w' := onMessage sid (ArrayBuffer (mkOut Files (Some listing))) w in
    exists added,
      trace w' = trace w ++ added
      /\ (forall t sid' m,
            In (t, WsSend sid' m) added ->
            t = now w /\ sid' = sid
            /\ match m with
               | GetFiles => False
               | DeleteFile p =>
                   In p (map path listing) /\ Js.get p desired = None
               | SetFile k bytes =>
                   exists c, Js.get k desired = Some c
                             /\ bytes = Js.TextEncoder_encode c
               end)
      /\ (forall f, In f listing -> Js.get (path f) desired = None ->
                    In (now w, WsSend sid (DeleteFile (path f))) added)
      /\ (forall k c,
            Js.get k desired = Some c ->
            In (now w, WsSend sid (SetFile k (Js.TextEncoder_encode c))) added
            \/ exists f, In f listing /\ path f = k
                         /\ option_map Js.Uint8Array_toString (data f)
                            = Some c).
Proof.
  intros sid s listing w Hs desired w'.
  destruct (files_round_trace sid s listing w Hs) as [resolved Ht].
  fold desired in Ht. fold w' in Ht.
  eexists. split; [exact Ht|]. split; [|split].
  - intros t sid' m Hin.
    apply in_app_or in Hin. destruct Hin as [Hin|Hin].
    { apply in_map_iff in Hin. destruct Hin as [p [[= <- <- <-] Hp]].
      apply filter_In in Hp. destruct Hp as [Hp Hni].
      apply negb_true_iff in Hni. apply includes_keys_get in Hni. auto. }
    apply in_app_or in Hin. destruct Hin as [Hin|Hin].
    { apply in_map_iff in Hin. destruct Hin as [p [[=] _]]. }
    apply in_app_or in Hin. destruct Hin as [Hin|Hin].
    { apply in_map_iff in Hin. destruct Hin as [k [[= <- <- <-] Hk]].
      split; [reflexivity|]. split; [reflexivity|].
      destruct (in_keys_get _ _ Hk) as [c Hc].
      exists c. unfold content. rewrite Hc.
      split; [|reflexivity]. now apply (pruned_set_get _ _ _ _ Hc). }
    apply in_map_iff in Hin. destruct Hin as [r [[=] _]].
  - intros f Hf Hnone. apply in_or_app. left.
    apply in_map_iff. exists (path f). split; [reflexivity|].
    apply filter_In. split; [now apply in_map|].
    apply negb_true_iff. now apply includes_keys_get.
  - intros k c Hget.
    destruct (pruned_set_keeps listing desired k c Hget) as [Hk|Hf];
      [left|now right].
    apply in_or_app. right. apply in_or_app. right. apply in_or_app. left.
    apply in_map_iff. exists k. unfold content. rewrite Hk.
    split; [reflexivity|]. now apply get_in_keys with (v := c).
Qed.

(** X14, at an instance: the listing [{x, y}] against the desired set
    [{y, z}]. *)
Lemma X14_witness :
  exists added,
    trace (onMessage 0 (ArrayBuffer (mkOut Files (Some remote_example)))
             (start "token" desired_example))
    = trace (start "token" desired_example) ++ added
    /\ In (0%N, WsSend 0 (DeleteFile "x")) added
    /\ In (0%N, WsSend 0 (SetFile "z" (Js.TextEncoder_encode "new"))) added.
Proof.
  destruct (X14_round_sends_what_differs 0
              (mkSession "token" 0 1 false Pending None OPEN)
              remote_example (start "token" desired_example) eq_refl)
    as [added [Ht [_ [Hdel Hset]]]].
  exists added. split; [exact Ht|]. split.
  - apply (Hdel (mkFile "x" (Some (Js.TextEncoder_encode "old"))));
      [now left|reflexivity].
  - destruct (Hset "z" "new" eq_refl) as [H|[f [Hin [Hp _]]]]; [exact H|].
    exfalso. destruct Hin as [<-|[<-|[]]]; discriminate.
Defined.

End RoundCoverage.

(** ** Invariants of the sessions and of the resolutions along a run *)
Section RunInvariant.
Import Proto Sync.

Variable P : list Session -> list nat -> Prop.
Hypothesis P_update :
  forall i f ss rs, neutral f -> P ss rs -> P (list_update i f ss) rs.
Hypothesis P_open :
  forall ss rs tok fl bk p,
    P ss rs -> (p < length ss)%nat ->
    P (ss ++ [mkSession tok fl bk false Pending (Some p) OPEN]) rs.
Hypothesis P_resolve : forall sid w, holds P w -> holds P (resolve sid w).

Lemma resolved_app a b : resolved (a ++ b) = resolved a ++ resolved b.
Proof. unfold resolved. apply flat_map_app. Qed.

Lemma resolved_map {A} (g : A -> N * Effect) l :
  (forall x sid, snd (g x) <> Resolved sid) -> resolved (map g l) = [].
Proof.
  intros Hg. induction l as [|x l IH]; simpl; [reflexivity|].
  rewrite IH, app_nil_r. specialize (Hg x).
  destruct (snd (g x)); try reflexivity. now elim (Hg sid).
Qed.

Lemma holds_frame w w' :
  sessions w' = sessions w -> resolved (trace w') = resolved (trace w) ->
  holds P w -> holds P w'.
Proof. unfold holds. now intros -> ->. Qed.

Lemma holds_emit e w :
  (forall sid, e <> Resolved sid) -> holds P w -> holds P (emit e w).
Proof.
  intros He. apply holds_frame; [reflexivity|]. simpl.
  rewrite resolved_app. simpl.
  destruct e; try (now rewrite app_nil_r). now elim (He sid).
Qed.

Lemma holds_update sid f w :
  neutral f -> holds P w -> holds P (update_session sid f w).
Proof. intros Hf H. unfold holds. simpl. now apply P_update. Qed.

Lemma neutral_finished b : neutral (set_finished b).
Proof. intros s. split; reflexivity. Qed.

Lemma neutral_readyState r : neutral (set_readyState r).
Proof. intros s. split; reflexivity. Qed.

Lemma neutral_close :
  neutral (fun s => match readyState s with
                    | OPEN => set_readyState CLOSING s
                    | _ => s
                    end).
Proof. intros s. destruct (readyState s); split; reflexivity. Qed.

Lemma holds_ws_close sid w : holds P w -> holds P (ws_close sid w).
Proof.
  intros H. unfold ws_close. apply holds_emit; [discriminate|].
  apply holds_update; [apply neutral_close|exact H].
Qed.

Lemma holds_onFiles sid s listing w :
  holds P w -> holds P (onFiles sid s listing w).
Proof.
  intros H. unfold onFiles. apply P_resolve.
  apply holds_update; [apply neutral_finished|].
  refine (holds_frame w _ _ _ H).
  - rewrite send_writes_spec, prune_spec, send_deletions_spec. reflexivity.
  - rewrite send_writes_spec, prune_spec, send_deletions_spec. simpl.
    rewrite !resolved_app, !resolved_map; try (intros; discriminate).
    now rewrite !app_nil_r.
Qed.

Lemma holds_onMessage sid d w : holds P w -> holds P (onMessage sid d w).
Proof.
  intros H. unfold onMessage.
  destruct (session sid w) as [s|]; auto.
  destruct d as [m|]; auto.
  destruct (type m); auto.
  - apply holds_emit; [discriminate|exact H].
  - refine (holds_frame (ws_close sid _) _ eq_refl eq_refl _).
    apply holds_ws_close. apply holds_update; [apply neutral_finished|].
    apply holds_emit; [discriminate|exact H].
  - destruct (value m); auto. now apply holds_onFiles.
Qed.

Lemma holds_fire c w : holds P w -> holds P (fire c w).
Proof.
  intros H. destruct c as [sid|sid|sid]; simpl.
  - destruct (session sid w) as [s|] eqn:Hs; auto.
    unfold holds, uploadFiles. simpl. rewrite resolved_app. simpl.
    rewrite app_nil_r. apply P_open; [exact H|].
    apply nth_error_Some. unfold session in Hs. rewrite Hs. discriminate.
  - now apply holds_ws_close.
  - destruct (session sid w) as [s|]; auto.
    destruct (finished s); auto.
    apply P_resolve. apply holds_emit; [discriminate|exact H].
Qed.

Lemma holds_run_timers fuel t w :
  holds P w -> holds P (run_timers fuel t w).
Proof.
  revert w. induction fuel as [|fuel IH]; intros w H; simpl; auto.
  destruct (pick (timers w)) as [[tm rest]|]; auto.
  destruct (due tm <=? t)%N; auto.
  apply IH. apply holds_fire. exact H.
Qed.

Lemma holds_advance t w : holds P w -> holds P (advance t w).
Proof.
  intros H. unfold advance.
  exact (holds_run_timers (total_weight (timers w)) t w H).
Qed.

Lemma holds_step i w : holds P w -> holds P (step i w).
Proof.
  intros H. unfold step.
  pose proof (holds_advance (fst i) w H) as Ha.
  destruct (snd i) as [sid d|sid].
  - destruct (session sid (advance (fst i) w)) as [s|]; auto.
    destruct (readyState s); auto; now apply holds_onMessage.
  - apply holds_update; [apply neutral_readyState|exact Ha].
Qed.

Lemma holds_run ins w : holds P w -> holds P (run ins w).
Proof.
  revert w. induction ins as [|i ins IH]; intros w H; simpl; auto.
  apply IH. now apply holds_step.
Qed.

End RunInvariant.

(** ** What a run never does to a promise *)
Section Resolutions.
Import Proto Sync.

Lemma nth_error_set_promise (ss : list Session) sid i s' :
  nth_error (list_update sid (set_promise Fulfilled) ss) i = Some s' ->
  exists s0, nth_error ss i = Some s0
             /\ continuation s' = continuation s0
             /\ (i <> sid -> s' = s0)
             /\ (i = sid -> promise s' = Fulfilled).
Proof.
  rewrite nth_error_list_update.
  destruct (Nat.eqb_spec sid i) as [<-|Hne].
  - destruct (nth_error ss sid) as [s0|]; simpl; [|discriminate].
    intros [= <-]. exists s0. repeat split; auto. congruence.
  - intros H. exists s'. repeat split; auto. congruence.
Qed.

Lemma nth_error_set_promise_other (ss : list Session) sid p sp :
  nth_error ss p = Some sp -> promise sp = Fulfilled ->
  exists sp', nth_error (list_update sid (set_promise Fulfilled) ss) p
              = Some sp' /\ promise sp' = Fulfilled.
Proof.
  intros Hp Hf. rewrite nth_error_list_update, Hp.
  destruct (Nat.eqb sid p); simpl; eexists; split; reflexivity || exact Hf.
Qed.

(** [resolve] restores the chain of fulfilled promises, when it may be
    broken at the sessions chained to [sid] only. *)
Lemma resolve_from_parents fuel :
  forall sid w,
    (sid < fuel)%nat ->
    (forall i s p, nth_error (sessions w) i = Some s ->
                   continuation s = Some p -> (p < i)%nat) ->
    (forall i s, nth_error (sessions w) i = Some s ->
                 continuation s = None -> i = 0%nat) ->
    Forall (fun s => promise s <> Rejected) (sessions w) ->
    (forall i s p, nth_error (sessions w) i = Some s ->
                   continuation s = Some p -> promise s = Fulfilled ->
                   p <> sid ->
                   exists sp, nth_error (sessions w) p = Some sp
                              /\ promise sp = Fulfilled) ->
    holds parents_resolved (resolve_from fuel sid w).
Proof.
  induction fuel as [|fuel IH]; intros sid w Hfuel Hch Hroot Hnr Hpr;
    [lia|].
  simpl. destruct (session sid w) as [s|] eqn:Hs.
  2:{ split; [|split; assumption]. intros i s0 p Hi Hc.
      split; [now apply (Hch i s0 p)|]. intros Hf.
      destruct (Nat.eq_dec p sid) as [->|Hne]; [|now apply (Hpr i s0 p)].
      exfalso. pose proof (Hch i s0 sid Hi Hc) as Hlt.
      unfold session in Hs. apply nth_error_None in Hs.
      assert (i < length (sessions w))%nat
        by (apply nth_error_Some; congruence). lia. }
  unfold session in Hs.
  destruct (promise s) eqn:Hp.
  - (* pending: fulfilled now, then the session it is chained to *)
    set (w1 := emit (Resolved sid)
                 (update_session sid (set_promise Fulfilled) w)).
    assert (Hch1 : forall i s' p, nth_error (sessions w1) i = Some s' ->
                     continuation s' = Some p -> (p < i)%nat).
    { intros i s' p Hi Hc.
      destruct (nth_error_set_promise _ _ _ _ Hi) as [s0 [H0 [Hc0 _]]].
      rewrite Hc0 in Hc. now apply (Hch i s0 p). }
    assert (Hroot1 : forall i s', nth_error (sessions w1) i = Some s' ->
                       continuation s' = None -> i = 0%nat).
    { intros i s' Hi Hc.
      destruct (nth_error_set_promise _ _ _ _ Hi) as [s0 [H0 [Hc0 _]]].
      rewrite Hc0 in Hc. now apply (Hroot i s0). }
    assert (Hnr1 : Forall (fun s => promise s <> Rejected) (sessions w1)).
    { apply Forall_list_update; [|exact Hnr]. intros x _. discriminate. }
    assert (Hpr1 : forall i s' p q,
              nth_error (sessions w1) i = Some s' ->
              continuation s' = Some p -> promise s' = Fulfilled ->
              continuation s = q -> Some p <> q ->
              exists sp, nth_error (sessions w1) p = Some sp
                         /\ promise sp = Fulfilled).
    { intros i s' p q Hi Hc Hf Hq Hne.
      destruct (nth_error_set_promise _ _ _ _ Hi) as [s0 [H0 [Hc0 [Hoth _]]]].
      destruct (Nat.eq_dec i sid) as [->|Hi'].
      { rewrite Hs in H0. injection H0 as <-. congruence. }
      rewrite (Hoth Hi') in Hc, Hf.
      destruct (Nat.eq_dec p sid) as [->|Hp'].
      - simpl. rewrite nth_error_list_update, Nat.eqb_refl, Hs. simpl.
        eexists. split; reflexivity.
      - destruct (Hpr i s0 p H0 Hc Hf Hp') as [sp [Hsp Hfp]].
        now apply nth_error_set_promise_other with (sp := sp). }
    destruct (continuation s) as [p|] eqn:Hc.
    + apply IH; try assumption.
      * pose proof (Hch sid s p Hs Hc). lia.
      * intros i s' p' Hi Hc' Hf Hne.
        apply (Hpr1 i s' p' (Some p) Hi Hc' Hf eq_refl). congruence.
    + split; [|split; assumption]. intros i s' p' Hi Hc'.
      split; [now apply (Hch1 i s' p')|]. intros Hf.
      apply (Hpr1 i s' p' None Hi Hc' Hf eq_refl). discriminate.
  - (* fulfilled already *)
    split; [|split; assumption]. intros i s0 p Hi Hc.
    split; [now apply (Hch i s0 p)|]. intros Hf.
    destruct (Nat.eq_dec p sid) as [->|Hne]; [|now apply (Hpr i s0 p)].
    now exists s.
  - exfalso. rewrite Forall_forall in Hnr.
    apply (Hnr s); [now apply nth_error_In with (n := sid)|exact Hp].
Qed.

Lemma parents_resolved_update i f ss rs :
  neutral f -> parents_resolved ss rs ->
  parents_resolved (list_update i f ss) rs.
Proof.
  intros Hf [Hch [Hroot Hnr]].
  assert (Hback : forall j s', nth_error (list_update i f ss) j = Some s' ->
            exists s0, nth_error ss j = Some s0
                       /\ promise s' = promise s0
                       /\ continuation s' = continuation s0).
  { intros j s'. rewrite nth_error_list_update.
    destruct (Nat.eqb i j).
    - destruct (nth_error ss j) as [s0|]; simpl; [|discriminate].
      intros [= <-]. exists s0. destruct (Hf s0). auto.
    - intros H. now exists s'. }
  split; [|split].
  - intros j s' p Hj Hc.
    destruct (Hback j s' Hj) as [s0 [H0 [Hp0 Hc0]]].
    rewrite Hc0 in Hc. destruct (Hch j s0 p H0 Hc) as [Hlt Hpar].
    split; [exact Hlt|]. rewrite Hp0. intros Hfu.
    destruct (Hpar Hfu) as [sp [Hsp Hfp]].
    rewrite nth_error_list_update, Hsp.
    destruct (Nat.eqb i p); simpl; eexists; split; try reflexivity;
      [|exact Hfp].
    destruct (Hf sp) as [-> _]. exact Hfp.
  - intros j s' Hj Hc.
    destruct (Hback j s' Hj) as [s0 [H0 [_ Hc0]]].
    rewrite Hc0 in Hc. now apply (Hroot j s0).
  - apply Forall_list_update; [|exact Hnr].
    intros s. destruct (Hf s) as [-> _]. auto.
Qed.

Lemma parents_resolved_open ss rs tok fl bk p :
  parents_resolved ss rs -> (p < length ss)%nat ->
  parents_resolved (ss ++ [mkSession tok fl bk false Pending (Some p) OPEN])
    rs.
Proof.
  intros [Hch [Hroot Hnr]] Hp.
  assert (Hcases : forall j s',
    nth_error (ss ++ [mkSession tok fl bk false Pending (Some p) OPEN]) j
    = Some s' ->
    nth_error ss j = Some s'
    \/ (j = length ss
        /\ s' = mkSession tok fl bk false Pending (Some p) OPEN)).
  { intros j s' Hj.
    destruct (Nat.lt_ge_cases j (length ss)) as [Hlt|Hge].
    - left. now rewrite nth_error_app1 in Hj.
    - right. rewrite nth_error_app2 in Hj by exact Hge.
      destruct (j - length ss)%nat as [|n] eqn:Hd; simpl in Hj.
      + injection Hj as <-. split; [lia|reflexivity].
      + now destruct n. }
  split; [|split].
  - intros j s' q Hj Hc. destruct (Hcases j s' Hj) as [H0|[-> ->]].
    + destruct (Hch j s' q H0 Hc) as [Hlt Hpar]. split; [exact Hlt|].
      intros Hf. destruct (Hpar Hf) as [sp [Hsp Hfp]]. exists sp.
      split; [|exact Hfp]. rewrite nth_error_app1; [exact Hsp|].
      apply nth_error_Some. congruence.
    + simpl in Hc. injection Hc as <-. split; [exact Hp|]. discriminate.
  - intros j s' Hj Hc. destruct (Hcases j s' Hj) as [H0|[-> ->]].
    + now apply (Hroot j s').
    + discriminate.
  - apply Forall_app. split; [exact Hnr|].
    constructor; [simpl; discriminate|constructor].
Qed.

Lemma parents_resolved_resolve sid w :
  holds parents_resolved w -> holds parents_resolved (resolve sid w).
Proof.
  intros [Hch [Hroot Hnr]]. unfold resolve.
  apply resolve_from_parents; auto.
  - intros i s p Hi Hc. now apply (Hch i s p).
  - intros i s p Hi Hc Hf _. now apply (Hch i s p).
Qed.

(** In every run, when the promise of any session is fulfilled, so is the
    promise of the first session. *)
Lemma fulfilled_reaches_first tok fs ins t i s :
  session i (advance t (run ins (start tok fs))) = Some s ->
  promise s = Fulfilled ->
  exists s0, session 0 (advance t (run ins (start tok fs))) = Some s0
             /\ promise s0 = Fulfilled.
Proof.
  set (w := advance t (run ins (start tok fs))).
  assert (H : holds parents_resolved w).
  { apply (holds_advance parents_resolved parents_resolved_update
             parents_resolved_open parents_resolved_resolve).
    apply (holds_run parents_resolved parents_resolved_update
             parents_resolved_open parents_resolved_resolve).
    split; [|split].
    - intros [|[|j]] s0 p Hj Hc; simpl in Hj; try discriminate.
      injection Hj as <-. discriminate.
    - intros [|[|j]] s0 Hj _; simpl in Hj; try discriminate. reflexivity.
    - constructor; [simpl; discriminate|constructor]. }
  destruct H as [Hch [Hroot _]]. unfold session. revert s.
  induction i as [i IH] using lt_wf_ind. intros s Hs Hf.
  destruct (continuation s) as [p|] eqn:Hc.
  - destruct (Hch i s p Hs Hc) as [Hlt Hpar].
    destruct (Hpar Hf) as [sp [Hsp Hfp]]. exact (IH p Hlt sp Hsp Hfp).
  - rewrite (Hroot i s Hs Hc) in Hs. now exists s.
Qed.

(** X16.  A retry that completes completes the call that retried: in
    every run, when the promise of any session is fulfilled, so is the
    promise of the first session, the one [handleLesson] awaits. *)
Theorem X16_resolution_reaches_the_first_session :
  forall tok fs ins t i s,
    let w := advance t (run ins (start tok fs)) in
    session i w = Some s -> promise s = Fulfilled ->
    exists s0, session 0 w = Some s0 /\ promise s0 = Fulfilled.
Proof. intros tok fs ins t i s w. apply fulfilled_reaches_first. Qed.

(** X16, at an instance: the session is told twice that the container is
    not ready; the first retry completes a round. *)
Lemma X16_witness :
  exists s0,
    session 0 (advance 1300 (run (firstn 4 two_signals)
                               (start "token" lesson_example))) = Some s0
    /\ promise s0 = Fulfilled.
Proof.
  apply (X16_resolution_reaches_the_first_session "token" lesson_example
           (firstn 4 two_signals) 1300 1
           (mkSession "token" 1 2 true Fulfilled (Some 0%nat) OPEN)).
  - vm_compute. reflexivity.
  - reflexivity.
Defined.

End Resolutions.

(** ** The guard of a session that no frame decides *)
Section GuardOutcome.
Import Proto Sync.

(** C6, the claim as stated fails.  A container that answers every
    connection with [NotInitialized] sends no [Files] message; 30 seconds
    after the start of the session the promise of [uploadFiles] is still
    pending and no timeout warning has been logged: the signal sets
    [finished], which disarms the guard of each session in turn. *)
Lemma C6_counterexample :
  let ins := map not_ready (seq 0 28) in
  let w := advance 30000 (run ins (start "token" [("main.py", "print(1)")])) in
  forallb (fun i => negb (is_files_message (snd i))) ins = true
  /\ option_map promise (session 0 w) = Some Pending
  /\ existsb (fun e => is_timeout_warning (snd e)) (trace w) = false.
Proof. vm_compute. repeat split. Qed.

(** C6, amended.  Take any session of any run, the first or a retry,
    started at [t0].  If every frame that reaches its socket before
    [t0 + 10000] is neither [NotInitialized] nor a [Files] message with a
    payload, then from [t0 + 10000] on the promise of the session is
    fulfilled: the guard has logged the timeout warning at [t0 + 10000]
    and resolved the promise right after it.  The promise of the first
    session, the one the caller awaits, is fulfilled with it.  And in no
    run at all is a promise of [uploadFiles] rejected. *)
Theorem C6_guard_resolves_undecided_session :
  forall tok fs ins sid t0 T,
    let w := advance T (run ins (start tok fs)) in
    opened_at sid (trace w) = Some t0 ->
    (forall t d, In (t, Message sid d) ins -> (t < t0 + 10000)%N ->
                 decisive d = false) ->
    (t0 + 10000 <= T)%N ->
    (exists s, session sid w = Some s /\ promise s = Fulfilled)
    /\ (exists tr1 tr2,
          trace w = tr1 ++ [((t0 + 10000)%N, timeout_warning);
                            ((t0 + 10000)%N, Resolved sid)] ++ tr2)
    /\ (exists s0, session 0 w = Some s0 /\ promise s0 = Fulfilled)
    /\ (forall ins' t i s,
          session i (advance t (run ins' (start tok fs))) = Some s ->
          promise s <> Rejected).
Proof.
  intros tok fs ins sid t0 T w Hop Hd HT.
  assert (Hrun : guarded sid (run ins (start tok fs))).
  { apply (guarded_run sid ins (start tok fs) t0 (trace w)).
    - apply advance_trace.
    - exact Hop.
    - exact Hd.
    - apply guarded_start. }
  destruct (guarded_advance sid T _ Hrun) as [[_ Hph] Hlate].
  fold w in Hph, Hlate. rewrite Hop in Hph.
  assert (Hto : timed_out sid (t0 + 10000) w).
  { destruct Hph as [Hun|Hto]; [|exact Hto].
    specialize (Hlate _ Hun). lia. }
  destruct Hto as [[s [Hs Hf]] Htr].
  split; [now exists s|]. split; [exact Htr|]. split.
  - exact (fulfilled_reaches_first tok fs ins T sid s Hs Hf).
  - intros ins' t1 i s1 Hs1.
    pose proof (run_never_rejected tok fs ins' t1) as Hsafe.
    unfold session in Hs1. apply nth_error_In in Hs1.
    unfold never_rejected in Hsafe. rewrite Forall_forall in Hsafe.
    now apply Hsafe.
Qed.

(** C6, at an instance: the first session is told at 100 ms that the
    container is not ready; the retry opens the second session at 1100 ms,
    no frame reaches it, and its guard resolves it at 11100 ms. *)
Lemma C6_witness :
  let w := advance 11100 (run [not_ready 0]
                            (start "token" [("main.py", "print(1)")])) in
  opened_at 1 (trace w) = Some 1100%N
  /\ (exists s, session 1 w = Some s /\ promise s = Fulfilled)
  /\ (exists s0, session 0 w = Some s0 /\ promise s0 = Fulfilled).
Proof.
  intros w.
  assert (Hop : opened_at 1 (trace w) = Some 1100%N) by (vm_compute; reflexivity).
  assert (Hd : forall t d, In (t, Message 1 d) [not_ready 0] ->
                           (t < 1100 + 10000)%N -> decisive d = false).
  { intros t d [H|[]] _. discriminate H. }
  assert (HT : (1100 + 10000 <= 11100)%N) by (vm_compute; discriminate).
  pose proof (C6_guard_resolves_undecided_session
                "token" [("main.py", "print(1)")] [not_ready 0] 1 1100 11100
                Hop Hd HT) as [H1 [_ [H0 _]]].
  split; [exact Hop|]. split; [exact H1|exact H0].
Defined.

End GuardOutcome.

(** ** What follows a signal, on the clock *)
Section Timing.
Import Proto Sync.

Lemma not_initialized_idle tok fs t0 r tr t :
  (t0 <= t)%N -> (t < 10000)%N -> r <> CLOSED ->
  step (t, Message 0 (ArrayBuffer (mkOut NotInitialized None)))
    (idle tok fs t0 r tr)
  = mkWorld t [fs; Js.spread fs]
      [mkSession tok 0 1 true Pending None (closing r)]
      [mkTimer 10000 (CbGuard 0); mkTimer (t + 1000) (CbRetry 0)]
      (tr ++ [(t, Warn "Received NotInitialized, retrying...");
              (t, WsClose 0)]).
Proof.
  intros H0 Ht Hr. unfold step. cbn [fst snd].
  rewrite advance_idle by exact Ht.
  replace (N.max t0 t) with t by lia.
  destruct r; [| |congruence]; unfold idle, session; cbn -[N.add];
    unfold onMessage, session; cbn -[N.add];
    unfold setTimeout, ws_close, emit, update_session, set_timers,
      set_sessions; cbn -[N.add]; rewrite <- app_assoc; reflexivity.
Qed.

Lemma retry_waits tok r tr t t' hp :
  (t < 9000)%N -> (t' < t + 1000)%N ->
  advance t'
    (mkWorld t hp
       [mkSession tok 0 1 true Pending None r]
       [mkTimer 10000 (CbGuard 0); mkTimer (t + 1000) (CbRetry 0)] tr)
  = mkWorld (N.max t t') hp
       [mkSession tok 0 1 true Pending None r]
       [mkTimer 10000 (CbGuard 0); mkTimer (t + 1000) (CbRetry 0)] tr.
Proof.
  intros Ht Ht'. unfold advance. cbn -[N.add N.leb N.max].
  destruct (N.leb_spec 10000 (t + 1000)); [lia|].
  cbn -[N.add N.leb N.max].
  destruct (N.leb_spec (t + 1000) t'); [lia|]. reflexivity.
Qed.

Lemma retry_fires tok fs r tr t :
  (t < 9000)%N ->
  advance (t + 1000)
    (mkWorld t [fs; Js.spread fs]
       [mkSession tok 0 1 true Pending None r]
       [mkTimer 10000 (CbGuard 0); mkTimer (t + 1000) (CbRetry 0)] tr)
  = mkWorld (t + 1000) [fs; Js.spread fs; Js.spread (Js.spread fs)]
       [mkSession tok 0 1 true Pending None r;
        mkSession tok 1 2 false Pending (Some 0%nat) OPEN]
       [mkTimer 10000 (CbGuard 0); mkTimer (t + 1000 + 10000) (CbGuard 1)]
       (tr ++ [((t + 1000)%N,
                WsOpen 1 ("wss://cratecode.com/control/" ++ tok)%string)]).
Proof.
  intros Ht. unfold advance. cbn -[N.add N.leb N.max].
  destruct (N.leb_spec 10000 (t + 1000)); [lia|].
  cbn -[N.add N.leb N.max].
  destruct (N.leb_spec (t + 1000) (t + 1000)); [|lia].
  cbn -[N.add N.leb N.max].
  replace (N.max t (t + 1000)) with (t + 1000)%N by lia.
  unfold uploadFiles, session. cbn -[N.add N.leb N.max].
  destruct (N.leb_spec 10000 (t + 1000 + 10000)); [|lia].
  cbn -[N.add N.leb N.max].
  destruct (N.leb_spec 10000 (t + 1000)); [lia|].
  cbn -[N.add N.leb N.max].
  now replace (N.max (t + 1000) (t + 1000)) with (t + 1000)%N by lia.
Qed.

Lemma files_idle tok fs t0 r tr t listing :
  (t0 <= t)%N -> (t < 10000)%N -> r <> CLOSED ->
  step (t, Message 0 (ArrayBuffer (mkOut Files (Some listing))))
    (idle tok fs t0 r tr)
  = mkWorld t [pruned_set fs listing; Js.spread fs]
      [mkSession tok 0 1 true Fulfilled None r]
      [mkTimer 10000 (CbGuard 0); mkTimer (t + 1000) (CbClose 0)]
      (tr ++ (map (fun p => (t, WsSend 0 (DeleteFile p)))
                (filter (fun p => negb (Js.includes p (Js.keys fs)))
                   (map path listing))
              ++ map (fun p => (t, Pruned 0 p)) (pruned_paths fs listing)
              ++ map (fun k => (t, WsSend 0
                                  (SetFile k
                                     (Js.TextEncoder_encode
                                        (content k (pruned_set fs listing))))))
                   (Js.keys (pruned_set fs listing)))
          ++ [(t, Resolved 0)]).
Proof.
  intros H0 Ht Hr. unfold step. cbn [fst snd].
  rewrite advance_idle by exact Ht.
  replace (N.max t0 t) with t by lia.
  assert (Hon : onMessage 0 (ArrayBuffer (mkOut Files (Some listing)))
                  (idle tok fs t r tr)
                = onFiles 0 (mkSession tok 0 1 false Pending None r) listing
                    (idle tok fs t r tr)) by reflexivity.
  assert (Hfiles : onFiles 0 (mkSession tok 0 1 false Pending None r) listing
                     (idle tok fs t r tr) = 
      mkWorld t [pruned_set fs listing; Js.spread fs]
      [mkSession tok 0 1 true Fulfilled None r]
      [mkTimer 10000 (CbGuard 0); mkTimer (t + 1000) (CbClose 0)]
      (tr ++ (map (fun p => (t, WsSend 0 (DeleteFile p)))
                (filter (fun p => negb (Js.includes p (Js.keys fs)))
                   (map path listing))
              ++ map (fun p => (t, Pruned 0 p)) (pruned_paths fs listing)
              ++ map (fun k => (t, WsSend 0
                                  (SetFile k
                                     (Js.TextEncoder_encode
                                        (content k (pruned_set fs listing))))))
                   (Js.keys (pruned_set fs listing)))
          ++ [(t, Resolved 0)])).
  { unfold onFiles. rewrite send_deletions_spec, prune_spec, send_writes_spec.
    unfold resolve, setTimeout, update_session, set_timers, set_sessions,
      idle, read.
    cbn -[N.add pruned_set pruned_paths Js.keys content emit].
    unfold emit, update_session, set_sessions.
    cbn -[N.add pruned_set pruned_paths Js.keys content].
    now rewrite <- !app_assoc. }
  destruct r; [| |congruence]; unfold idle at 1, session; cbn [sessions nth_error readyState];
   rewrite Hon; exact Hfiles.
Qed.

Lemma close_fires tok r tr t T hp :
  (t < 10000)%N -> (10000 <= T)%N -> (t + 1000 <= T)%N ->
  advance T
    (mkWorld t hp
       [mkSession tok 0 1 true Fulfilled None r]
       [mkTimer 10000 (CbGuard 0); mkTimer (t + 1000) (CbClose 0)] tr)
  = mkWorld T hp
       [mkSession tok 0 1 true Fulfilled None (closing r)] []
       (tr ++ [((t + 1000)%N, WsClose 0)]).
Proof.
  intros Ht HT HT'. unfold advance. cbn -[N.add N.leb N.max].
  destruct (N.leb_spec 10000 (t + 1000)) as [Hle|Hlt];
    cbn -[N.add N.leb N.max].
  - destruct (N.leb_spec 10000 T); [|lia]. cbn -[N.add N.leb N.max].
    destruct (N.leb_spec (t + 1000) T); [|lia].
    unfold ws_close, emit, update_session, set_sessions.
    cbn -[N.add N.leb N.max].
    replace (N.max (N.max t 10000) (t + 1000)) with (t + 1000)%N by lia.
    replace (N.max (t + 1000) T) with T by lia.
    destruct r; reflexivity.
  - destruct (N.leb_spec (t + 1000) T); [|lia].
    unfold ws_close, emit, update_session, set_sessions.
    cbn -[N.add N.leb N.max].
    destruct (N.leb_spec 10000 T); [|lia].
    replace (N.max t (t + 1000)) with (t + 1000)%N by lia.
    destruct r; cbn -[N.add N.leb N.max];
      now replace (N.max (N.max (t + 1000) 10000) T) with T by lia.
Qed.

(** X17.  After a completed round.  When the listing arrives on a session
    that has heard nothing decisive so far, the promise is fulfilled at
    once and the session is marked finished; [ws.close()] is called one
    second later, and the guard of the tenth second does nothing: no
    warning, no second resolution. *)
Theorem X17_completed_round_closes_after_one_second :
  forall tok fs t0 r tr t listing T,
    (t0 <= t)%N -> (t < 10000)%N -> r <> CLOSED ->
    (10000 <= T)%N -> (t + 1000 <= T)%N ->
    let w1 := step (t, Message 0 (ArrayBuffer (mkOut Files (Some listing))))
                (idle tok fs t0 r tr) in
    let w2 := advance T w1 in
    sessions w1 = [mkSession tok 0 1 true Fulfilled None r]
    /\ (exists sent, trace w1 = tr ++ sent ++ [(t, Resolved 0)]
                     /\ resolved sent = [])
    /\ trace w2 = trace w1 ++ [((t + 1000)%N, WsClose 0)]
    /\ sessions w2 = [mkSession tok 0 1 true Fulfilled None (closing r)]
    /\ timers w2 = [].
Proof.
  intros tok fs t0 r tr t listing T H0 Ht Hr HT HT' w1 w2.
  subst w2 w1. rewrite (files_idle tok fs t0 r tr t listing H0 Ht Hr).
  rewrite (close_fires tok r _ t T _ Ht HT HT'). cbn [sessions trace timers].
  split; [reflexivity|]. split; [|repeat split].
  eexists. split; [reflexivity|].
  rewrite !resolved_app, !resolved_map; try (intros; discriminate).
  reflexivity.
Qed.

(** X17, at an instance: the listing arrives 20 ms after the start. *)
Lemma X17_witness :
  trace (advance 10000
           (step (20%N, Message 0 (ArrayBuffer
                                     (mkOut Files (Some remote_example))))
              (idle "token" desired_example 0 OPEN [])))
  = trace (step (20%N, Message 0 (ArrayBuffer
                                    (mkOut Files (Some remote_example))))
             (idle "token" desired_example 0 OPEN []))
    ++ [(1020%N, WsClose 0)].
Proof.
  apply (X17_completed_round_closes_after_one_second "token" desired_example
           0 OPEN [] 20 remote_example 10000); try lia. discriminate.
Defined.

(** X18.  After [NotInitialized].  The session warns, is marked finished
    and calls [ws.close()] at once; nothing else happens for one second;
    then exactly one new session is opened, with the same token, working
    on the backup copy of the file set and holding a copy of its own, and
    with its resolution chained to the session that retried.  The promise
    of the first session is still pending, and its guard is still set. *)
Theorem X18_retry_opens_one_second_later :
  forall tok fs t0 r tr t,
    (t0 <= t)%N -> (t < 9000)%N -> r <> CLOSED ->
    let w1 := step (t, Message 0 (ArrayBuffer (mkOut NotInitialized None)))
                (idle tok fs t0 r tr) in
    let w2 := advance (t + 1000) w1 in
    trace w1 = tr ++ [(t, Warn "Received NotInitialized, retrying...");
                      (t, WsClose 0)]
    /\ (forall t', (t' < t + 1000)%N ->
          trace (advance t' w1) = trace w1
          /\ sessions (advance t' w1) = sessions w1)
    /\ trace w2 =
       trace w1 ++ [((t + 1000)%N,
                     WsOpen 1 ("wss://cratecode.com/control/" ++ tok)%string)]
    /\ sessions w2 =
       [mkSession tok 0 1 true Pending None (closing r);
        mkSession tok 1 2 false Pending (Some 0%nat) OPEN]
    /\ read 1 w2 = Js.spread fs
    /\ read 2 w2 = Js.spread (Js.spread fs)
    /\ timers w2 = [mkTimer 10000 (CbGuard 0);
                    mkTimer (t + 1000 + 10000) (CbGuard 1)].
Proof.
  intros tok fs t0 r tr t H0 Ht Hr w1 w2. subst w2 w1.
  rewrite (not_initialized_idle tok fs t0 r tr t H0 ltac:(lia) Hr).
  split; [reflexivity|]. split.
  - intros t' Ht'. rewrite (retry_waits tok _ _ t t' _ Ht Ht').
    split; reflexivity.
  - rewrite (retry_fires tok fs _ _ t Ht). repeat split.
Qed.

(** X18, at an instance: the signal arrives 100 ms after the start. *)
Lemma X18_witness :
  sessions (advance 1100
              (step (100%N, Message 0 (ArrayBuffer
                                         (mkOut NotInitialized None)))
                 (idle "token" lesson_example 0 OPEN [])))
  = [mkSession "token" 0 1 true Pending None CLOSING;
     mkSession "token" 1 2 false Pending (Some 0%nat) OPEN].
Proof.
  apply (X18_retry_opens_one_second_later "token" lesson_example 0 OPEN []
           100); try lia. discriminate.
Defined.

End Timing.

Section PristineRetry.
Import Proto Sync.

(** X19.  The first retry starts from the original file set: as long as
    the session that [handleLesson] opened is the only one, whatever it
    has received and pruned from its working set, the session that its
    retry opens has the same token, is chained to it, and works on a copy
    of the file set as [handleLesson] built it. *)
Theorem X19_first_retry_starts_from_the_original_files :
  forall tok fs ins t ts,
    let w := run ins (start tok fs) in
    length (sessions w) = 1%nat ->
    let w' := fire (CbRetry 0) (set_now t (set_timers ts w)) in
    exists s1,
      session 1 w' = Some s1 /\ token s1 = tok
      /\ continuation s1 = Some 0%nat
      /\ read (files s1) w' = Js.spread fs
      /\ read (filesBackup s1) w' = Js.spread (Js.spread fs).
Proof.
  intros tok fs ins t ts w Hlen w'.
  destruct (single_run tok fs ins _ (single_start tok fs)) as [Hs|Hn];
    [|fold w in Hn; lia].
  fold w in Hs. destruct Hs as [s [f0 [Hss [Ht [Hfl [Hb Hh]]]]]].
  subst w'. unfold fire, session. simpl. rewrite Hss. simpl.
  unfold uploadFiles, read, session. simpl. rewrite Hss, Hh, Hb, Ht. simpl.
  eexists. repeat split.
Qed.

(** X19, at an instance: a round has pruned the empty file before the
    signal to retry. *)
Lemma X19_witness :
  exists s1,
    session 1 (fire (CbRetry 0)
                 (run [(50%N, Message 0 (ArrayBuffer
                          (mkOut Files
                             (Some [mkFile "__init__.py" (Some [])]))))]
                    (start "token" lesson_example))) = Some s1
    /\ read (files s1)
         (fire (CbRetry 0)
            (run [(50%N, Message 0 (ArrayBuffer
                     (mkOut Files
                        (Some [mkFile "__init__.py" (Some [])]))))]
               (start "token" lesson_example)))
       = Js.spread lesson_example.
Proof.
  destruct (X19_first_retry_starts_from_the_original_files "token"
              lesson_example
              [(50%N, Message 0 (ArrayBuffer
                  (mkOut Files (Some [mkFile "__init__.py" (Some [])]))))]
              50 [mkTimer 10000 (CbGuard 0); mkTimer 1050 (CbClose 0)]
              eq_refl) as [s1 [H1 [_ [_ [H2 _]]]]].
  exists s1. split; [exact H1|exact H2].
Defined.

End PristineRetry.
(** ** The three tiers of the lesson config *)
Section ConfigTiers.
Import Json Upload.










End ConfigTiers.
(** ** The images of a course *)
Section ImageUpload.
Import Upload Images.

(** The loop, for a directory without repeated names. *)
Lemma upload_each_spec E key path uploadedList :
  forall filesNames output log output' log',
    NoDup filesNames ->
    upload_each E key path uploadedList filesNames output log
    = (Ok output', log') ->
    filter is_request log' =
    filter is_request log
    ++ map (fun fileName =>
              Images.Http key
                (PutImage (Js.substring_from 1 (Path_extname E fileName))
                   (Images.Path_join E [path; fileName])))
         (filter (is_new E uploadedList path) filesNames)
    /\ (forall fileName, ~ In fileName filesNames ->
          Js.get fileName output' = Js.get fileName output)
    /\ (forall fileName, In fileName filesNames ->
          exists entry,
            Js.get fileName output' = Some entry
            /\ format entry = Js.substring_from 1 (Path_extname E fileName)
            /\ forall uploadedFile,
                 on_platform E uploadedList path fileName = Some uploadedFile ->
                 id entry = Some (up_id uploadedFile)).
Proof.
  induction filesNames as [|fileName rest IH];
    intros output log output' log' Hnd H.
  - simpl in H. injection H as <- <-. simpl. rewrite app_nil_r.
    split; [reflexivity|]. split; [reflexivity|]. intros f [].
  - inversion Hnd as [|? ? Hnotin Hnd']; subst.
    cbn [upload_each] in H. cbv zeta in H.
    unfold is_new, on_platform. cbn [filter].
    destruct (getFileHash E (Images.Path_join E [path; fileName]))
      as [hash|] eqn:Hhash; [|discriminate].
    destruct (option_map (imageSize E)
                (Images.fs_readFile E (Images.Path_join E [path; fileName])))
      as [[[width height]|]|]; try discriminate.
    destruct (find_uploaded (Js.substring_from 1 (Path_extname E fileName))
                hash uploadedList) as [uploadedFile|] eqn:Hfind.
    + destruct (IH _ _ _ _ Hnd' H) as [Hreq [Hother Hin]].
      split; [|split].
      * rewrite Hreq, filter_app. simpl. now rewrite app_nil_r.
      * intros f Hf. rewrite Hother by (intros Hr; apply Hf; now right).
        apply get_set_other. intros ->. apply Hf. now left.
      * intros f [<-|Hf]; [|now apply Hin].
        rewrite (Hother fileName Hnotin), get_set_same.
        eexists. split; [reflexivity|]. split; [reflexivity|].
        intros u. rewrite Hhash, Hfind. now intros [= <-].
    + destruct (put_image E (length (filter is_request log))
                  (Js.substring_from 1 (Path_extname E fileName))
                  (Images.Path_join E [path; fileName])) as [newId|status];
        [|discriminate].
      destruct (IH _ _ _ _ Hnd' H) as [Hreq [Hother Hin]].
      split; [|split].
      * rewrite Hreq, !filter_app. simpl. rewrite app_nil_r.
        now rewrite <- app_assoc.
      * intros f Hf. rewrite Hother by (intros Hr; apply Hf; now right).
        apply get_set_other. intros ->. apply Hf. now left.
      * intros f [<-|Hf]; [|now apply Hin].
        rewrite (Hother fileName Hnotin), get_set_same.
        eexists. split; [reflexivity|]. split; [reflexivity|].
        intros u. rewrite Hhash, Hfind. discriminate.
Qed.

(** X22.  [uploadImages] uploads an image only if the platform does not
    have it.  For a directory (without repeated names) on which it
    returns: its requests are the request of the list and then, in the
    order of the directory, one upload for each image that has no file of
    the same format and hash in the list, and no other; every image of
    the directory has an entry in the result, with its format, and with
    the id of the file of the list when there is one. *)
Theorem X22_uploadImages_uploads_only_new_images :
  forall E key path uploadedList filesNames output log,
    file_list E = Listed uploadedList ->
    fs_readdir E path = Some filesNames ->
    NoDup filesNames ->
    uploadImages E key path = (Ok output, log) ->
    filter is_request log =
    Images.Http key GetFileList
    :: map (fun fileName =>
              Images.Http key
                (PutImage (Js.substring_from 1 (Path_extname E fileName))
                   (Images.Path_join E [path; fileName])))
         (filter (is_new E uploadedList path) filesNames)
    /\ forall fileName,
         In fileName filesNames ->
         exists entry,
           Js.get fileName output = Some entry
           /\ format entry = Js.substring_from 1 (Path_extname E fileName)
           /\ forall uploadedFile,
                on_platform E uploadedList path fileName = Some uploadedFile ->
                id entry = Some (up_id uploadedFile).
Proof.
  intros E key path uploadedList filesNames output log Hlist Hdir Hnd H.
  unfold uploadImages in H. rewrite Hlist, Hdir in H.
  destruct (upload_each_spec _ _ _ _ _ _ _ _ _ Hnd H) as [Hreq [_ Hin]].
  split; [exact Hreq|exact Hin].
Qed.

(** X22, at an instance: a directory of two images, one of which the
    platform has. *)
Lemma X22_witness :
  filter is_request (snd (uploadImages demo_images "key" "images"))
  = [Images.Http "key" GetFileList;
     Images.Http "key" (PutImage "jpg" "images/photo.jpg")].
Proof.
  assert (H : exists output,
    uploadImages demo_images "key" "images"
    = (Ok output, snd (uploadImages demo_images "key" "images")))
    by (eexists; vm_compute; reflexivity).
  destruct H as [output H].
  destruct (X22_uploadImages_uploads_only_new_images demo_images "key"
              "images" [mkUploaded "img-1" "hash-of-logo" "png"]
              ["logo.png"; "photo.jpg"] output
              (snd (uploadImages demo_images "key" "images"))
              eq_refl eq_refl) as [Hreq _].
  - repeat constructor; simpl; intuition discriminate.
  - exact H.
  - rewrite Hreq. vm_compute. reflexivity.
Defined.

End ImageUpload.
(** ** Reading a tree of manifests ends *)
Section ManifestTree.
Import Upload Json.



Variable E : Env.












End ManifestTree.

Section ManifestTreeExample.
Import Upload.


End ManifestTreeExample.

(** ** The graph of a unit *)
Section UnitGraph.
Import Upload Json.

(** What [mapIDNoNull] returns for a name that [Object.prototype] does not
    have, on a platform that answers with ids: an id. *)
Lemma mapIDNoNull_id E name state w m w' :
  answers_with_ids E -> Js.inherited name = false ->
  mapIDNoNull E (Some name) state w = (Ok m, w') -> is_id m.
Proof.
  intros HE Hname. unfold mapIDNoNull, bind at 1.
  destruct (mapID E (Some name) state w) as [[[| |s|p]|e|] w1] eqn:Hmap;
    try discriminate; intros [= <- <-]; [|now exists s|]; exfalso.
  - (* undefined *)
    destruct (Js.startsWith ":" name) eqn:Hm.
    { unfold mapID in Hmap. now rewrite Hm in Hmap. }
    destruct (mapID_name E name state w Hm)
      as [[m [Ht Heq]]|[_ [w2 [_ [_ [_ Heq]]]]]]; rewrite Heq in Hmap.
    + unfold bind, ret in Hmap.
      destruct (delay state w) as [[[]|e|] w3]; try discriminate.
      injection Hmap as Hm0 _. subst m. discriminate.
    + pose proof (HE (requests w) name) as Hax.
      destruct (axios E (requests w) (GetId name)) as [[v|]|st];
        [|now elim Hax|].
      * unfold bind, write_memo, ret in Hmap.
        match type of Hmap with context [delay state ?x] =>
          destruct (delay state x) as [[[]|e|] w3] end; discriminate.
      * destruct (is_404 st); [|discriminate].
        unfold bind, ret in Hmap.
        destruct (delay state w2) as [[[]|e|] w3]; discriminate.
  - (* what is inherited under the name *)
    destruct (Js.startsWith ":" name) eqn:Hm.
    { unfold mapID in Hmap. now rewrite Hm in Hmap. }
    unfold mapID in Hmap. rewrite Hm in Hmap.
    unfold bind at 1, read_memo at 1 in Hmap.
    unfold Js.lookup in Hmap. rewrite Hname in Hmap.
    destruct (Js.get name (nth (idsMap state) (memos w) [])) as [v|].
    + destruct (Js.truthy v).
      * unfold bind, ret in Hmap.
        destruct (delay state w) as [[[]|e|] w3]; discriminate.
      * unfold bind at 1 2, request in Hmap.
        destruct (axios E (requests w) (GetId name)) as [[v'|]|st];
          unfold bind, read_memo, write_memo, ret, throw in Hmap.
        -- match type of Hmap with context [delay state ?x] =>
             destruct (delay state x) as [[[]|e|] w3] end; discriminate.
        -- match type of Hmap with context [delay state ?x] =>
             destruct (delay state x) as [[[]|e|] w3] end; discriminate.
        -- destruct (is_404 st); [|discriminate].
           match type of Hmap with context [delay state ?x] =>
             destruct (delay state x) as [[[]|e|] w3] end; discriminate.
    + unfold bind at 1 2, request in Hmap.
      destruct (axios E (requests w) (GetId name)) as [[v'|]|st];
        unfold bind, read_memo, write_memo, ret, throw in Hmap.
      * match type of Hmap with context [delay state ?x] =>
          destruct (delay state x) as [[[]|e|] w3] end; discriminate.
      * match type of Hmap with context [delay state ?x] =>
          destruct (delay state x) as [[[]|e|] w3] end; discriminate.
      * destruct (is_404 st); [|discriminate].
        match type of Hmap with context [delay state ?x] =>
          destruct (delay state x) as [[[]|e|] w3] end; discriminate.
Qed.

Lemma map_M_forall {A B} (f : A -> M B) (P : B -> Prop) xs :
  (forall x, In x xs -> forall w r w', f x w = (Ok r, w') -> P r) ->
  forall w rs w', map_M f xs w = (Ok rs, w') -> Forall P rs.
Proof.
  induction xs as [|x xs IH]; intros Hf w rs w' H; simpl in H.
  - injection H as <- <-. constructor.
  - unfold bind in H.
    destruct (f x w) as [[y|e|] w1] eqn:Hx; try discriminate.
    destruct (map_M f xs w1) as [[ys|e|] w2] eqn:Hxs; try discriminate.
    injection H as <- <-. constructor.
    + now apply (Hf x (or_introl eq_refl) w y w1).
    + apply (IH (fun x' Hin => Hf x' (or_intror Hin)) w1 ys w2 Hxs).
Qed.

(** The ids of the items of a [next] or [previous] list. *)
Lemma resolved_items E state v what items w0 w1 w rs w' :
  answers_with_ids E ->
  Forall (fun s => Js.inherited s = false) (strings_of v) ->
  string_array v what w0 = (Ok items, w1) ->
  map_M (fun item => i <- as_id item ;; mapIDNoNull E i state) items w
  = (Ok rs, w') ->
  Forall is_id rs.
Proof.
  intros HE Hnames Harr. apply map_M_forall.
  intros item Hin w2 r w3. unfold bind.
  destruct item as [|b|n|s|ps|ps]; simpl; try discriminate.
  apply (mapIDNoNull_id E s state w2 r w3 HE).
  destruct v as [[|b|n|s'|ps|ps]|]; simpl in Harr; try discriminate;
    injection Harr as <- <-; try now elim Hin.
  simpl in Hnames. rewrite Forall_forall in Hnames. apply Hnames.
  apply in_flat_map. exists (JStr s). split; [exact Hin|now left].
Qed.

Lemma Forall_app_l {A} (P : A -> Prop) l1 l2 :
  Forall P (l1 ++ l2) -> Forall P l1.
Proof. intros H. now apply Forall_app in H. Qed.

Lemma Forall_app_r {A} (P : A -> Prop) l1 l2 :
  Forall P (l1 ++ l2) -> Forall P l2.
Proof. intros H. now apply Forall_app in H. Qed.

Lemma unit_fold_ids E state props keys :
  answers_with_ids E ->
  Forall (fun s => Js.inherited s = false) (graph_names (JObj props)) ->
  forall acc : M (Js.Rec UnitEntry),
    (forall w m w', acc w = (Ok m, w') -> all_ids m) ->
    forall w m w',
      fold_left
        (fun acc lessonID =>
           m <- acc ;;
           newKey <- mapIDNoNull E (Some lessonID) state ;;
           entry <- of_option (Js.get lessonID props) TypeError ;;
           nextv <- property entry "next" ;;
           previousv <- property entry "previous" ;;
           next <- string_array nextv "next" ;;
           previous <- string_array previousv "previous" ;;
           newNext <- map_M (fun item => i <- as_id item ;;
                                          mapIDNoNull E i state) next ;;
           newPrevious <- map_M (fun item => i <- as_id item ;;
                                              mapIDNoNull E i state)
                            previous ;;
           requireAllv <- property entry "requireAll" ;;
           ret (Js.store (maybe_string newKey)
                  (mkUnitEntry newNext newPrevious (truthy_opt requireAllv))
                  m))
        keys acc w = (Ok m, w') ->
      all_ids m.
Proof.
  intros HE Hnames.
  induction keys as [|k keys IH]; intros acc Hacc w m w' H; simpl in H.
  - now apply (Hacc w m w').
  - eapply IH; [|exact H]. clear H. intros w0 m0 w0'. unfold bind at 1.
    destruct (acc w0) as [[m1|e|] w1] eqn:Ha; try discriminate.
    pose proof (Hacc _ _ _ Ha) as Hm1.
    unfold bind at 1.
    destruct (mapIDNoNull E (Some k) state w1) as [[newKey|e|] w2];
      try discriminate.
    unfold bind at 1. unfold of_option at 1.
    destruct (Js.get k props) as [entry|] eqn:Hentry; [|discriminate].
    unfold ret at 1.
    assert (Hen : Forall (fun s => Js.inherited s = false)
                    (entry_names entry)).
    { rewrite Forall_forall in *. intros s Hs. apply Hnames.
      simpl. apply in_flat_map. exists (k, entry).
      split; [now apply get_some_in|exact Hs]. }
    unfold bind at 1.
    destruct (property entry "next" w2) as [[nextv|e|] w4] eqn:Hpn;
      try discriminate.
    unfold bind at 1.
    destruct (property entry "previous" w4) as [[previousv|e|] w5] eqn:Hpp;
      try discriminate.
    assert (Hnv : Forall (fun s => Js.inherited s = false) (strings_of nextv)
                  /\ Forall (fun s => Js.inherited s = false)
                       (strings_of previousv)).
    { destruct entry as [|b|n|s|ps|ps]; simpl in Hpn, Hpp, Hen;
        try discriminate;
        injection Hpn as <- <-; injection Hpp as <- <-.
      1-3: split; simpl; constructor.
      all: split; [now apply Forall_app_l in Hen|now apply Forall_app_r in Hen]. }
    destruct Hnv as [Hnx Hpv].
    unfold bind at 1.
    destruct (string_array nextv "next" w5) as [[nx|e|] w6] eqn:Hsn;
      try discriminate.
    unfold bind at 1.
    destruct (string_array previousv "previous" w6) as [[pv|e|] w7] eqn:Hsp;
      try discriminate.
    unfold bind at 1.
    destruct (map_M _ nx w7) as [[newNext|e|] w8] eqn:Hn; try discriminate.
    unfold bind at 1.
    destruct (map_M _ pv w8) as [[newPrevious|e|] w9] eqn:Hp;
      try discriminate.
    unfold bind at 1.
    destruct (property entry "requireAll" w9) as [[ra|e|] w10];
      try discriminate.
    intros [= <- <-] k0 e0 Hget. unfold Js.store in Hget.
    destruct (maybe_string newKey =? "__proto__"); [now apply (Hm1 k0)|].
    destruct (String.eqb_spec k0 (maybe_string newKey)) as [->|Hne].
    + rewrite get_set_same in Hget. injection Hget as <-. simpl.
      split; [exact (resolved_items _ _ _ _ _ _ _ _ _ _ HE Hnx Hsn Hn)
             |exact (resolved_items _ _ _ _ _ _ _ _ _ _ HE Hpv Hsp Hp)].
    + rewrite get_set_other in Hget by exact Hne. now apply (Hm1 k0).
Qed.

(** X24.  The graph of a unit refers to ids that were found.  Take a
    platform that answers the lookup of an id with an id or with an error,
    and a unit whose [next] and [previous] lists hold no name of
    [Object.prototype].  When [handleUnit] returns, the upsert it has
    sent carries a graph in which every entry of every [next] and
    [previous] list is a string: what follows the marker, the id
    memoized, or the id that the platform answered.  A name that the
    platform does not know stops the unit before the upsert
    ([mapIDNoNull] throws). *)
Theorem X24_unit_graph_refers_to_ids :
  forall E state id name lessons w unitID w',
    answers_with_ids E ->
    Forall (fun s => Js.inherited s = false) (graph_names lessons) ->
    handleUnit E state id name lessons w = (Ok unitID, w') ->
    exists actualID map,
      In (Http (key state) (PutUnit actualID id name map)) (log w')
      /\ all_ids map.
Proof.
  intros E state id name lessons w unitID w' HE Hnames. unfold handleUnit.
  unfold bind at 1.
  destruct (mapID E (Some id) state w) as [[actualID|e|] w1];
    try discriminate.
  cbv zeta. unfold bind at 1.
  match goal with |- context [fold_left ?f ?ks ?a w1] =>
    destruct (fold_left f ks a w1) as [[map|e|] w2] eqn:Hfold end;
    try discriminate.
  unfold bind at 1. unfold request at 1. cbv beta iota.
  destruct (axios E (requests w2) (PutUnit actualID id name map))
    as [f|st]; unfold bind at 1, field_of, ret at 1, throw;
    cbv beta iota; [|discriminate].
  set (w2' := mkWorld (counters w2) (memos w2)
                (log w2 ++ [Http (key state)
                              (PutUnit actualID id name map)])).
  destruct (delay_log state w2') as [w3 [dl [Hd [Hl _]]]].
  unfold bind, ret. rewrite Hd. intros [= <- <-].
  exists actualID, map. split.
  - rewrite Hl. unfold w2'. simpl. apply in_or_app. left.
    apply in_or_app. right. now left.
  - eapply (unit_fold_ids E state (match lessons with JObj p => p | _ => [] end));
      [exact HE| |
       |exact Hfold].
    + destruct lessons; try constructor. exact Hnames.
    + intros w0 m0 w0' [= <- <-] k entry Hget. discriminate.
Qed.

(** X24, at an instance: the unit [A] of the course. *)
Lemma X24_witness :
  exists actualID map,
    In (Http "key" (PutUnit actualID "unit-a" "A" map))
      (log (snd (handleUnit demo (initial_state "key") "unit-a" "A"
                   (JObj [("intro", JObj [("next", array [JStr ":L2"])])])
                   initial_world)))
    /\ all_ids map.
Proof.
  apply (X24_unit_graph_refers_to_ids demo (initial_state "key")
           "unit-a" "A"
           (JObj [("intro", JObj [("next", array [JStr ":L2"])])])
           initial_world (Some "id-of-unit-a")).
  - intros n name. simpl.
    destruct (name =? "intro"); [discriminate|].
    destruct (name =? "broken"); discriminate.
  - repeat constructor.
  - vm_compute. reflexivity.
Defined.

End UnitGraph.
